(** * libadic: p-adic integers, Dirichlet characters and Kubota-Leopoldt
      L-functions, embedded from the C++ headers under include/libadic.

    Conventions of the embedding.
    - [BigInt] is read as [Z].  A [long] is read as a [Z] in the 64-bit
      range; the products of [DirichletCharacter::pow_mod], which leave
      that range for a modulus above 3037000500, wrap around modulo 2^64
      ([Long.mul]).
    - C++ [%] and [/] on [long] truncate toward zero: [Z.rem], [Z.quot].
    - A function that can throw returns an [outcome]; a loop that the
      source does not bound runs on fuel and reports [Diverge] when the
      fuel is used up. *)

From Stdlib Require Import ZArith List Lia Bool Znumtheory Zquot.
From Stdlib Require Import Zdivisibility Zcong Zpow_facts.
From Stdlib Require Zmod.ZmodInv.
From stdpp Require Import gmap.

Open Scope Z_scope.

(** ** Outcomes of fallible operations *)

Inductive error : Type :=
  | DomainError       (* std::domain_error *)
  | InvalidArgument   (* std::invalid_argument *)
  | NoInverse.        (* BigInt::mod_inverse on a non-invertible value *)

Inductive outcome (A : Type) : Type :=
  | Ok (a : A)
  | Throw (e : error)
  | Diverge.

Arguments Ok {A} a.
Arguments Throw {A} e.
Arguments Diverge {A}.

Definition obind {A B : Type} (m : outcome A) (k : A -> outcome B) : outcome B :=
  match m with
  | Ok a => k a
  | Throw e => Throw e
  | Diverge => Diverge
  end.

Notation "'do' x <- m ; k" := (obind m (fun x => k))
  (at level 10, x name, m at level 100, k at level 200).

(** ** long *)

Module Long.

(** [long] is 64 bits wide.  A product of two [long] values that leaves
    the range comes back reduced into it modulo 2^64, which is what the
    compiled two's-complement multiplication yields. *)
Definition max : Z := 2 ^ 63 - 1.

Definition wrap (z : Z) : Z := (z + 2 ^ 63) mod 2 ^ 64 - 2 ^ 63.

Definition mul (a b : Z) : Z := wrap (a * b).

End Long.

(** ** BigInt *)

Module BigInt.

(** Modelled from the spec: gmp_wrapper.h is not part of the sources at
    hand.  The spec asks of BigInt exact signed arithmetic, integer
    division with remainder, [pow(k)] for k >= 0, [pow_mod(e, m)],
    [mod_inverse(m)] (fails if not coprime), [is_divisible_by] and sign
    tests.  Division and remainder truncate toward zero, which is what the
    sign tests that follow every [%] in zp.h presuppose.  [pow] is asked
    for at k >= 0 only; no statement below depends on what [Z.pow] gives
    at a negative exponent. *)
Definition rem (a m : Z) : Z := Z.rem a m.
Definition quot (a m : Z) : Z := Z.quot a m.
Definition pow (a k : Z) : Z := a ^ k.
Definition pow_mod (a e m : Z) : Z := (a ^ e) mod m.
Definition is_divisible_by (a d : Z) : bool := Z.rem a d =? 0.
Definition is_negative (a : Z) : bool := a <? 0.
Definition is_zero (a : Z) : bool := a =? 0.
Definition is_one (a : Z) : bool := a =? 1.

Definition mod_inverse (a m : Z) : option Z :=
  if Z.gcd a m =? 1 then Some (Z.invmod a m) else None.

End BigInt.

(** ** Modular helpers *)

Module ModularArith.

(** Modelled from the spec: modular_arith.h is not part of the sources at
    hand.  [p_adic_valuation n p] counts the factors of p in a nonzero
    integer (the largest k with p^k | n); a nonzero n has at most
    log2 |n| such factors, which bounds the rounds. *)
Fixpoint count_factors (fuel : nat) (n p : Z) : Z :=
  match fuel with
  | O => 0
  | S fuel' =>
      if negb (n =? 0) && BigInt.is_divisible_by n p
      then 1 + count_factors fuel' (BigInt.quot n p) p
      else 0
  end.

Definition p_adic_valuation (n p : Z) : Z :=
  count_factors (S (Z.to_nat (Z.log2 (Z.abs n)))) n p.

(** Modelled from the spec: the Teichmuller representative modulo p^N,
    obtained by iterating w <- w^p, which converges to the fixed point
    after N - 1 rounds. *)
Definition teichmuller_character (a p N : Z) : Z :=
  let p_power := BigInt.pow p N in
  Z.iter (N - 1) (fun w => BigInt.pow_mod w p p_power) (a mod p_power).

End ModularArith.

(** ** Zp: p-adic integers with tracked precision (zp.h) *)

Module Zp.

Record t : Type := mk { prime : Z; precision : Z; value : Z }.

(** [Zp::normalize] *)
Definition normalize (p N v : Z) : Z :=
  let p_power := BigInt.pow p N in
  let v' := BigInt.rem v p_power in
  if BigInt.is_negative v' then v' + p_power else v'.

(** [Zp(long p, long N, const BigInt& val)]: validate_prime,
    validate_precision, normalize. *)
Definition make (p N val : Z) : outcome t :=
  if p <? 2 then Throw InvalidArgument
  else if N <? 1 then Throw InvalidArgument
  else Ok (mk p N (normalize p N val)).

(** The class invariant of the spec's data model. *)
Definition wf (x : t) : Prop :=
  2 <= prime x /\ 1 <= precision x /\ 0 <= value x < prime x ^ precision x.

(** [Zp::operator+] *)
Definition add (x y : t) : outcome t :=
  if negb (prime x =? prime y) then Throw InvalidArgument
  else
    let min_prec := Z.min (precision x) (precision y) in
    let p_power := BigInt.pow (prime x) min_prec in
    let sum := BigInt.rem (value x + value y) p_power in
    make (prime x) min_prec sum.

(** [Zp::operator-] (binary) *)
Definition sub (x y : t) : outcome t :=
  if negb (prime x =? prime y) then Throw InvalidArgument
  else
    let min_prec := Z.min (precision x) (precision y) in
    let p_power := BigInt.pow (prime x) min_prec in
    let diff := BigInt.rem (value x - value y) p_power in
    let diff := if BigInt.is_negative diff then diff + p_power else diff in
    make (prime x) min_prec diff.

(** [Zp::operator*] *)
Definition mul (x y : t) : outcome t :=
  if negb (prime x =? prime y) then Throw InvalidArgument
  else
    let min_prec := Z.min (precision x) (precision y) in
    let p_power := BigInt.pow (prime x) min_prec in
    let prod := BigInt.rem (value x * value y) p_power in
    make (prime x) min_prec prod.

(** [Zp::operator==] *)
Definition eqb (x y : t) : bool :=
  if negb (prime x =? prime y) then false
  else
    let min_prec := Z.min (precision x) (precision y) in
    let p_power := BigInt.pow (prime x) min_prec in
    BigInt.rem (value x) p_power =? BigInt.rem (value y) p_power.

Definition is_zero (x : t) : bool := BigInt.is_zero (value x).
Definition is_one (x : t) : bool := BigInt.is_one (value x).
Definition is_unit (x : t) : bool := negb (BigInt.is_divisible_by (value x) (prime x)).

(** The loop of [Zp::from_rational] that strips the factors of p from the
    denominator.  Each round divides [den] by p, so for |p| >= 2 there are
    at most log2 |den| rounds; only p = 1 and p = -1 use up the fuel, and
    on them the source loops forever. *)
Fixpoint strip_prime (fuel : nat) (den p : Z) : option Z :=
  if BigInt.is_divisible_by den p then
    match fuel with
    | O => None
    | S fuel' => strip_prime fuel' (BigInt.quot den p) p
    end
  else Some den.

(** [Zp::from_rational] *)
Definition from_rational (numerator denominator p precision : Z) : outcome t :=
  if denominator =? 0 then Throw DomainError
  else
    match strip_prime (S (Z.to_nat (Z.log2 (Z.abs denominator)))) denominator p with
    | None => Diverge
    | Some den =>
        let p_power := BigInt.pow p precision in
        match BigInt.mod_inverse den p_power with
        | None => Throw NoInverse
        | Some inv =>
            let result := BigInt.rem (numerator * inv) p_power in
            make p precision result
        end
    end.

(** [Zp::with_precision] *)
Definition with_precision (x : t) (new_precision : Z) : outcome t :=
  if new_precision <? precision x then
    make (prime x) new_precision
         (BigInt.rem (value x) (BigInt.pow (prime x) new_precision))
  else make (prime x) new_precision (value x).

(** [Zp::operator/] *)
Definition div (x y : t) : outcome t :=
  if negb (prime x =? prime y) then Throw InvalidArgument
  else if is_zero y then Throw DomainError
  else if BigInt.is_divisible_by (value y) (prime x) then Throw DomainError
  else
    let min_prec := Z.min (precision x) (precision y) in
    let p_power := BigInt.pow (prime x) min_prec in
    match BigInt.mod_inverse (value y) p_power with
    | None => Throw NoInverse
    | Some inv => make (prime x) min_prec (BigInt.rem (value x * inv) p_power)
    end.

(** [Zp::operator-] (unary) *)
Definition neg (x : t) : outcome t :=
  let p_power := BigInt.pow (prime x) (precision x) in
  make (prime x) (precision x) (BigInt.rem (p_power - value x) p_power).

(** [Zp::valuation] *)
Definition valuation (x : t) : Z :=
  if is_zero x then precision x
  else ModularArith.p_adic_valuation (value x) (prime x).

(** [Zp::teichmuller] *)
Definition teichmuller (x : t) : outcome t :=
  make (prime x) (precision x)
       (ModularArith.teichmuller_character (value x) (prime x) (precision x)).

(** [Zp(long p, long N)]: the zero of given prime and precision. *)
Definition make_zero (p N : Z) : outcome t :=
  if p <? 2 then Throw InvalidArgument
  else if N <? 1 then Throw InvalidArgument
  else Ok (mk p N 0).

(** [Zp::lift_precision] *)
Definition lift_precision (x : t) (new_precision : Z) : outcome t :=
  if new_precision <=? precision x then Ok x
  else make (prime x) new_precision (value x).

(** [Zp::operator!=] *)
Definition neqb (x y : t) : bool := negb (eqb x y).

(** [Zp::unit_part] *)
Definition unit_part (x : t) : outcome t :=
  if is_zero x then Ok x
  else
    let val := valuation x in
    if val =? 0 then Ok x
    else
      let unit := BigInt.quot (value x) (BigInt.pow (prime x) val) in
      make (prime x) (precision x - val) unit.

(** [Zp::pow] *)
Definition pow (x : t) (exp : Z) : outcome t :=
  let p_power := BigInt.pow (prime x) (precision x) in
  let result := BigInt.pow_mod (value x) exp p_power in
  make (prime x) (precision x) result.

(** The loop of [Zp::p_adic_digits]:
    [digits.push_back(temp % p); temp /= p;], [steps] rounds. *)
Fixpoint digits_loop (steps : nat) (temp p : Z) : list Z :=
  match steps with
  | O => []
  | S steps' => BigInt.rem temp p :: digits_loop steps' (BigInt.quot temp p) p
  end.

(** [Zp::p_adic_digits] *)
Definition p_adic_digits (x : t) : list Z :=
  digits_loop (Z.to_nat (precision x)) (value x) (prime x).

(** *** Square root: Tonelli-Shanks modulo p, then Hensel lifting *)

(** [while ((q % 2).is_zero()) { q /= 2; s += 1; }] *)
Fixpoint split_two (fuel : nat) (q s : Z) : option (Z * Z) :=
  if BigInt.is_zero (BigInt.rem q 2) then
    match fuel with
    | O => None
    | S fuel' => split_two fuel' (BigInt.quot q 2) (s + 1)
    end
  else Some (q, s).

(** [while (z.pow_mod((p - 1) / 2, p) != p - 1) z += 1;] *)
Fixpoint find_non_residue (fuel : nat) (z p : Z) : option Z :=
  if negb (BigInt.pow_mod z (BigInt.quot (p - 1) 2) p =? p - 1) then
    match fuel with
    | O => None
    | S fuel' => find_non_residue fuel' (z + 1) p
    end
  else Some z.

(** [while (t2 != 1) { t2 = (t2 * t2) % p; i += 1; }] *)
Fixpoint least_i (fuel : nat) (t2 i p : Z) : option Z :=
  if negb (t2 =? 1) then
    match fuel with
    | O => None
    | S fuel' => least_i fuel' (BigInt.rem (t2 * t2) p) (i + 1) p
    end
  else Some i.

(** [for (j = 0; j < n; j += 1) b = (b * b) % p;] *)
Definition square_times (n b p : Z) : Z :=
  Z.iter n (fun b => BigInt.rem (b * b) p) b.

(** The main loop [while (!t.is_one())] of Tonelli-Shanks; [inner] is the
    fuel handed to each run of the inner search. *)
Fixpoint tonelli_loop (fuel inner : nat) (m c t r p : Z) : option Z :=
  if negb (BigInt.is_one t) then
    match fuel with
    | O => None
    | S fuel' =>
        match least_i inner (BigInt.rem (t * t) p) 1 p with
        | None => None
        | Some i =>
            let b := square_times (m - i - 1) c p in
            let c' := BigInt.rem (b * b) p in
            let t' := BigInt.rem (t * c') p in
            let r' := BigInt.rem (r * b) p in
            tonelli_loop fuel' inner i c' t' r' p
        end
    end
  else Some r.

(** The odd-prime branch that computes a root modulo p. *)
Definition tonelli_shanks (fuel : nat) (v p : Z) : option Z :=
  match split_two fuel (p - 1) 0 with
  | None => None
  | Some (q, s) =>
      match find_non_residue fuel 2 p with
      | None => None
      | Some z =>
          let m := s in
          let c := BigInt.pow_mod z q p in
          let t := BigInt.pow_mod v q p in
          let r := BigInt.pow_mod v (BigInt.quot (q + 1) 2) p in
          tonelli_loop fuel fuel m c t r p
      end
  end.

(** [for (long k = 1; k < precision; ++k)]: one Hensel step per digit. *)
Fixpoint hensel (steps : nat) (k root v p : Z) : outcome Z :=
  match steps with
  | O => Ok root
  | S steps' =>
      let pk := BigInt.pow p k in
      let pk1 := pk * p in
      let f := BigInt.rem (root * root - v) pk1 in
      if negb (BigInt.is_zero f) then
        match BigInt.mod_inverse (2 * root) p with
        | None => Throw NoInverse
        | Some inv =>
            let correction := BigInt.quot f pk * inv in
            let root' := BigInt.rem (root - correction * pk) pk1 in
            let root' := if BigInt.is_negative root' then root' + pk1 else root' in
            hensel steps' (k + 1) root' v p
        end
      else hensel steps' (k + 1) root v p
  end.

(** [Zp::sqrt] *)
Definition sqrt (fuel : nat) (x : t) : outcome t :=
  if negb (is_unit x) then Throw DomainError
  else
    let p := prime x in
    let guard :=
      if p =? 2 then BigInt.rem (value x) 8 =? 1
      else BigInt.pow_mod (value x) (BigInt.quot (p - 1) 2) p =? 1 in
    if negb guard then Throw DomainError
    else
      do root <- (if p =? 2 then Ok 1
                  else match tonelli_shanks fuel (value x) p with
                       | None => Diverge
                       | Some r => Ok r
                       end);
      do root <- hensel (Z.to_nat (precision x - 1)) 1 root (value x) p;
      make p (precision x) root.

End Zp.

(** ** Valuations *)

Module Valuation.

(** Modelled from the spec: the valuation of a p-adic number lies in
    Z with +infinity added; +infinity is the valuation of zero. *)
Inductive t : Type :=
  | Exact (v : Z)
  | Infinity.

(** Modelled from the spec: the comparisons of a valuation with an
    integer that the logarithm makes; +infinity is above every integer
    and equal to none. *)
Definition eqb (v : t) (k : Z) : bool :=
  match v with
  | Exact a => a =? k
  | Infinity => false
  end.

Definition geb (v : t) (k : Z) : bool :=
  match v with
  | Exact a => a >=? k
  | Infinity => true
  end.

End Valuation.

Coercion Valuation.Exact : Z >-> Valuation.t.

(** ** Qp: p-adic numbers *)

Module Qp.

(** Modelled from the spec: qp.h is not part of the sources at hand.  A
    p-adic number is a valuation together with a unit of Z_p known to
    [precision] digits; the zero element has valuation +infinity.  The
    operations mirror those of Zp (same prime required, result precision
    the smaller of the two, division by zero a domain error). *)
Record t : Type := mk { prime : Z; precision : Z; valuation : Valuation.t; unit : Z }.

Definition zero (p N : Z) : t := mk p N Valuation.Infinity 0.

Definition is_zero (x : t) : bool := unit x =? 0.

(** Modelled from the spec: the number p^shift * s read to N digits. *)
Definition of_scaled (p N shift s : Z) : t :=
  let r := s mod (p ^ N) in
  if r =? 0 then zero p N
  else
    let k := ModularArith.p_adic_valuation r p in
    mk p N (shift + k) (r / p ^ k).

(** Modelled from the spec: [Qp(p, N, value)]. *)
Definition make (p N val : Z) : outcome t :=
  if p <? 2 then Throw InvalidArgument
  else if N <? 1 then Throw InvalidArgument
  else Ok (of_scaled p N 0 val).

(** Modelled from the spec: promotion [Qp(const Zp&)]. *)
Definition of_Zp (z : Zp.t) : t :=
  of_scaled (Zp.prime z) (Zp.precision z) 0 (Zp.value z).

(** Modelled from the spec: sum and difference, after aligning the two
    operands on the smaller valuation; a zero operand leaves the other
    one, read to the common precision. *)
Definition add (x y : t) : outcome t :=
  if negb (prime x =? prime y) then Throw InvalidArgument
  else
    let N := Z.min (precision x) (precision y) in
    let p := prime x in
    match valuation x, valuation y with
    | Valuation.Exact vx, Valuation.Exact vy =>
        let m := Z.min vx vy in
        Ok (of_scaled p N m (unit x * p ^ (vx - m) + unit y * p ^ (vy - m)))
    | Valuation.Exact vx, Valuation.Infinity => Ok (of_scaled p N vx (unit x))
    | Valuation.Infinity, Valuation.Exact vy => Ok (of_scaled p N vy (unit y))
    | Valuation.Infinity, Valuation.Infinity => Ok (zero p N)
    end.

Definition sub (x y : t) : outcome t :=
  if negb (prime x =? prime y) then Throw InvalidArgument
  else
    let N := Z.min (precision x) (precision y) in
    let p := prime x in
    match valuation x, valuation y with
    | Valuation.Exact vx, Valuation.Exact vy =>
        let m := Z.min vx vy in
        Ok (of_scaled p N m (unit x * p ^ (vx - m) - unit y * p ^ (vy - m)))
    | Valuation.Exact vx, Valuation.Infinity => Ok (of_scaled p N vx (unit x))
    | Valuation.Infinity, Valuation.Exact vy => Ok (of_scaled p N vy (- unit y))
    | Valuation.Infinity, Valuation.Infinity => Ok (zero p N)
    end.

(** Modelled from the spec: unary minus. *)
Definition neg (x : t) : t :=
  mk (prime x) (precision x) (valuation x) ((- unit x) mod (prime x ^ precision x)).

(** Modelled from the spec: product (valuations add, units multiply). *)
Definition mul (x y : t) : outcome t :=
  if negb (prime x =? prime y) then Throw InvalidArgument
  else
    let N := Z.min (precision x) (precision y) in
    let p := prime x in
    if is_zero x || is_zero y then Ok (zero p N)
    else
      match valuation x, valuation y with
      | Valuation.Exact vx, Valuation.Exact vy =>
          Ok (mk p N (vx + vy) ((unit x * unit y) mod (p ^ N)))
      | _, _ => Ok (zero p N)
      end.

(** Modelled from the spec: quotient; the divisor must be nonzero. *)
Definition div (x y : t) : outcome t :=
  if negb (prime x =? prime y) then Throw InvalidArgument
  else if is_zero y then Throw DomainError
  else
    let N := Z.min (precision x) (precision y) in
    let p := prime x in
    if is_zero x then Ok (zero p N)
    else
      match BigInt.mod_inverse (unit y) (p ^ N) with
      | None => Throw NoInverse
      | Some inv =>
          match valuation x, valuation y with
          | Valuation.Exact vx, Valuation.Exact vy =>
              Ok (mk p N (vx - vy) ((unit x * inv) mod (p ^ N)))
          | _, _ => Ok (zero p N)
          end
      end.

(** Modelled from the spec: [with_precision], truncation or formal
    extension of the unit. *)
Definition with_precision (x : t) (new_precision : Z) : outcome t :=
  if new_precision <? 1 then Throw InvalidArgument
  else if is_zero x then Ok (zero (prime x) new_precision)
  else Ok (mk (prime x) new_precision (valuation x)
              (unit x mod (prime x ^ new_precision))).

(** Modelled from the spec: [pow(int)] for a non-negative exponent, by
    repeated multiplication. *)
Definition pow (x : t) (e : Z) : outcome t :=
  do one <- make (prime x) (precision x) 1;
  Z.iter e (fun acc => do a <- acc; mul a x) (Ok one).

(** Modelled from the spec: [from_rational(a, b, p, N)] extracts the
    valuation of a/b and reduces the part coprime to p to N digits. *)
Definition from_rational (a b p N : Z) : outcome t :=
  if b =? 0 then Throw DomainError
  else if p <? 2 then Throw InvalidArgument
  else if N <? 1 then Throw InvalidArgument
  else if a =? 0 then Ok (zero p N)
  else
    let va := ModularArith.p_adic_valuation a p in
    let vb := ModularArith.p_adic_valuation b p in
    match BigInt.mod_inverse (b / p ^ vb) (p ^ N) with
    | None => Throw NoInverse
    | Some inv => Ok (mk p N (va - vb) (((a / p ^ va) * inv) mod (p ^ N)))
    end.

(** Well-formed values: those the operations above produce. *)
Definition wf (x : t) : Prop :=
  2 <= prime x /\ 1 <= precision x /\
  0 <= unit x < prime x ^ precision x /\
  (unit x = 0 <-> valuation x = Valuation.Infinity) /\
  (unit x <> 0 -> Z.gcd (unit x) (prime x) = 1).

End Qp.

(** ** PadicLog (padic_log.h) *)

Module PadicLog.

(** [PadicLog::check_convergence_condition] *)
Definition check_convergence_condition (x : Qp.t) : outcome bool :=
  if Qp.is_zero x then Ok false
  else
    let p := Qp.prime x in
    do one <- Qp.make p (Qp.precision x) 1;
    do diff <- Qp.sub x one;
    if p =? 2 then Ok (Valuation.geb (Qp.valuation diff) 2)
    else Ok (Valuation.geb (Qp.valuation diff) 1).

(** [PadicLog::compute_required_terms]; for u = 0, whose valuation is
    +infinity, the quotient [precision / u_valuation] is 0. *)
Definition compute_required_terms (p precision : Z) (u_valuation : Valuation.t) : Z :=
  match u_valuation with
  | Valuation.Exact v =>
      if v <=? 0 then precision * 2
      else
        let terms := Z.quot precision v + 10 in
        Z.min terms (precision * 3)
  | Valuation.Infinity => Z.min (0 + 10) (precision * 3)
  end.

(** [for (long n = p; n <= N * 2; n *= p) p_divides_count++;] *)
Fixpoint count_p_powers (fuel : nat) (n p bound count : Z) : option Z :=
  if n <=? bound then
    match fuel with
    | O => None
    | S fuel' => count_p_powers fuel' (n * p) p bound (count + 1)
    end
  else Some count.

(** The body of [for (long n = 2; n <= terms; ++n)], with its two early
    exits; [steps] is the number of rounds left. *)
Fixpoint series (steps : nat) (n working_precision : Z) (u result u_power : Qp.t)
  : outcome Qp.t :=
  match steps with
  | O => Ok result
  | S steps' =>
      let p := Qp.prime u in
      do divisor <- Qp.make p working_precision n;
      do term <- Qp.div u_power divisor;
      if Valuation.geb (Qp.valuation term) working_precision then Ok result
      else
        do result' <- (if Z.rem n 2 =? 1 then Qp.add result term
                       else Qp.sub result term);
        do u_power' <- Qp.mul u_power u;
        if Valuation.geb (Qp.valuation u_power') working_precision then Ok result'
        else series steps' (n + 1) working_precision u result' u_power'
  end.

(** [PadicLog::log] *)
Definition log (x : Qp.t) : outcome Qp.t :=
  if Qp.is_zero x then Throw DomainError
  else if negb (Valuation.eqb (Qp.valuation x) 0) then Throw DomainError
  else
    let p := Qp.prime x in
    let N := Qp.precision x in
    match count_p_powers (Z.to_nat (N * 2)) p p (N * 2) 0 with
    | None => Diverge
    | Some p_divides_count =>
        let working_precision := N + p_divides_count + 5 in
        do one <- Qp.make p working_precision 1;
        do x' <- Qp.with_precision x working_precision;
        do u <- Qp.sub x' one;
        do converges <- check_convergence_condition x;
        if negb converges then Throw DomainError
        else
          let u_val := Qp.valuation u in
          let terms := compute_required_terms p working_precision u_val in
          if terms <? 1 then Qp.make p N 0
          else
            do u_power <- Qp.mul u u;
            do result <- series (Z.to_nat (terms - 1)) 2 working_precision u u u_power;
            Qp.with_precision result N
    end.

(** [PadicLog::log_product] *)
Definition log_product (x y : Qp.t) : outcome Qp.t :=
  if negb (Valuation.eqb (Qp.valuation x) 0) || negb (Valuation.eqb (Qp.valuation y) 0)
  then Throw DomainError
  else
    do lx <- log x;
    do ly <- log y;
    Qp.add lx ly.

(** [PadicLog::log_unit] *)
Definition log_unit (x : Zp.t) : outcome Qp.t :=
  if negb (Zp.is_unit x) then Throw DomainError
  else
    let p := Zp.prime x in
    let N := Zp.precision x in
    do one <- Zp.make p N 1;
    do congruent_check <- Zp.with_precision x 1;
    do one1 <- Zp.with_precision one 1;
    if Zp.neqb congruent_check one1 then Throw DomainError
    else log (Qp.of_Zp x).

End PadicLog.

(** ** Cyclotomic (external) *)

Module Cyclotomic.

(** Modelled from the spec: cyclotomic.h is not part of the sources at
    hand.  The character code uses four operations of it: the zero element
    [Cyclotomic(p, N)], the embedding [Cyclotomic(p, N, Qp)] of a scalar,
    the primitive root [Cyclotomic::zeta(p, N)] and the product.  They are
    taken as parameters. *)
Record ops (C : Type) : Type := mk_ops {
  zero : Z -> Z -> C;
  of_Qp : Z -> Z -> Qp.t -> C;
  zeta : Z -> Z -> C;
  mul : C -> C -> C
}.

Arguments zero {C} _ _ _.
Arguments of_Qp {C} _ _ _ _.
Arguments zeta {C} _ _ _.
Arguments mul {C} _ _ _.

(** The four operations left uninterpreted: the terms built from them. *)
Inductive term : Type :=
  | Zero (p N : Z)
  | OfQp (p N : Z) (q : Qp.t)
  | Zeta (p N : Z)
  | Mul (a b : term).

Definition free : ops term := mk_ops term Zero OfQp Zeta Mul.

End Cyclotomic.

(** ** DirichletCharacter (characters.h) *)

Module DirichletCharacter.

Record t : Type := mk {
  conductor : Z;
  modulus : Z;
  prime : Z;
  generators : list Z;
  generator_orders : list Z;
  character_values : list Z
}.

(** The integers lo, lo + 1, ..., lo + len - 1: the range of a counting
    [for] loop. *)
Definition range (lo : Z) (len : nat) : list Z :=
  map (fun i => lo + Z.of_nat i) (seq 0 len).

(** [DirichletCharacter::pow_mod]: the loop [while (exp > 0)] consumes the
    binary digits of [exp] from the lowest.  [result * base] and
    [base * base] are products of two [long]. *)
Fixpoint pow_mod_loop (exp : positive) (result base md : Z) : Z :=
  match exp with
  | xH => Z.rem (Long.mul result base) md
  | xO exp' => pow_mod_loop exp' result (Z.rem (Long.mul base base) md) md
  | xI exp' =>
      pow_mod_loop exp' (Z.rem (Long.mul result base) md)
                   (Z.rem (Long.mul base base) md) md
  end.

Definition pow_mod (base exp md : Z) : Z :=
  match exp with
  | Zpos e => pow_mod_loop e 1 (Z.rem base md) md
  | _ => 1
  end.

(** [while (n % p == 0) { pow++; n /= p; }] *)
Fixpoint strip_factor (fuel : nat) (n p pow : Z) : option (Z * Z) :=
  if Z.rem n p =? 0 then
    match fuel with
    | O => None
    | S fuel' => strip_factor fuel' (Z.quot n p) p (pow + 1)
    end
  else Some (pow, n).

(** Fuel for [strip_factor]: a nonzero n loses at most log2 |n| factors;
    n = 0 is divisible for ever. *)
Definition strip_fuel (n : Z) : nat :=
  if n =? 0 then O else S (Z.to_nat (Z.log2 (Z.abs n))).

(** [for (long p = 3; p * p <= n; p += 2)] with the inner stripping loop. *)
Fixpoint odd_factors (fuel : nat) (p n : Z) : option (list (Z * Z) * Z) :=
  if p * p <=? n then
    match fuel with
    | O => None
    | S fuel' =>
        match strip_factor (strip_fuel n) n p 0 with
        | None => None
        | Some (pow, n') =>
            match odd_factors fuel' (p + 2) n' with
            | None => None
            | Some (l, n'') =>
                Some (if pow >? 0 then (p, pow) :: l else l, n'')
            end
        end
    end
  else Some ([], n).

(** The factorization part of [compute_generators]. *)
Definition factorize (md : Z) : option (list (Z * Z)) :=
  match strip_factor (strip_fuel md) md 2 0 with
  | None => None
  | Some (pow2, n) =>
      match odd_factors (Z.to_nat n) 3 n with
      | None => None
      | Some (odd, n') =>
          Some ((if pow2 >? 0 then [(2, pow2)] else [])
                  ++ odd ++ (if n' >? 1 then [(n', 1)] else []))
      end
  end.

(** [for (long d = 2; d * d <= p - 1; ++d)]: the test that g generates
    (Z/pZ)*, [false] as soon as a divisor d of p - 1 gives a power 1. *)
Fixpoint generates (fuel : nat) (g d p : Z) : option bool :=
  if d * d <=? p - 1 then
    match fuel with
    | O => None
    | S fuel' =>
        if (Z.rem (p - 1) d =? 0)
           && ((pow_mod g d p =? 1) || (pow_mod g (Z.quot (p - 1) d) p =? 1))
        then Some false
        else generates fuel' g (d + 1) p
    end
  else Some true.

(** [long g = 2; while (true) { ... g++; }] *)
Fixpoint find_primitive_root (fuel : nat) (g p k : Z) : option Z :=
  match fuel with
  | O => None
  | S fuel' =>
      match generates (Z.to_nat p) g 2 p with
      | None => None
      | Some true =>
          if (k >? 1) && (pow_mod g (p - 1) (p * p) =? 1)
          then Some (g + p) else Some g
      | Some false => find_primitive_root fuel' (g + 1) p k
      end
  end.

(** The generators and orders contributed by one prime power p^k. *)
Definition prime_power_generators (p k : Z) : option (list Z * list Z) :=
  let pk := Z.iter k (fun pk => pk * p) 1 in
  if (p =? 2) && (k >=? 3) then Some ([-1; 3], [2; Z.quot pk 4])
  else if (p =? 2) && (k =? 2) then Some ([-1], [2])
  else if (p =? 2) && (k =? 1) then Some ([], [])
  else
    let order := pk - Z.quot pk p in
    match find_primitive_root (Z.to_nat p) 2 p k with
    | None => None
    | Some g => Some ([g], [order])
    end.

Fixpoint all_generators (factorization : list (Z * Z)) : option (list Z * list Z) :=
  match factorization with
  | [] => Some ([], [])
  | (p, k) :: rest =>
      match prime_power_generators p k, all_generators rest with
      | Some (gs, os), Some (gs', os') => Some (gs ++ gs', os ++ os')
      | _, _ => None
      end
  end.

(** [DirichletCharacter::compute_generators] *)
Definition compute_generators (md : Z) : outcome (list Z * list Z) :=
  if md =? 1 then Ok ([], [])
  else
    match factorize md with
    | None => Diverge
    | Some factorization =>
        match all_generators factorization with
        | None => Diverge
        | Some r => Ok r
        end
    end.

(** The inner search of [express_in_generators]:
    [for (long e = 0; e < order; ++e)], 0 when no exponent fits. *)
Fixpoint find_exponent (steps : nat) (e g target md : Z) : Z :=
  match steps with
  | O => 0
  | S steps' =>
      if pow_mod g e md =? target then e
      else find_exponent steps' (e + 1) g target md
  end.

(** [DirichletCharacter::express_in_generators] *)
Definition express_in_generators (chi : t) (a : Z) : list Z :=
  if negb (Z.gcd a (modulus chi) =? 1) then
    repeat 0 (length (generators chi))
  else
    map (fun i =>
           let g := nth i (generators chi) 0 in
           let order := nth i (generator_orders chi) 0 in
           find_exponent (Z.to_nat order) 0 g
             (Z.rem (Z.rem a (modulus chi) + modulus chi) (modulus chi))
             (modulus chi))
        (seq 0 (length (generators chi))).

(** One round of the loop of [evaluate_at] on the pair (result, order):
    [if (character_values[i] != 0) { order = lcm(...); result = ...; }] *)
Definition evaluate_step (values orders exps : list Z) (st : Z * Z) (i : nat)
  : Z * Z :=
  let '(result, order) := st in
  if negb (nth i values 0 =? 0) then
    let order' := Z.lcm order (nth i orders 0) in
    (Z.rem (result * pow_mod (nth i values 0) (nth i exps 0) order') order',
     order')
  else (result, order).

(** [DirichletCharacter::evaluate_at] *)
Definition evaluate_at (chi : t) (n : Z) : Z :=
  if negb (Z.gcd n (modulus chi) =? 1) then 0
  else
    let n := Z.rem (Z.rem n (modulus chi) + modulus chi) (modulus chi) in
    let exps := express_in_generators chi n in
    fst (fold_left (evaluate_step (character_values chi) (generator_orders chi) exps)
                   (seq 0 (length (generators chi))) (1, 1)).

(** The test [factors_through_d] of [compute_conductor]. *)
Definition factors_through (chi : t) (d : Z) : bool :=
  forallb (fun a =>
             if negb (Z.gcd a (modulus chi) =? 1) then true
             else if negb (Z.gcd a d =? 1) then true
             else evaluate_at chi a =? evaluate_at chi (Z.rem a d))
          (range 1 (Z.to_nat (modulus chi))).

(** [DirichletCharacter::compute_conductor] *)
Definition compute_conductor (chi : t) : Z :=
  match find (fun d => (Z.rem (modulus chi) d =? 0) && factors_through chi d)
             (range 1 (Z.to_nat (modulus chi - 1))) with
  | Some d => d
  | None => modulus chi
  end.

(** [DirichletCharacter(long mod, long p)] *)
Definition make (md p : Z) : outcome t :=
  do gens <- compute_generators md;
  Ok (mk md md p (fst gens) (snd gens) (repeat 0 (length (fst gens)))).

(** [DirichletCharacter(long mod, long p, const std::vector<long>&)] *)
Definition make_values (md p : Z) (gen_values : list Z) : outcome t :=
  do gens <- compute_generators md;
  if negb (length gen_values =? length (fst gens))%nat then Throw InvalidArgument
  else
    let chi := mk md md p (fst gens) (snd gens) gen_values in
    Ok (mk (compute_conductor chi) md p (fst gens) (snd gens) gen_values).

(** [DirichletCharacter::evaluate] *)
Definition evaluate (chi : t) (n precision : Z) : outcome Zp.t :=
  let chi_n := evaluate_at chi n in
  if chi_n =? 0 then Zp.make (prime chi) precision 0
  else do z <- Zp.make (prime chi) precision chi_n; Zp.teichmuller z.

Definition is_even (chi : t) : bool := evaluate_at chi (-1) =? 1.
Definition is_odd (chi : t) : bool := evaluate_at chi (-1) =? modulus chi - 1.

(** [DirichletCharacter::is_principal] *)
Definition is_principal (chi : t) : bool :=
  forallb (fun val => (val =? 1) || (val =? 0)) (character_values chi).

(** The search [for (long k = 1; k <= generator_orders[i]; ++k)] of
    [get_order]: the first k with value^k = 1, if any. *)
Definition value_order (val order : Z) : option Z :=
  find (fun k => pow_mod val k order =? 1) (range 1 (Z.to_nat order)).

(** [DirichletCharacter::get_order] *)
Definition get_order (chi : t) : Z :=
  if is_principal chi then 1
  else
    fold_left (fun order i =>
                 let val := nth i (character_values chi) 0 in
                 if negb (val =? 0) then
                   match value_order val (nth i (generator_orders chi) 0) with
                   | Some k => Z.lcm order k
                   | None => order
                   end
                 else order)
              (seq 0 (length (character_values chi))) 1.

(** [DirichletCharacter::evaluate_cyclotomic]; the mutable member
    [value_cache] is passed in and handed back. *)
Definition evaluate_cyclotomic {C : Type} (cyc : Cyclotomic.ops C)
    (chi : t) (value_cache : gmap Z C) (n precision : Z)
  : outcome (C * gmap Z C) :=
  match value_cache !! n with
  | Some v => Ok (v, value_cache)
  | None =>
      let chi_n := evaluate_at chi n in
      if chi_n =? 0 then Ok (Cyclotomic.zero cyc (prime chi) precision, value_cache)
      else
        let order := get_order chi in
        let zeta := Cyclotomic.zeta cyc (prime chi) precision in
        do one <- Qp.make (prime chi) precision 1;
        let exponent := Z.quot (chi_n * (prime chi - 1)) order in
        let result :=
          Z.iter exponent (fun result => Cyclotomic.mul cyc result zeta)
                 (Cyclotomic.of_Qp cyc (prime chi) precision one) in
        Ok (result, <[n := result]> value_cache)
  end.





End DirichletCharacter.

(** ** LFunctions (l_functions.h) *)

Module LFunctions.

(** [LFunctions::LKey]: (s, conductor, char_id, p, precision).  The
    ordering [operator<] is lexicographic on the five fields, so two keys
    name the same cache entry exactly when all five fields agree. *)
Definition LKey : Type := (Z * Z * Z * Z * Z)%type.

(** [LKey::operator<] *)
Definition LKey_lt (a b : LKey) : bool :=
  let '(s, conductor, char_id, p, precision) := a in
  let '(s', conductor', char_id', p', precision') := b in
  if negb (s =? s') then s <? s'
  else if negb (conductor =? conductor') then conductor <? conductor'
  else if negb (char_id =? char_id') then char_id <? char_id'
  else if negb (p =? p') then p <? p'
  else precision <? precision'.

Section Evaluators.

(** The collaborators that are not in the sources at hand are taken as
    parameters: the cyclotomic ring, the generalized Bernoulli numbers of
    bernoulli.h, and the number of terms of the positive branch, which the
    source obtains in floating point as precision * log(p) / log(2) + 10. *)
Context {C : Type} (cyc : Cyclotomic.ops C).
Variable generalized_bernoulli :
  Z -> Z -> (Z -> outcome C) -> Z -> Z -> outcome Qp.t.
Variable num_terms : Z -> Z -> Z.

(** The loop of [compute_B1_chi] over a = 1 .. conductor. *)
Fixpoint B1_sum (chi : DirichletCharacter.t) (precision : Z)
    (l : list Z) (sum : Qp.t) : outcome Qp.t :=
  match l with
  | [] => Ok sum
  | a :: rest =>
      if negb (Z.gcd a (DirichletCharacter.conductor chi) =? 1)
      then B1_sum chi precision rest sum
      else
        do chi_a <- DirichletCharacter.evaluate chi a precision;
        do qa <- Qp.make (DirichletCharacter.prime chi) precision a;
        do term <- Qp.mul (Qp.of_Zp chi_a) qa;
        do sum' <- Qp.add sum term;
        B1_sum chi precision rest sum'
  end.

(** [LFunctions::compute_B1_chi] *)
Definition compute_B1_chi (chi : DirichletCharacter.t) (precision : Z) : outcome Qp.t :=
  let p := DirichletCharacter.prime chi in
  let conductor := DirichletCharacter.conductor chi in
  if DirichletCharacter.is_principal chi then Qp.from_rational (-1) 2 p precision
  else
    do sum0 <- Qp.make p precision 0;
    do sum <- B1_sum chi precision
                (DirichletCharacter.range 1 (Z.to_nat conductor)) sum0;
    do f <- Qp.make p precision conductor;
    Qp.div sum f.

(** [LFunctions::compute_euler_factor] *)
Definition compute_euler_factor (chi : DirichletCharacter.t) (s precision : Z)
  : outcome Qp.t :=
  let p := DirichletCharacter.prime chi in
  do one <- Qp.make p precision 1;
  if Z.rem (DirichletCharacter.conductor chi) p =? 0 then Ok one
  else
    do chi_p <- DirichletCharacter.evaluate chi p precision;
    do p_power <- Qp.make p precision (BigInt.pow p (s - 1));
    do prod <- Qp.mul (Qp.of_Zp chi_p) p_power;
    Qp.sub one prod.

(** The loop of [compute_positive_value] over n = 1 .. num_terms. *)
Fixpoint positive_sum (chi : DirichletCharacter.t) (s precision : Z)
    (l : list Z) (sum : Qp.t) : outcome Qp.t :=
  match l with
  | [] => Ok sum
  | n :: rest =>
      let p := DirichletCharacter.prime chi in
      if Z.rem n p =? 0 then positive_sum chi s precision rest sum
      else
        do chi_n <- DirichletCharacter.evaluate chi n precision;
        if negb (Zp.is_zero chi_n) then
          do qn <- Qp.make p precision n;
          do n_power <- Qp.pow qn s;
          do term <- Qp.div (Qp.of_Zp chi_n) n_power;
          do sum' <- Qp.add sum term;
          positive_sum chi s precision rest sum'
        else positive_sum chi s precision rest sum
  end.

(** [LFunctions::compute_positive_value] *)
Definition compute_positive_value (chi : DirichletCharacter.t) (s precision : Z)
  : outcome Qp.t :=
  let p := DirichletCharacter.prime chi in
  do sum0 <- Qp.make p precision 0;
  do sum <- positive_sum chi s precision
              (DirichletCharacter.range 1 (Z.to_nat (num_terms precision p))) sum0;
  do euler <- compute_euler_factor chi s precision;
  Qp.mul euler sum.

(** [LFunctions::kubota_leopoldt]; the static [l_cache] is passed in and
    handed back.  The character's own value cache is touched only inside
    the callback given to the Bernoulli module and is outside this state. *)
Definition kubota_leopoldt (s : Z) (chi : DirichletCharacter.t) (precision : Z)
    (l_cache : gmap LKey Qp.t) : outcome (Qp.t * gmap LKey Qp.t) :=
  let p := DirichletCharacter.prime chi in
  let conductor := DirichletCharacter.conductor chi in
  let key : LKey := (s, conductor, DirichletCharacter.evaluate_at chi 2, p, precision) in
  match l_cache !! key with
  | Some v => Ok (v, l_cache)
  | None =>
      do result0 <- Qp.make p precision 0;
      do result <-
        (if s =? 0 then
           do B1_chi <- compute_B1_chi chi precision;
           do euler_factor <- compute_euler_factor chi 1 precision;
           Qp.mul (Qp.neg euler_factor) B1_chi
         else if s <? 0 then
           let n := 1 - s in
           if n <=? 0 then Throw InvalidArgument
           else if ((Z.rem n 2 =? 0) && DirichletCharacter.is_odd chi)
                   || ((Z.rem n 2 =? 1) && DirichletCharacter.is_even chi)
           then Qp.make p precision 0
           else
             let chi_func := fun a =>
               do r <- DirichletCharacter.evaluate_cyclotomic cyc chi ∅ a precision;
               Ok (fst r) in
             do Bn_chi <- generalized_bernoulli n conductor chi_func p precision;
             do euler_factor <- compute_euler_factor chi n precision;
             do prod <- Qp.mul (Qp.neg euler_factor) Bn_chi;
             do qn <- Qp.make p precision n;
             Qp.div prod qn
         else compute_positive_value chi s precision);
      Ok (result, <[key := result]> l_cache)
  end.

(** [LFunctions::clear_cache] for the value cache. *)
Definition clear_cache : gmap LKey Qp.t := ∅.

End Evaluators.

End LFunctions.

(** * Vocabulary of the statements *)

Section Statements.

Import DirichletCharacter.

(** ** Zp *)

(** What is asked of the result of a binary operation on x, y: a
    value z of the same prime, of precision min(N_x, N_y), with its
    representative in [0, p^min(N_x, N_y)). *)
Definition canonical_at_min (x y : Zp.t) (r : outcome Zp.t) : Prop :=
  exists z, r = Ok z /\
    Zp.prime z = Zp.prime x /\
    Zp.precision z = Z.min (Zp.precision x) (Zp.precision y) /\
    0 <= Zp.value z < Zp.prime x ^ Z.min (Zp.precision x) (Zp.precision y).

(** The round trip of from_rational: from_rational(a, b, p, N) times
    Zp(p, N, b) compares equal ([operator==]) to Zp(p, N, a). *)
Definition recovers_numerator (a b p N : Z) : Prop :=
  exists q zb za z,
    Zp.from_rational a b p N = Ok q /\
    Zp.make p N b = Ok zb /\
    Zp.make p N a = Ok za /\
    Zp.mul q zb = Ok z /\
    Zp.eqb z za = true.

(** ** Character values *)

(** The power that [pow_mod] returns: 1 for a non-positive exponent (also
    when the modulus is 1), the truncated remainder of base^exp otherwise. *)
Definition power_residue (base exp md : Z) : Z :=
  if exp >? 0 then Z.rem (base ^ exp) md else 1.

(** The products that pow_mod forms modulo md are products of residues,
    of absolute value at most (md - 1)^2; they stay in the range of [long]
    for md up to 3037000500. *)
Definition products_fit (md : Z) : Prop := (md - 1) * (md - 1) <= Long.max.


(** The product g_1^(x_1) * ... * g_r^(x_r) of a generator decomposition. *)
Definition product_of_powers (gens xs : list Z) : Z :=
  fold_right Z.mul 1 (map (fun gx => fst gx ^ snd gx) (combine gens xs)).

(** The exponent sum e_1 x_1 + ... + e_r x_r. *)
Definition exponent_sum (values xs : list Z) : Z :=
  fold_right Z.add 0 (map (fun ex => fst ex * snd ex) (combine values xs)).

(** The lcm of the orders m_i with e_i <> 0. *)
Definition lcm_of_nonzero (values orders : list Z) : Z :=
  fold_right (fun em L => if fst em =? 0 then L else Z.lcm (snd em) L) 1
             (combine values orders).

(** The additive reading of evaluate_at: 0 off the units, and on a unit a
    the exponent sum modulo the lcm, for a decomposition (x_i) of a on the
    generators with 0 <= x_i < m_i. *)
Definition evaluates_additively (chi : t) (a : Z) : Prop :=
  (Z.gcd a (modulus chi) <> 1 -> evaluate_at chi a = 0) /\
  (Z.gcd a (modulus chi) = 1 ->
   exists xs,
     length xs = length (generators chi) /\
     Forall2 (fun x m => 0 <= x < m) xs (generator_orders chi) /\
     product_of_powers (generators chi) xs mod modulus chi = a mod modulus chi /\
     evaluate_at chi a =
       exponent_sum (character_values chi) xs
         mod lcm_of_nonzero (character_values chi) (generator_orders chi)).

(** ** The value cache of a character *)

(** One call of evaluate_cyclotomic, keeping only its effect on the
    cache; a call that throws leaves the cache as it was. *)
Definition cache_after {C : Type} (cyc : Cyclotomic.ops C) (chi : t)
    (value_cache : gmap Z C) (call : Z * Z) : gmap Z C :=
  match evaluate_cyclotomic cyc chi value_cache (fst call) (snd call) with
  | Ok (_, cache') => cache'
  | _ => value_cache
  end.

(** On a fresh character: the first call for a stores its value, and a
    later call at another precision returns it. *)
Definition served_from_first_call {C : Type} (cyc : Cyclotomic.ops C) (chi : t)
    (a N1 N2 : Z) : Prop :=
  exists v1 cache1,
    evaluate_cyclotomic cyc chi ∅ a N1 = Ok (v1, cache1) /\
    cache1 !! a = Some v1 /\
    evaluate_cyclotomic cyc chi cache1 a N2 = Ok (v1, cache1).

(** ** Euler's totient and factorizations *)

Definition coprime_to (n a : Z) : bool := Z.gcd a n =? 1.

(** The number of a in lo, ..., lo + len - 1 with gcd(a, n) = 1. *)
Definition count_coprime (n lo : Z) (len : nat) : nat :=
  length (List.filter (coprime_to n) (range lo len)).

(** phi(n): the number of a in 1 .. n with gcd(a, n) = 1. *)
Definition totient (n : Z) : Z := Z.of_nat (count_coprime n 1 (Z.to_nat n)).

Definition divisible_by (p a : Z) : bool := Z.rem a p =? 0.

(** [factored_onto fs n n']: n is n' times the prime powers listed in fs,
    each prime not dividing what follows it. *)
Inductive factored_onto : list (Z * Z) -> Z -> Z -> Prop :=
  | factored_nil (n : Z) : 1 <= n -> factored_onto [] n n
  | factored_cons (p k : Z) (fs : list (Z * Z)) (n m n' : Z) :
      Z.prime p -> 1 <= k -> ~ (p | m) -> n = p ^ k * m ->
      factored_onto fs m n' -> factored_onto ((p, k) :: fs) n n'.

(** The product of p^k - p^(k-1) over a factorization. *)
Definition phi_of_factors (fs : list (Z * Z)) : Z :=
  fold_right (fun pk acc => (fst pk ^ snd pk - fst pk ^ (snd pk - 1)) * acc) 1 fs.

(** The state of the trial-division loop over odd p: n is odd, and every
    prime dividing n is at least p. *)
Definition sieved (p n : Z) : Prop :=
  1 <= n /\ ~ (2 | n) /\ 3 <= p /\ ~ (2 | p) /\
  forall q, Z.prime q -> (q | n) -> p <= q.

Definition list_product (l : list Z) : Z := fold_right Z.mul 1 l.


(** ** The domain of the logarithm *)

(** The modulus exponent of the convergence test: 2 for p = 2, else 1. *)
Definition log_threshold (p : Z) : Z := if p =? 2 then 2 else 1.

(** x = 1 modulo p^k on the representative of a unit x. *)
Definition unit_congruent_to_one (x : Qp.t) (k : Z) : Prop :=
  (Qp.unit x - 1) mod Qp.prime x ^ k = 0.


(** ** The L-function cache *)

(** The cache key that [kubota_leopoldt] builds for (s, chi, precision). *)
Definition cache_key (s : Z) (chi : t) (precision : Z) : LFunctions.LKey :=
  (s, conductor chi, evaluate_at chi 2, prime chi, precision).

(** The principal character modulo 1 with p = 5, as
    [DirichletCharacter(1, 5)] builds it. *)
Definition principal_mod_1 : t := mk 1 1 5 [] [] [].

(** The characters modulo 7 (p = 5) with exponent vectors [0] and [5], as
    the three-argument constructor builds them. *)
Definition chi7_0 : t := mk 7 7 5 [3] [6] [0].
Definition chi7_5 : t := mk 7 7 5 [3] [6] [5].

(** ** Digits, orders and factorizations *)

(** The integer d_0 + d_1 p + d_2 p^2 + ... that a digit list denotes,
    lowest digit first. *)
Definition digits_value (p : Z) (l : list Z) : Z :=
  fold_right (fun d acc => d + p * acc) 0 l.

(** g has multiplicative order p - 1 modulo p: no smaller positive power
    of g is 1. *)
Definition primitive_root (g p : Z) : Prop :=
  forall e, 0 < e < p - 1 -> g ^ e mod p <> 1.

(** x has multiplicative order d modulo p. *)
Definition has_order (x d p : Z) : Prop :=
  0 < d /\ x ^ d mod p = 1 /\ forall e, 0 < e < d -> x ^ e mod p <> 1.


(** The lexicographic order on the five fields of a cache key. *)
Definition lexicographic (a b : LFunctions.LKey) : Prop :=
  let '(s, c, i, p, n) := a in
  let '(s', c', i', p', n') := b in
  s < s' \/ (s = s' /\
  (c < c' \/ (c = c' /\
  (i < i' \/ (i = i' /\
  (p < p' \/ (p = p' /\ n < n'))))))).

(** ** Polynomials over Z *)

(** A polynomial as its list of coefficients, constant term first, and
    its value at x. *)
Fixpoint poly_eval (f : list Z) (x : Z) : Z :=
  match f with
  | [] => 0
  | c :: cs => c + x * poly_eval cs x
  end.

(** The quotient of f by (X - a). *)
Fixpoint poly_div_linear (f : list Z) (a : Z) : list Z :=
  match f with
  | [] => []
  | c :: cs =>
      match cs with
      | [] => []
      | _ :: _ => poly_eval cs a :: poly_div_linear cs a
      end
  end.

End Statements.

(** * Properties *)

(** ** Truncated remainder against the canonical residue *)

Section Remainders.

Lemma rem_as_sub (a m : Z) : Z.rem a m = a - m * (a ÷ m).
Proof. pose proof (Z.quot_rem' a m). lia. Qed.

Lemma rem_then_mod (a m : Z) : 0 < m -> (Z.rem a m) mod m = a mod m.
Proof.
  intros Hm. rewrite rem_as_sub.
  replace (a - m * (a ÷ m)) with (a + (- (a ÷ m)) * m) by ring.
  apply Z_mod_plus_full.
Qed.

Lemma rem_range (a m : Z) : 0 < m -> - m < Z.rem a m < m.
Proof.
  intros Hm. destruct (Z_le_gt_dec 0 a) as [Ha | Ha].
  - pose proof (Z.rem_bound_pos a m Ha Hm). lia.
  - pose proof (Zrem_lt_neg_pos a m). lia.
Qed.

(** Adding the modulus back to a negative truncated remainder gives the
    residue in [0, m). *)
Lemma fix_sign_mod (a m : Z) :
  0 < m ->
  (if Z.rem a m <? 0 then Z.rem a m + m else Z.rem a m) = a mod m.
Proof.
  intros Hm. pose proof (rem_range a m Hm) as Hr.
  pose proof (Z.quot_rem' a m) as Hq.
  destruct (Z.ltb_spec (Z.rem a m) 0).
  - apply Z.mod_unique_pos with (q := a ÷ m - 1); lia.
  - apply Z.mod_unique_pos with (q := a ÷ m); lia.
Qed.

Lemma rem_zero_iff_mod (a m : Z) : 0 < m -> (Z.rem a m = 0 <-> a mod m = 0).
Proof.
  intros Hm. rewrite <- (rem_then_mod a m Hm). pose proof (rem_range a m Hm) as Hr.
  split; intros H.
  - rewrite H. apply Z.mod_0_l. lia.
  - apply Z.mod_divide in H; [| lia]. destruct H as [k Hk].
    assert (k = 0) by nia. subst k. lia.
Qed.

Lemma prime_7 : Z.prime 7.
Proof.
  split; [lia |]. intros n Hn [c Hc].
  assert (n = 2 \/ n = 3 \/ n = 4 \/ n = 5 \/ n = 6) as [-> | [-> | [-> | [-> | ->]]]] by lia;
    lia.
Qed.

End Remainders.

(** ** Zp arithmetic *)

Section ZpArith.

Lemma pow_pos_of_prime (p N : Z) : 2 <= p -> 0 <= N -> 0 < p ^ N.
Proof. intros. apply Z.pow_pos_nonneg; lia. Qed.

Lemma normalize_mod (p N v : Z) :
  2 <= p -> 0 <= N -> Zp.normalize p N v = v mod p ^ N.
Proof.
  intros Hp HN. unfold Zp.normalize, BigInt.is_negative, BigInt.rem, BigInt.pow.
  apply fix_sign_mod. now apply pow_pos_of_prime.
Qed.

Lemma make_ok (p N v : Z) :
  2 <= p -> 1 <= N -> Zp.make p N v = Ok (Zp.mk p N (v mod p ^ N)).
Proof.
  intros Hp HN. unfold Zp.make.
  destruct (Z.ltb_spec p 2); [lia |]. destruct (Z.ltb_spec N 1); [lia |].
  rewrite normalize_mod by lia. reflexivity.
Qed.

Lemma make_wf (p N v : Z) (x : Zp.t) : Zp.make p N v = Ok x -> Zp.wf x.
Proof.
  unfold Zp.make. destruct (Z.ltb_spec p 2); [discriminate |].
  destruct (Z.ltb_spec N 1); [discriminate |].
  intros [= <-]. unfold Zp.wf; simpl. rewrite normalize_mod by lia.
  repeat split; try lia; apply Z.mod_pos_bound; apply pow_pos_of_prime; lia.
Qed.

Lemma add_ok (x y : Zp.t) :
  Zp.wf x -> Zp.wf y -> Zp.prime x = Zp.prime y ->
  let N := Z.min (Zp.precision x) (Zp.precision y) in
  Zp.add x y = Ok (Zp.mk (Zp.prime x) N ((Zp.value x + Zp.value y) mod Zp.prime x ^ N)).
Proof.
  intros (Hp & HN & _) (_ & HN' & _) Hpp N. unfold Zp.add.
  rewrite Hpp, Z.eqb_refl; simpl. rewrite <- Hpp. fold N.
  rewrite make_ok by lia. unfold BigInt.rem, BigInt.pow.
  rewrite rem_then_mod by (apply pow_pos_of_prime; lia). reflexivity.
Qed.

Lemma sub_ok (x y : Zp.t) :
  Zp.wf x -> Zp.wf y -> Zp.prime x = Zp.prime y ->
  let N := Z.min (Zp.precision x) (Zp.precision y) in
  Zp.sub x y = Ok (Zp.mk (Zp.prime x) N ((Zp.value x - Zp.value y) mod Zp.prime x ^ N)).
Proof.
  intros (Hp & HN & _) (_ & HN' & _) Hpp N. unfold Zp.sub.
  rewrite Hpp, Z.eqb_refl; simpl. rewrite <- Hpp. fold N.
  rewrite make_ok by lia. unfold BigInt.rem, BigInt.pow, BigInt.is_negative.
  rewrite fix_sign_mod by (apply pow_pos_of_prime; lia).
  rewrite Z.mod_mod by (pose proof (pow_pos_of_prime (Zp.prime x) N); lia).
  reflexivity.
Qed.

Lemma mul_ok (x y : Zp.t) :
  Zp.wf x -> Zp.wf y -> Zp.prime x = Zp.prime y ->
  let N := Z.min (Zp.precision x) (Zp.precision y) in
  Zp.mul x y = Ok (Zp.mk (Zp.prime x) N ((Zp.value x * Zp.value y) mod Zp.prime x ^ N)).
Proof.
  intros (Hp & HN & _) (_ & HN' & _) Hpp N. unfold Zp.mul.
  rewrite Hpp, Z.eqb_refl; simpl. rewrite <- Hpp. fold N.
  rewrite make_ok by lia. unfold BigInt.rem, BigInt.pow.
  rewrite rem_then_mod by (apply pow_pos_of_prime; lia). reflexivity.
Qed.

(** C4: for Zp values x, y of one prime, each of x + y, x - y and x * y
    has precision min(N_x, N_y) and a representative in
    [0, p^min(N_x, N_y)). *)
Theorem zp_arith_canonical (x y : Zp.t) :
  Zp.wf x -> Zp.wf y -> Zp.prime x = Zp.prime y ->
  canonical_at_min x y (Zp.add x y) /\
  canonical_at_min x y (Zp.sub x y) /\
  canonical_at_min x y (Zp.mul x y).
Proof.
  intros Hx Hy Hpp.
  assert (Hpow : 0 < Zp.prime x ^ Z.min (Zp.precision x) (Zp.precision y)).
  { destruct Hx as (? & ? & _), Hy as (_ & ? & _). apply pow_pos_of_prime; lia. }
  unfold canonical_at_min.
  rewrite (add_ok x y Hx Hy Hpp), (sub_ok x y Hx Hy Hpp), (mul_ok x y Hx Hy Hpp).
  repeat split; eexists; (split; [reflexivity |]); simpl;
    (repeat split; try reflexivity; apply Z.mod_pos_bound; exact Hpow).
Qed.

Lemma zp_arith_canonical_witness :
  let x := Zp.mk 5 3 124 in
  let y := Zp.mk 5 2 7 in
  canonical_at_min x y (Zp.add x y) /\
  canonical_at_min x y (Zp.sub x y) /\
  canonical_at_min x y (Zp.mul x y).
Proof.
  apply zp_arith_canonical; unfold Zp.wf; simpl; lia.
Defined.

End ZpArith.

(** ** Zp::from_rational *)

Section FromRational.

Lemma coprime_not_divisible (b p : Z) :
  2 <= p -> Z.gcd b p = 1 -> BigInt.is_divisible_by b p = false.
Proof.
  intros Hp Hg. unfold BigInt.is_divisible_by. apply Z.eqb_neq. intros Hr.
  apply Z.rem_mod_eq_0 in Hr; [| lia]. apply Z.mod_divide in Hr; [| lia].
  apply Z.divide_gcd_iff in Hr; [| lia]. rewrite Z.gcd_comm in Hr. lia.
Qed.

Lemma strip_prime_coprime (fuel : nat) (b p : Z) :
  2 <= p -> Z.gcd b p = 1 -> Zp.strip_prime fuel b p = Some b.
Proof.
  intros Hp Hg. destruct fuel; simpl; now rewrite coprime_not_divisible.
Qed.

Lemma mod_inverse_coprime (b m : Z) :
  2 <= m -> Z.gcd b m = 1 ->
  exists inv, BigInt.mod_inverse b m = Some inv /\ (inv * b) mod m = 1.
Proof.
  intros Hm Hg. exists (Z.invmod b m). unfold BigInt.mod_inverse.
  rewrite Hg. simpl. split; [reflexivity |]. now apply Z.invmod_coprime.
Qed.

Lemma pow_ge_2 (p N : Z) : 2 <= p -> 1 <= N -> 2 <= p ^ N.
Proof.
  intros Hp HN. replace N with (Z.succ (N - 1)) by lia.
  rewrite Z.pow_succ_r by lia.
  pose proof (pow_pos_of_prime p (N - 1) Hp ltac:(lia)). nia.
Qed.

(** C8, amended: when b is coprime to p (for a prime p: when p does not
    divide b), from_rational(a, b, p, N) times Zp(p, N, b) equals
    Zp(p, N, a). *)
Theorem from_rational_roundtrip (a b p N : Z) :
  2 <= p -> 1 <= N -> Z.gcd b p = 1 -> recovers_numerator a b p N.
Proof.
  intros Hp HN Hg.
  assert (Hb : b <> 0) by (intros ->; rewrite Z.gcd_0_l in Hg; lia).
  pose proof (pow_ge_2 p N Hp HN) as Hpp.
  destruct (mod_inverse_coprime b (p ^ N) Hpp) as (inv & Hinv & Hone).
  { apply Z.coprime_pow_r; [lia | exact Hg]. }
  set (q := Zp.mk p N ((a * inv) mod p ^ N)).
  set (zb := Zp.mk p N (b mod p ^ N)).
  set (za := Zp.mk p N (a mod p ^ N)).
  assert (Hq : Zp.from_rational a b p N = Ok q).
  { unfold Zp.from_rational. destruct (Z.eqb_spec b 0); [contradiction |].
    rewrite strip_prime_coprime by assumption.
    unfold BigInt.pow. rewrite Hinv. rewrite make_ok by lia.
    unfold BigInt.rem. rewrite rem_then_mod by lia. reflexivity. }
  assert (Hzb : Zp.make p N b = Ok zb) by (apply make_ok; lia).
  assert (Hza : Zp.make p N a = Ok za) by (apply make_ok; lia).
  assert (Hval : ((a * inv) mod p ^ N * (b mod p ^ N)) mod p ^ N = a mod p ^ N).
  { rewrite <- Z.mul_mod by lia.
    replace (a * inv * b) with (a * (inv * b)) by ring.
    rewrite Z.mul_mod by lia. rewrite Hone, Z.mul_1_r. apply Z.mod_mod. lia. }
  exists q, zb, za, (Zp.mk p N (a mod p ^ N)).
  repeat split; try assumption.
  - assert (Hwq : Zp.wf q) by (apply (make_wf p N (a * inv)); apply make_ok; lia).
    rewrite (mul_ok q zb Hwq (make_wf _ _ _ _ Hzb) eq_refl).
    simpl. rewrite Z.min_id, Hval. reflexivity.
  - unfold Zp.eqb. simpl. rewrite Z.eqb_refl. simpl. apply Z.eqb_refl.
Qed.

Lemma from_rational_roundtrip_witness : recovers_numerator (-1) 2 5 3.
Proof. apply from_rational_roundtrip; [lia | lia | reflexivity]. Defined.

(** C8 as stated fails when p divides b: from_rational(1, 5, 5, 2) is 1,
    and 1 * 5 = 5 is not 1 modulo 25. *)
Lemma from_rational_roundtrip_fails : ~ recovers_numerator 1 5 5 2.
Proof.
  intros (q & zb & za & z & Hq & Hzb & Hza & Hz & He).
  vm_compute in Hq, Hzb, Hza. injection Hq as <-. injection Hzb as <-.
  injection Hza as <-. vm_compute in Hz. injection Hz as <-.
  vm_compute in He. discriminate.
Qed.

End FromRational.

(** ** The characters used as examples *)

Section ExampleCharacters.

Lemma principal_mod_1_built : DirichletCharacter.make 1 5 = Ok principal_mod_1.
Proof. reflexivity. Qed.

Lemma chi7_0_built : DirichletCharacter.make_values 7 5 [0] = Ok chi7_0.
Proof. vm_compute. reflexivity. Qed.

Lemma chi7_5_built : DirichletCharacter.make_values 7 5 [5] = Ok chi7_5.
Proof. vm_compute. reflexivity. Qed.

End ExampleCharacters.

(** ** DirichletCharacter::pow_mod *)

Section PowMod.

Lemma rem_pow_rem (c m : Z) (k : positive) :
  Z.rem (Z.rem c m ^ Zpos k) m = Z.rem (c ^ Zpos k) m.
Proof.
  induction k as [| k IH] using Pos.peano_ind.
  - rewrite !Z.pow_1_r. apply Zrem_rem.
  - rewrite Pos2Z.inj_succ, !Z.pow_succ_r by lia.
    rewrite Zmult_rem, IH, Zrem_rem, <- Zmult_rem. reflexivity.
Qed.

Lemma wrap_in_range (z : Z) : - 2 ^ 63 <= z < 2 ^ 63 -> Long.wrap z = z.
Proof. intros H. unfold Long.wrap. rewrite Z.mod_small by lia. lia. Qed.

(** Modulo m with (m - 1)^2 <= Long.max the products that pow_mod forms
    do not wrap: the factors are residues, or the initial result 1. *)
Lemma mul_fits (m a b : Z) :
  1 <= m -> products_fit m -> - m < a < m \/ a = 1 -> - m < b < m ->
  Long.mul a b = a * b.
Proof.
  intros Hm Hfit Ha Hb. unfold Long.mul. apply wrap_in_range.
  unfold products_fit, Long.max in Hfit.
  assert (Hab : Z.abs (a * b) <= (m - 1) * (m - 1)).
  { rewrite Z.abs_mul. destruct Ha as [Ha | ->].
    - apply Z.mul_le_mono_nonneg; lia.
    - change (Z.abs 1) with 1. assert (Hb1 : Z.abs b <= m - 1) by lia.
      assert (Hsq : m - 1 <= (m - 1) * (m - 1)).
      { destruct (Z.eq_dec m 1) as [-> | Hne]; [reflexivity |].
        rewrite <- (Z.mul_1_r (m - 1)) at 1. apply Z.mul_le_mono_nonneg_l; lia. }
      lia. }
  lia.
Qed.

Lemma pow_mod_loop_spec (e : positive) (r b m : Z) :
  1 <= m -> products_fit m -> - m < r < m \/ r = 1 -> - m < b < m ->
  DirichletCharacter.pow_mod_loop e r b m = Z.rem (r * b ^ Zpos e) m.
Proof.
  intros Hm Hfit. revert r b.
  induction e as [e IH | e IH |]; intros r b Hr Hb; simpl DirichletCharacter.pow_mod_loop.
  - rewrite (mul_fits m r b), (mul_fits m b b) by (assumption || (left; exact Hb)).
    rewrite IH by (try left; apply rem_range; lia). rewrite Pos2Z.inj_xI.
    replace (b ^ (2 * Zpos e + 1)) with (b * (b * b) ^ Zpos e).
    2:{ rewrite Z.pow_add_r, Z.pow_mul_r, Z.pow_1_r, Z.pow_2_r by lia. ring. }
    rewrite Zmult_rem, Zrem_rem, rem_pow_rem, <- Zmult_rem. f_equal. ring.
  - rewrite (mul_fits m b b) by (assumption || (left; exact Hb)).
    rewrite IH by (assumption || (apply rem_range; lia)). rewrite Pos2Z.inj_xO.
    replace (b ^ (2 * Zpos e)) with ((b * b) ^ Zpos e).
    2:{ rewrite Z.pow_mul_r, Z.pow_2_r by lia. reflexivity. }
    rewrite Zmult_rem, rem_pow_rem, <- Zmult_rem. reflexivity.
  - rewrite (mul_fits m r b) by assumption. rewrite Z.pow_1_r. reflexivity.
Qed.

(** Where the products fit, pow_mod is the truncated remainder of the
    power. *)
Lemma pow_mod_spec (base exp md : Z) :
  1 <= md -> products_fit md ->
  DirichletCharacter.pow_mod base exp md = power_residue base exp md.
Proof.
  intros Hmd Hfit.
  unfold DirichletCharacter.pow_mod, power_residue. destruct exp as [| e | e]; try reflexivity.
  rewrite pow_mod_loop_spec by (assumption || (right; reflexivity) || (apply rem_range; lia)).
  rewrite Z.mul_1_l. simpl (_ >? _). apply rem_pow_rem.
Qed.

(** Two cases in which no product can wrap, whatever the modulus: the
    base 0 and the bases 1 and -1. *)
Lemma pow_mod_loop_zero (e : positive) (r m : Z) :
  DirichletCharacter.pow_mod_loop e r 0 m = 0.
Proof.
  revert r. induction e as [e IH | e IH |]; intros r; simpl DirichletCharacter.pow_mod_loop;
    unfold Long.mul; rewrite ?Z.mul_0_r; change (Long.wrap 0) with 0;
    rewrite ?Zrem_0_l; [apply IH | apply IH | reflexivity].
Qed.

Lemma pow_mod_self (p e : Z) : 0 < e -> DirichletCharacter.pow_mod p e p = 0.
Proof.
  intros He. destruct e as [| e | e]; try lia.
  unfold DirichletCharacter.pow_mod. rewrite Z_rem_same. apply pow_mod_loop_zero.
Qed.



End PowMod.

(** ** DirichletCharacter::evaluate_at *)

Section EvaluateAt.

Import DirichletCharacter.

Lemma nth_map_seq {A : Type} (f : nat -> A) (n i : nat) (d : A) :
  (i < n)%nat -> nth i (map f (seq 0 n)) d = f i.
Proof.
  intros Hi. rewrite (nth_indep _ d (f O)) by (rewrite length_map, length_seq; exact Hi).
  rewrite map_nth, seq_nth by exact Hi. reflexivity.
Qed.

(** The inner search of express_in_generators returns the first exponent
    that fits, or 0 when none does. *)
Lemma find_exponent_first (steps : nat) (e g target md : Z) :
  let x := find_exponent steps e g target md in
  (e <= x < e + Z.of_nat steps /\ pow_mod g x md = target /\
   forall y, e <= y < x -> pow_mod g y md <> target)
  \/ (x = 0 /\ forall y, e <= y < e + Z.of_nat steps -> pow_mod g y md <> target).
Proof.
  revert e. induction steps as [| steps IH]; intros e; simpl find_exponent.
  - right. split; [reflexivity | intros y Hy; lia].
  - destruct (Z.eqb_spec (pow_mod g e md) target) as [Heq | Hne].
    + left. split; [lia | split; [exact Heq | intros y Hy; lia]].
    + destruct (IH (e + 1)) as [(Hr & Hx & Hmin) | (Hx & Hnone)].
      * left. split; [lia | split; [exact Hx |]].
        intros y Hy. destruct (Z.eq_dec y e) as [-> | Hye]; [exact Hne | apply Hmin; lia].
      * right. split; [exact Hx |].
        intros y Hy. destruct (Z.eq_dec y e) as [-> | Hye]; [exact Hne | apply Hnone; lia].
Qed.

Lemma normalized_residue (a n : Z) :
  1 <= n -> Z.rem (Z.rem a n + n) n = a mod n.
Proof.
  intros Hn. pose proof (rem_range a n ltac:(lia)) as Hr.
  rewrite Z.rem_mod_nonneg by lia.
  rewrite <- (rem_then_mod a n) by lia.
  rewrite <- (Z.mod_add (Z.rem a n) 1 n) by lia. f_equal. ring.
Qed.

Lemma gcd_normalized (a n : Z) : 1 <= n -> Z.gcd (a mod n) n = Z.gcd a n.
Proof.
  intros Hn. rewrite Z.gcd_mod by lia. apply Z.gcd_comm.
Qed.

Lemma chi7_5_not_additive : ~ evaluates_additively chi7_5 2.
Proof.
  intros [_ H]. destruct (H eq_refl) as (xs & Hlen & Hrange & Hprod & Hval).
  simpl in Hlen, Hrange. destruct xs as [| x [| ? ?]]; try discriminate.
  inversion Hrange as [| ? ? ? ? Hx _]; subst.
  vm_compute in Hval. unfold product_of_powers in Hprod. simpl in Hprod.
  rewrite Z.mul_1_r in Hprod.
  assert (Hcases : x = 0 \/ x = 1 \/ x = 2 \/ x = 3 \/ x = 4 \/ x = 5) by lia.
  destruct Hcases as [-> | [-> | [-> | [-> | [-> | ->]]]]];
    vm_compute in Hprod; try discriminate; vm_compute in Hval; discriminate.
Qed.

(** C3 at the character modulo 7 with exponent vector [5] (p = 5) and
    a = 2: the generator is 3 and 2 = 3^2, so the claim gives the exponent
    5 * 2 = 4 modulo 6, while evaluate_at returns 5^2 = 1 modulo 6.  What
    evaluate_at computes is a character in neither reading: for the
    exponent vector [2] it gives chi(3) = 2 and chi(5) = 2 but
    chi(3 * 5) = 1, which is neither 2 + 2 nor 2 * 2 modulo 6.  Nor is
    there a generator decomposition behind it: modulo 15 the generators
    are 2 and 2, and the unit 7, a power of neither, gets the exponents
    0 and 0. *)
Theorem evaluate_at_not_additive :
  make_values 7 5 [5] = Ok chi7_5 /\
  express_in_generators chi7_5 2 = [2] /\
  exponent_sum (character_values chi7_5) [2]
    mod lcm_of_nonzero (character_values chi7_5) (generator_orders chi7_5) = 4 /\
  evaluate_at chi7_5 2 = 1 /\
  ~ evaluates_additively chi7_5 2 /\
  exists chi, make_values 7 5 [2] = Ok chi /\
    map (evaluate_at chi) [1; 2; 3; 4; 5; 6] = [1; 4; 2; 4; 2; 2] /\
    evaluate_at chi (3 * 5) <> (evaluate_at chi 3 + evaluate_at chi 5) mod 6 /\
    evaluate_at chi (3 * 5) <> (evaluate_at chi 3 * evaluate_at chi 5) mod 6 /\
  exists chi15, make_values 15 5 [1; 1] = Ok chi15 /\
    generators chi15 = [2; 2] /\ Z.gcd 7 15 = 1 /\
    express_in_generators chi15 7 = [0; 0].
Proof.
  split; [vm_compute; reflexivity |].
  split; [vm_compute; reflexivity |].
  split; [vm_compute; reflexivity |].
  split; [vm_compute; reflexivity |].
  split; [exact chi7_5_not_additive |].
  eexists. split; [vm_compute; reflexivity |].
  split; [vm_compute; reflexivity |].
  split; [vm_compute; discriminate |].
  split; [vm_compute; discriminate |].
  eexists. split; [vm_compute; reflexivity |]. repeat split.
Qed.

End EvaluateAt.

(** ** DirichletCharacter::evaluate_cyclotomic and its value cache *)

Section ValueCache.

Import DirichletCharacter.

Context {C : Type} (cyc : Cyclotomic.ops C).

Lemma cached_is_returned (chi : t) (value_cache : gmap Z C) (a N : Z) (v : C) :
  value_cache !! a = Some v ->
  evaluate_cyclotomic cyc chi value_cache a N = Ok (v, value_cache).
Proof. intros H. unfold evaluate_cyclotomic. rewrite H. reflexivity. Qed.

Lemma cache_after_keeps (chi : t) (value_cache : gmap Z C) (call : Z * Z) (a : Z) (v : C) :
  value_cache !! a = Some v -> cache_after cyc chi value_cache call !! a = Some v.
Proof.
  intros H. unfold cache_after, evaluate_cyclotomic.
  destruct (value_cache !! fst call) as [w |] eqn:Hc; [exact H |].
  destruct (evaluate_at chi (fst call) =? 0); [exact H |].
  destruct (Qp.make (prime chi) (snd call) 1) as [one | e |]; simpl; try exact H.
  rewrite lookup_insert_ne; [exact H |]. intros Heq. congruence.
Qed.

Lemma calls_keep (chi : t) (calls : list (Z * Z)) (value_cache : gmap Z C) (a : Z) (v : C) :
  value_cache !! a = Some v ->
  fold_left (cache_after cyc chi) calls value_cache !! a = Some v.
Proof.
  revert value_cache. induction calls as [| c calls IH]; intros value_cache H; simpl.
  - exact H.
  - apply IH. now apply cache_after_keeps.
Qed.

Lemma first_call_stores (chi : t) (value_cache cache1 : gmap Z C) (a N1 : Z) (v1 : C) :
  evaluate_cyclotomic cyc chi value_cache a N1 = Ok (v1, cache1) ->
  evaluate_at chi a <> 0 ->
  cache1 !! a = Some v1.
Proof.
  unfold evaluate_cyclotomic. intros H Hne.
  destruct (value_cache !! a) as [w |] eqn:Hc.
  - injection H as <- <-. exact Hc.
  - destruct (Z.eqb_spec (evaluate_at chi a) 0); [contradiction |].
    destruct (Qp.make (prime chi) N1 1) as [one | e |]; simpl in H; try discriminate.
    injection H as <- <-. apply lookup_insert_eq.
Qed.

(** C10, amended: for a with evaluate_at(a) <> 0, once
    evaluate_cyclotomic(a, N1) has returned, every later call
    evaluate_cyclotomic(a, N2) returns that same value whatever N2 is and
    whatever calls came in between; for a with evaluate_at(a) = 0 nothing
    is stored and a call returns the zero element at its own precision. *)
Theorem value_cache_ignores_precision (chi : t) (value_cache cache1 : gmap Z C)
    (a N1 : Z) (v1 : C) :
  evaluate_cyclotomic cyc chi value_cache a N1 = Ok (v1, cache1) ->
  (evaluate_at chi a <> 0 ->
   forall (calls : list (Z * Z)) (N2 : Z),
     let cache2 := fold_left (cache_after cyc chi) calls cache1 in
     evaluate_cyclotomic cyc chi cache2 a N2 = Ok (v1, cache2)) /\
  (evaluate_at chi a = 0 -> value_cache !! a = None ->
   v1 = Cyclotomic.zero cyc (prime chi) N1 /\ cache1 = value_cache).
Proof.
  intros H. split.
  - intros Hne calls N2 cache2. apply cached_is_returned.
    apply calls_keep. eapply first_call_stores; eassumption.
  - intros Hz Hc. unfold evaluate_cyclotomic in H. rewrite Hc, Hz in H.
    simpl in H. injection H as <- <-. split; reflexivity.
Qed.

End ValueCache.

Lemma value_cache_ignores_precision_witness :
  let chi := chi7_5 in
  exists v1 cache1,
    DirichletCharacter.evaluate_cyclotomic Cyclotomic.free chi ∅ 3 2 = Ok (v1, cache1) /\
    let cache2 := fold_left (cache_after Cyclotomic.free chi) [(2, 4); (3, 9)] cache1 in
    DirichletCharacter.evaluate_cyclotomic Cyclotomic.free chi cache2 3 6 = Ok (v1, cache2).
Proof.
  intros chi. eexists. eexists. split; [vm_compute; reflexivity |].
  refine (proj1 (value_cache_ignores_precision Cyclotomic.free chi ∅ _ 3 2 _ _) _ _ 6).
  - vm_compute; reflexivity.
  - vm_compute; discriminate.
Defined.

(** C10 as stated fails where the character vanishes: modulo 7 the call
    for a = 7 stores nothing, and the next call builds a new zero at its
    own precision. *)
Lemma zero_value_not_cached :
  ~ served_from_first_call Cyclotomic.free chi7_5 7 3 5.
Proof.
  intros (v1 & cache1 & H1 & Hc & _). vm_compute in H1.
  injection H1 as <- <-. vm_compute in Hc. discriminate.
Qed.

(** ** Euler's totient by counting *)

Section Totient.

Import DirichletCharacter.

Lemma range_cons (lo : Z) (len : nat) : range lo (S len) = lo :: range (lo + 1) len.
Proof.
  unfold range. rewrite <- cons_seq, <- seq_shift. simpl map. rewrite map_map.
  f_equal; [lia |]. apply map_ext. intros i. lia.
Qed.

Lemma range_app (lo : Z) (a b : nat) :
  range lo (a + b) = range lo a ++ range (lo + Z.of_nat a) b.
Proof.
  revert lo. induction a as [| a IH]; intros lo.
  - simpl. f_equal. lia.
  - simpl Nat.add. rewrite !range_cons, IH. simpl. do 3 f_equal. lia.
Qed.

Lemma range_snoc (lo : Z) (len : nat) :
  range lo (S len) = range lo len ++ [lo + Z.of_nat len].
Proof.
  replace (S len) with (len + 1)%nat by lia. rewrite range_app.
  f_equal. rewrite range_cons. reflexivity.
Qed.

Lemma range_length (lo : Z) (len : nat) : length (range lo len) = len.
Proof. unfold range. rewrite length_map, length_seq. reflexivity. Qed.

Lemma count_app (n lo : Z) (a b : nat) :
  count_coprime n lo (a + b) =
  (count_coprime n lo a + count_coprime n (lo + Z.of_nat a) b)%nat.
Proof. unfold count_coprime. rewrite range_app, List.filter_app, length_app. reflexivity. Qed.

Lemma coprime_to_shift (n a : Z) : coprime_to n (a + n) = coprime_to n a.
Proof.
  unfold coprime_to. rewrite (Z.gcd_comm (a + n)), Z.gcd_add_diag_r, Z.gcd_comm.
  reflexivity.
Qed.

Lemma count_shift (n lo : Z) (len : nat) :
  count_coprime n (lo + n) len = count_coprime n lo len.
Proof.
  revert lo. induction len as [| len IH]; intros lo; [reflexivity |].
  unfold count_coprime in *. rewrite !range_cons. simpl.
  rewrite coprime_to_shift. replace (lo + n + 1) with (lo + 1 + n) by ring.
  destruct (coprime_to n lo); simpl; rewrite IH; reflexivity.
Qed.

Lemma count_from_zero (n : Z) :
  1 <= n -> count_coprime n 1 (Z.to_nat n) = count_coprime n 0 (Z.to_nat n).
Proof.
  intros Hn. destruct (Z.to_nat n) as [| N] eqn:HN; [lia |].
  unfold count_coprime. rewrite range_snoc, range_cons, List.filter_app, length_app.
  simpl. replace (1 + Z.of_nat N) with n by lia.
  assert (Hends : coprime_to n n = coprime_to n 0).
  { unfold coprime_to. rewrite Z.gcd_diag_nonneg, Z.gcd_0_l_nonneg by lia. reflexivity. }
  rewrite Hends. change (0 + 1) with 1. destruct (coprime_to n 0); simpl; lia.
Qed.

Lemma count_periodic (n : Z) (t : nat) :
  1 <= n ->
  count_coprime n 0 (t * Z.to_nat n) = (t * count_coprime n 0 (Z.to_nat n))%nat.
Proof.
  intros Hn. induction t as [| t IH]; [reflexivity |].
  simpl Nat.mul. rewrite count_app, Z.add_0_l.
  replace (Z.of_nat (Z.to_nat n)) with (0 + n) by lia.
  rewrite count_shift, IH. reflexivity.
Qed.

Lemma divisible_by_spec (p a : Z) : 2 <= p -> divisible_by p a = true <-> (p | a).
Proof.
  intros Hp. unfold divisible_by. rewrite Z.eqb_eq, Z.rem_mod_eq_0 by lia.
  split; [apply Z.mod_divide; lia | apply Z.mod0_divide].
Qed.

Lemma offset_not_divisible (p M j : Z) :
  0 < j < p -> divisible_by p (p * M + j) = false.
Proof.
  intros Hj. apply not_true_is_false. rewrite divisible_by_spec by lia.
  intros [c Hc]. assert (j = (c - M) * p) by lia.
  assert (0 < c - M < 1) by nia. lia.
Qed.

Lemma no_multiple_inside (p M : Z) (len : nat) (j : Z) :
  0 < j -> j + Z.of_nat len <= p ->
  List.filter (divisible_by p) (range (p * M + j) len) = [].
Proof.
  revert j. induction len as [| len IH]; intros j Hj Hlen; [reflexivity |].
  rewrite range_cons. simpl. rewrite offset_not_divisible by lia.
  replace (p * M + j + 1) with (p * M + (j + 1)) by ring. apply IH; lia.
Qed.

(** The multiples of p below p * M are p * 0, ..., p * (M - 1). *)
Lemma multiples_in_range (p : Z) (M : nat) :
  2 <= p ->
  List.filter (divisible_by p) (range 0 (M * Z.to_nat p)) =
  map (fun b => p * b) (range 0 M).
Proof.
  intros Hp. induction M as [| M IH]; [reflexivity |].
  replace (S M * Z.to_nat p)%nat with (M * Z.to_nat p + Z.to_nat p)%nat by lia.
  rewrite range_app, List.filter_app, IH, range_snoc, map_app. f_equal.
  destruct (Z.to_nat p) as [| P] eqn:HP; [lia |].
  rewrite range_cons. simpl.
  replace (0 + Z.of_nat (M * S P)) with (p * Z.of_nat M) by nia.
  assert (Hd : divisible_by p (p * Z.of_nat M) = true).
  { apply divisible_by_spec; [lia |]. exists (Z.of_nat M). ring. }
  rewrite Hd. f_equal.
  replace (p * Z.of_nat M + 1) with (p * Z.of_nat M + 1) by ring.
  apply no_multiple_inside; lia.
Qed.

Lemma filter_split_length {A : Type} (f g : A -> bool) (l : list A) :
  length (List.filter f l) =
  (length (List.filter f (List.filter g l))
   + length (List.filter (fun a => f a && negb (g a)) l))%nat.
Proof.
  induction l as [| a l IH]; [reflexivity |].
  simpl. destruct (g a) eqn:Hg, (f a) eqn:Hf; simpl; rewrite ?Hf; simpl; lia.
Qed.

Lemma filter_map_length {A B : Type} (f : B -> bool) (h : A -> B) (l : list A) :
  length (List.filter f (map h l)) = length (List.filter (fun a => f (h a)) l).
Proof.
  induction l as [| a l IH]; [reflexivity |].
  simpl. destruct (f (h a)); simpl; lia.
Qed.

Lemma filter_ext_length {A : Type} (f g : A -> bool) (l : list A) :
  (forall a, f a = g a) -> length (List.filter f l) = length (List.filter g l).
Proof. intros H. rewrite (List.filter_ext f g H). reflexivity. Qed.

Lemma coprime_to_scaled (n p b : Z) :
  Z.gcd p n = 1 -> coprime_to n (p * b) = coprime_to n b.
Proof.
  intros Hpn. unfold coprime_to. apply eq_true_iff_eq. rewrite !Z.eqb_eq. split.
  - intros H. apply Z.divide_1_r_nonneg; [apply Z.gcd_nonneg |].
    rewrite <- H. apply Z.gcd_greatest.
    + apply Z.divide_mul_r, Z.gcd_divide_l.
    + apply Z.gcd_divide_r.
  - intros H. apply Z.coprime_mul_l; assumption.
Qed.

Lemma coprime_to_prime_power (n p k a : Z) :
  Z.prime p -> 1 <= k ->
  coprime_to (n * p ^ k) a = coprime_to n a && negb (divisible_by p a).
Proof.
  intros Hp Hk. pose proof (Z.prime_ge_2 p Hp) as Hp2.
  apply eq_true_iff_eq. rewrite andb_true_iff, negb_true_iff.
  rewrite <- not_true_iff_false, divisible_by_spec by lia.
  unfold coprime_to. rewrite !Z.eqb_eq. split.
  - intros H. split.
    + apply Z.divide_1_r_nonneg; [apply Z.gcd_nonneg |].
      rewrite <- H. apply Z.gcd_greatest; [apply Z.gcd_divide_l |].
      apply Z.divide_mul_l, Z.gcd_divide_r.
    + intros Hpa. assert (Hp1 : (p | 1)).
      { rewrite <- H. apply Z.gcd_greatest; [exact Hpa |].
        apply Z.divide_mul_r. apply Z.divide_pow_same_r. lia. }
      apply Z.divide_1_r_nonneg in Hp1; lia.
  - intros [Hn Hpa]. apply Z.coprime_mul_r; [exact Hn |].
    apply Z.coprime_pow_r; [lia |].
    unfold Z.coprime. rewrite Z.gcd_comm. apply Z.coprime_prime_l; assumption.
Qed.

(** phi(n * p^k) = phi(n) * (p^k - p^(k-1)) for a prime p not dividing n. *)
Lemma totient_prime_power_factor (n p k : Z) :
  1 <= n -> Z.prime p -> 1 <= k -> Z.gcd p n = 1 ->
  totient (n * p ^ k) = totient n * (p ^ k - p ^ (k - 1)).
Proof.
  intros Hn Hp Hk Hpn. pose proof (Z.prime_ge_2 p Hp) as Hp2.
  assert (Hpk : 0 < p ^ k) by (apply Z.pow_pos_nonneg; lia).
  assert (Hpk1 : 0 < p ^ (k - 1)) by (apply Z.pow_pos_nonneg; lia).
  assert (Hsplit : p ^ k = p ^ (k - 1) * p).
  { replace k with (Z.succ (k - 1)) at 1 by lia. rewrite Z.pow_succ_r by lia. ring. }
  unfold totient. rewrite !count_from_zero by nia.
  set (c := count_coprime n 0 (Z.to_nat n)).
  assert (Hall : count_coprime n 0 (Z.to_nat (n * p ^ k)) = (Z.to_nat (p ^ k) * c)%nat).
  { replace (Z.to_nat (n * p ^ k)) with (Z.to_nat (p ^ k) * Z.to_nat n)%nat by nia.
    apply count_periodic. exact Hn. }
  assert (Hmul : length (List.filter (coprime_to n)
                           (List.filter (divisible_by p) (range 0 (Z.to_nat (n * p ^ k)))))
                 = (Z.to_nat (p ^ (k - 1)) * c)%nat).
  { replace (Z.to_nat (n * p ^ k))
      with ((Z.to_nat (p ^ (k - 1)) * Z.to_nat n) * Z.to_nat p)%nat by nia.
    rewrite multiples_in_range by lia. rewrite filter_map_length.
    rewrite (filter_ext_length _ (coprime_to n))
      by (intros b; apply coprime_to_scaled; exact Hpn).
    apply count_periodic. exact Hn. }
  assert (Hcount : count_coprime (n * p ^ k) 0 (Z.to_nat (n * p ^ k))
                   = length (List.filter (fun a => coprime_to n a && negb (divisible_by p a))
                                         (range 0 (Z.to_nat (n * p ^ k))))).
  { unfold count_coprime. apply filter_ext_length. intros a.
    apply coprime_to_prime_power; assumption. }
  pose proof (filter_split_length (coprime_to n) (divisible_by p)
                (range 0 (Z.to_nat (n * p ^ k)))) as Hparts.
  fold (count_coprime n 0 (Z.to_nat (n * p ^ k))) in Hparts.
  rewrite Hall, Hmul, <- Hcount in Hparts.
  assert (Hz : Z.of_nat (Z.to_nat (p ^ k) * c)
               = Z.of_nat (Z.to_nat (p ^ (k - 1)) * c)
                 + Z.of_nat (count_coprime (n * p ^ k) 0 (Z.to_nat (n * p ^ k)))) by lia.
  rewrite !Nat2Z.inj_mul, !Z2Nat.id in Hz by lia. lia.
Qed.

Lemma totient_1 : totient 1 = 1.
Proof. reflexivity. Qed.

End Totient.

(** ** Trial division in compute_generators *)

Section Factorization.

Import DirichletCharacter.

Lemma factored_onto_pos (fs : list (Z * Z)) (n n' : Z) :
  factored_onto fs n n' -> 1 <= n /\ 1 <= n'.
Proof.
  induction 1 as [n Hn | p k fs n m n' Hp Hk Hnd Heq _ [IHm IHn']]; [lia |].
  split; [| exact IHn'].
  pose proof (Z.prime_ge_2 p Hp).
  assert (0 < p ^ k) by (apply Z.pow_pos_nonneg; lia). nia.
Qed.

Lemma factored_onto_snoc (fs : list (Z * Z)) (n n' : Z) :
  factored_onto fs n n' -> Z.prime n' -> factored_onto (fs ++ [(n', 1)]) n 1.
Proof.
  induction 1 as [n Hn | p k fs n m n' Hp Hk Hnd Heq _ IH]; intros Hprime; simpl.
  - apply (factored_cons n 1 [] n 1 1); try assumption; try lia.
    + intros Hd. apply Z.divide_1_r_nonneg in Hd; pose proof (Z.prime_ge_2 n Hprime); lia.
    + constructor. lia.
  - eapply factored_cons; eauto.
Qed.

Lemma totient_factored (fs : list (Z * Z)) (n : Z) :
  factored_onto fs n 1 -> totient n = phi_of_factors fs.
Proof.
  remember 1 as one eqn:Hone. induction 1 as [n Hn | p k fs n m n' Hp Hk Hnd Heq Hm IH].
  - subst. reflexivity.
  - simpl. rewrite <- (IH Hone). subst n.
    rewrite (Z.mul_comm (p ^ k) m), totient_prime_power_factor; try assumption.
    + ring.
    + apply (factored_onto_pos _ _ _ Hm).
    + apply Z.coprime_prime_l; assumption.
Qed.

Lemma factored_all_prime (fs : list (Z * Z)) (n n' : Z) :
  factored_onto fs n n' -> Forall (fun pk => Z.prime (fst pk) /\ 1 <= snd pk) fs.
Proof. induction 1; constructor; auto. Qed.

(** Every integer from 2 on has a prime divisor. *)
Lemma prime_divisor_exists (n : Z) : 2 <= n -> exists q, Z.prime q /\ (q | n).
Proof.
  intros Hn. assert (H0 : 0 <= n) by lia. revert Hn.
  pattern n. apply Z_lt_induction; [| exact H0]. clear n H0.
  intros n IH Hn. destruct (prime_dec n) as [Hp | Hnp].
  - exists n. split; [apply prime_alt; exact Hp | apply Z.divide_refl].
  - destruct (not_prime_divide n ltac:(lia) Hnp) as (d & Hd & Hdn).
    destruct (IH d ltac:(lia) ltac:(lia)) as (q & Hq & Hqd).
    exists q. split; [exact Hq | eapply Z.divide_trans; eassumption].
Qed.

(** A divisor of n below which n has no prime divisor is prime. *)
Lemma least_divisor_prime (p n : Z) :
  2 <= p -> (p | n) -> (forall q, Z.prime q -> (q | n) -> p <= q) -> Z.prime p.
Proof.
  intros Hp Hpn Hleast. split; [lia |]. intros d Hd Hdp.
  destruct (prime_divisor_exists d ltac:(lia)) as (q & Hq & Hqd).
  assert (p <= q).
  { apply Hleast; [exact Hq |]. eapply Z.divide_trans; [exact Hqd |].
    eapply Z.divide_trans; eassumption. }
  apply Z.divide_pos_le in Hqd; lia.
Qed.

(** An integer above 1 with no prime divisor up to its square root is prime. *)
Lemma no_small_divisor_prime (p n : Z) :
  1 < n -> 0 < p -> n < p * p ->
  (forall q, Z.prime q -> (q | n) -> p <= q) -> Z.prime n.
Proof.
  intros Hn Hp Hpp Hleast. split; [lia |]. intros d Hd [e He].
  assert (Hsmall : exists x, 2 <= x /\ (x | n) /\ x * x <= n).
  { assert (He1 : 1 < e) by nia.
    destruct (Z_le_gt_dec d e).
    - exists d. split; [lia | split; [exists e; lia | nia]].
    - exists e. split; [lia | split; [exists d; lia | nia]]. }
  destruct Hsmall as (x & Hx & Hxn & Hxx).
  destruct (prime_divisor_exists x Hx) as (q & Hq & Hqx).
  assert (p <= q) by (apply Hleast; [exact Hq | eapply Z.divide_trans; eassumption]).
  apply Z.divide_pos_le in Hqx; [| lia]. nia.
Qed.

Lemma strip_factor_spec (fuel : nat) (n p pow : Z) :
  1 <= n -> 2 <= p -> n < 2 ^ Z.of_nat fuel ->
  exists pow' n',
    strip_factor fuel n p pow = Some (pow', n') /\
    pow <= pow' /\ n = p ^ (pow' - pow) * n' /\ 1 <= n' /\ ~ (p | n').
Proof.
  revert n pow. induction fuel as [| fuel IH]; intros n pow Hn Hp Hlt.
  - simpl in Hlt. lia.
  - cbn [strip_factor]. destruct (Z.eqb_spec (Z.rem n p) 0) as [Hr | Hr].
    + apply Z.quot_exact in Hr; [| lia].
      assert (Hq : 1 <= n ÷ p) by nia.
      assert (Hlt' : n ÷ p < 2 ^ Z.of_nat fuel).
      { rewrite Nat2Z.inj_succ, Z.pow_succ_r in Hlt by lia. nia. }
      destruct (IH (n ÷ p) (pow + 1) Hq Hp Hlt') as (pow' & n' & Hs & Hle & Heq & Hn' & Hnd).
      exists pow', n'. split; [exact Hs |]. split; [lia |]. split; [| tauto].
      replace (pow' - pow) with (Z.succ (pow' - (pow + 1))) by lia.
      rewrite Z.pow_succ_r by lia. rewrite Hr at 1. rewrite Heq at 1. ring.
    + exists pow, n. split; [reflexivity |]. split; [lia |].
      rewrite Z.sub_diag, Z.pow_0_r, Z.mul_1_l. split; [reflexivity |].
      split; [exact Hn |]. intros Hd. apply Hr. apply Z.rem_divide; [lia | exact Hd].
Qed.

Lemma strip_fuel_enough (n : Z) : 1 <= n -> n < 2 ^ Z.of_nat (strip_fuel n).
Proof.
  intros Hn. unfold strip_fuel. destruct (Z.eqb_spec n 0); [lia |].
  rewrite Z.abs_eq by lia. rewrite Nat2Z.inj_succ, Z2Nat.id by apply Z.log2_nonneg.
  apply Z.log2_spec. lia.
Qed.

Lemma sieved_next (p n n' k : Z) :
  sieved p n -> n = p ^ k * n' -> 0 <= k -> 1 <= n' -> ~ (p | n') -> sieved (p + 2) n'.
Proof.
  intros (Hn & Hodd & Hp & Hpodd & Hleast) Heq Hk Hn' Hnd.
  assert (Hdiv : (n' | n)) by (exists (p ^ k); lia).
  unfold sieved. split; [exact Hn' |]. split.
  { intros H2. apply Hodd. eapply Z.divide_trans; eassumption. }
  split; [lia |]. split.
  { intros [c Hc]. apply Hpodd. exists (c - 1). lia. }
  intros q Hq Hqn'.
  assert (Hpq : p <= q) by (apply Hleast; [exact Hq | eapply Z.divide_trans; eassumption]).
  assert (q <> p) by (intros ->; contradiction).
  assert (q <> p + 1).
  { intros ->. apply Hodd. apply Z.divide_trans with (p + 1); [| eapply Z.divide_trans; eassumption].
    destruct (Z.even (p + 1)) eqn:He.
    - apply Z.even_spec in He. destruct He as [c Hc]. exists c. lia.
    - exfalso. apply Hpodd. rewrite <- Z.negb_odd in He. apply negb_false_iff in He.
      apply Z.odd_spec in He. destruct He as [c Hc]. exists c. lia. }
  lia.
Qed.

Lemma odd_factors_spec (fuel : nat) (p n : Z) :
  sieved p n -> n - p + 1 <= Z.of_nat fuel ->
  exists l n',
    odd_factors fuel p n = Some (l, n') /\
    factored_onto l n n' /\ (n' = 1 \/ Z.prime n').
Proof.
  revert p n. induction fuel as [| fuel IH]; intros p n Hs Hfuel;
    pose proof Hs as (Hn & Hodd & Hp & Hpodd & Hleast); cbn [odd_factors].
  - destruct (Z.leb_spec (p * p) n); [nia |].
    exists [], n. split; [reflexivity |]. split; [constructor; exact Hn |].
    destruct (Z.eq_dec n 1) as [-> | Hn1]; [left; reflexivity | right].
    apply (no_small_divisor_prime p n); [lia | lia | lia | exact Hleast].
  - destruct (Z.leb_spec (p * p) n) as [Hpp | Hpp].
    + destruct (strip_factor_spec (strip_fuel n) n p 0 Hn ltac:(lia) (strip_fuel_enough n Hn))
        as (pow & n1 & Hstrip & Hpow & Heq & Hn1 & Hnd).
      rewrite Hstrip. rewrite Z.sub_0_r in Heq.
      assert (Hle : n1 <= n).
      { assert (0 < p ^ pow) by (apply Z.pow_pos_nonneg; lia). nia. }
      destruct (IH (p + 2) n1 (sieved_next p n n1 pow Hs Heq Hpow Hn1 Hnd) ltac:(lia))
        as (l & n' & Hrec & Hfac & Hlast).
      rewrite Hrec. destruct (Z.gtb_spec pow 0) as [Hpos | Hzero].
      * exists ((p, pow) :: l), n'. split; [reflexivity |]. split; [| exact Hlast].
        apply (factored_cons p pow l n n1 n'); try assumption; try lia.
        apply (least_divisor_prime p n); [lia | | exact Hleast].
        exists (p ^ (pow - 1) * n1). rewrite Heq.
        replace pow with (Z.succ (pow - 1)) at 1 by lia.
        rewrite Z.pow_succ_r by lia. ring.
      * exists l, n'. split; [reflexivity |]. split; [| exact Hlast].
        assert (pow = 0) by lia. subst pow. rewrite Z.pow_0_r, Z.mul_1_l in Heq.
        subst n1. exact Hfac.
    + exists [], n. split; [reflexivity |]. split; [constructor; exact Hn |].
      destruct (Z.eq_dec n 1) as [-> | Hn1]; [left; reflexivity | right].
      apply (no_small_divisor_prime p n); [lia | lia | lia | exact Hleast].
Qed.

Lemma factorize_spec (md : Z) :
  1 <= md -> exists fs, factorize md = Some fs /\ factored_onto fs md 1.
Proof.
  intros Hmd. unfold factorize.
  destruct (strip_factor_spec (strip_fuel md) md 2 0 Hmd ltac:(lia) (strip_fuel_enough md Hmd))
    as (pow2 & n & Hstrip & Hpow & Heq & Hn & Hodd).
  rewrite Hstrip. rewrite Z.sub_0_r in Heq.
  assert (Hs : sieved 3 n).
  { unfold sieved. split; [exact Hn |]. split; [exact Hodd |]. split; [lia |]. split.
    - intros [c Hc]. lia.
    - intros q Hq Hqn. pose proof (Z.prime_ge_2 q Hq).
      assert (q <> 2) by (intros ->; contradiction). lia. }
  destruct (odd_factors_spec (Z.to_nat n) 3 n Hs ltac:(lia)) as (odd & n' & Hof & Hfac & Hlast).
  rewrite Hof.
  assert (Htail : factored_onto (odd ++ (if n' >? 1 then [(n', 1)] else [])) n 1).
  { destruct (Z.gtb_spec n' 1) as [Hgt | Hle].
    - destruct Hlast as [-> | Hprime]; [lia |]. apply factored_onto_snoc; assumption.
    - rewrite app_nil_r. destruct Hlast as [-> | Hprime]; [exact Hfac |].
      pose proof (Z.prime_ge_2 n' Hprime). lia. }
  eexists. split; [reflexivity |].
  destruct (Z.gtb_spec pow2 0) as [Hpos | Hzero]; simpl.
  - apply (factored_cons 2 pow2 _ md n 1); try assumption; [apply Z.prime_2 | lia].
  - assert (pow2 = 0) by lia. subst pow2. rewrite Z.pow_0_r, Z.mul_1_l in Heq.
    subst n. exact Htail.
Qed.

End Factorization.

(** ** Generators and enumeration *)

Section Enumeration.

Import DirichletCharacter.

Lemma list_product_app (a b : list Z) :
  list_product (a ++ b) = list_product a * list_product b.
Proof.
  induction a as [| x a IH]; simpl; [lia |].
  unfold list_product in *. simpl. rewrite IH. ring.
Qed.

Lemma iter_mul_pow (p k : Z) : 0 <= k -> Z.iter k (fun pk => pk * p) 1 = p ^ k.
Proof.
  intros Hk. rewrite iter_nat_of_Z by exact Hk.
  rewrite <- (Z.abs_eq k) at 2 by exact Hk. rewrite <- Zabs2Nat.id_abs.
  induction (Z.abs_nat k) as [| m IH]; [reflexivity |].
  simpl nat_rect. rewrite IH, Nat2Z.inj_succ, Z.pow_succ_r by lia. ring.
Qed.

Lemma generates_total (fuel : nat) (g d p : Z) :
  p - d <= Z.of_nat fuel -> 1 <= d -> exists b, generates fuel g d p = Some b.
Proof.
  revert d. induction fuel as [| fuel IH]; intros d Hfuel Hd; cbn [generates].
  - destruct (Z.leb_spec (d * d) (p - 1)); [nia | eauto].
  - destruct (Z.leb_spec (d * d) (p - 1)); [| eauto].
    destruct (_ && _); [eauto |]. apply IH; lia.
Qed.

Lemma generates_self (fuel : nat) (d p : Z) :
  2 <= p -> 2 <= d -> generates fuel p d p <> Some false.
Proof.
  intros Hp. revert d. induction fuel as [| fuel IH]; intros d Hd; cbn [generates].
  - destruct (Z.leb_spec (d * d) (p - 1)); discriminate.
  - destruct (Z.leb_spec (d * d) (p - 1)) as [Hdd |]; [| discriminate].
    rewrite (pow_mod_self p d) by lia.
    rewrite (pow_mod_self p (Z.quot (p - 1) d)).
    2:{ assert (d <= (p - 1) ÷ d) by (apply Z.quot_le_lower_bound; lia). lia. }
    simpl. rewrite andb_false_r. apply IH. lia.
Qed.

Lemma find_primitive_root_total (fuel : nat) (g p k : Z) :
  2 <= g <= p -> p - g + 1 <= Z.of_nat fuel ->
  exists r, find_primitive_root fuel g p k = Some r.
Proof.
  revert g. induction fuel as [| fuel IH]; intros g Hg Hfuel; [lia |].
  cbn [find_primitive_root].
  destruct (generates_total (Z.to_nat p) g 2 p ltac:(lia) ltac:(lia)) as (b & Hb).
  rewrite Hb. destruct b.
  - destruct (_ && _); eauto.
  - assert (g <> p).
    { intros ->. apply (generates_self (Z.to_nat p) 2 p); [lia | lia | exact Hb]. }
    apply IH; lia.
Qed.

Lemma prime_power_generators_spec (p k : Z) :
  Z.prime p -> 1 <= k ->
  exists gs os,
    prime_power_generators p k = Some (gs, os) /\
    length gs = length os /\
    list_product os = p ^ k - p ^ (k - 1) /\
    Forall (fun m => 0 <= m) os.
Proof.
  intros Hp Hk. pose proof (Z.prime_ge_2 p Hp) as Hp2.
  unfold prime_power_generators. rewrite iter_mul_pow by lia.
  assert (Hsplit : p ^ k = p ^ (k - 1) * p).
  { replace k with (Z.succ (k - 1)) at 1 by lia. rewrite Z.pow_succ_r by lia. ring. }
  assert (Hpk1 : 0 < p ^ (k - 1)) by (apply Z.pow_pos_nonneg; lia).
  destruct (Z.eqb_spec p 2) as [-> | Hne]; simpl andb.
  - destruct (Z.geb_spec k 3) as [Hk3 | Hk3].
    + exists [-1; 3], [2; Z.quot (2 ^ k) 4]. split; [reflexivity |]. split; [reflexivity |].
      assert (Hq : 2 ^ k ÷ 4 = 2 ^ (k - 2)).
      { replace k with (k - 2 + 2) at 1 by lia. rewrite Z.pow_add_r by lia.
        change (2 ^ 2) with 4. apply Z.quot_mul. lia. }
      rewrite Hq. assert (H2 : 2 ^ (k - 1) = 2 ^ (k - 2) * 2).
      { replace (k - 1) with (Z.succ (k - 2)) by lia. rewrite Z.pow_succ_r by lia. ring. }
      assert (0 < 2 ^ (k - 2)) by (apply Z.pow_pos_nonneg; lia).
      split; [unfold list_product; simpl; lia |].
      repeat constructor; lia.
    + destruct (Z.eqb_spec k 2) as [-> | Hk2].
      * exists [-1], [2]. repeat split; try reflexivity. repeat constructor; lia.
      * destruct (Z.eqb_spec k 1) as [-> | Hk1]; [| lia].
        exists [], []. repeat split; try reflexivity. constructor.
  - destruct (find_primitive_root_total (Z.to_nat p) 2 p k ltac:(lia) ltac:(lia)) as (g & Hg).
    rewrite Hg. exists [g], [p ^ k - Z.quot (p ^ k) p].
    split; [reflexivity |]. split; [reflexivity |].
    assert (Hq : p ^ k ÷ p = p ^ (k - 1)) by (rewrite Hsplit; apply Z.quot_mul; lia).
    rewrite Hq. split; [unfold list_product; simpl; lia |].
    repeat constructor. nia.
Qed.

Lemma all_generators_spec (fs : list (Z * Z)) :
  Forall (fun pk => Z.prime (fst pk) /\ 1 <= snd pk) fs ->
  exists gs os,
    all_generators fs = Some (gs, os) /\
    length gs = length os /\
    list_product os = phi_of_factors fs /\
    Forall (fun m => 0 <= m) os.
Proof.
  induction 1 as [| [p k] fs [Hp Hk] _ (gs' & os' & Hrec & Hlen' & Hprod' & Hpos')].
  - exists [], []. repeat split; try reflexivity. constructor.
  - simpl in Hp, Hk.
    destruct (prime_power_generators_spec p k Hp Hk) as (gs & os & Hpp & Hlen & Hprod & Hpos).
    exists (gs ++ gs'), (os ++ os'). cbn [all_generators]. rewrite Hpp, Hrec.
    split; [reflexivity |]. split; [rewrite !length_app; lia |]. split.
    + rewrite list_product_app, Hprod, Hprod'. reflexivity.
    + apply Forall_app. split; assumption.
Qed.

Lemma compute_generators_spec (md : Z) :
  1 <= md ->
  exists gs os,
    compute_generators md = Ok (gs, os) /\
    length gs = length os /\
    list_product os = totient md /\
    Forall (fun m => 0 <= m) os.
Proof.
  intros Hmd. unfold compute_generators. destruct (Z.eqb_spec md 1) as [-> | Hne].
  - exists [], []. repeat split; try reflexivity. constructor.
  - destruct (factorize_spec md Hmd) as (fs & Hfs & Hfac). rewrite Hfs.
    destruct (all_generators_spec fs (factored_all_prime _ _ _ Hfac))
      as (gs & os & Hall & Hlen & Hprod & Hpos).
    rewrite Hall. exists gs, os. split; [reflexivity |]. split; [exact Hlen |].
    split; [| exact Hpos]. rewrite Hprod. symmetry. apply totient_factored. exact Hfac.
Qed.

Lemma in_range (lo : Z) (len : nat) (x : Z) :
  In x (range lo len) <-> lo <= x < lo + Z.of_nat len.
Proof.
  unfold range. rewrite in_map_iff. split.
  - intros (i & <- & Hi). apply in_seq in Hi. lia.
  - intros Hx. exists (Z.to_nat (x - lo)). split; [lia |]. apply in_seq. lia.
Qed.

Lemma NoDup_map_injective {A B : Type} (f : A -> B) (l : list A) :
  (forall a b, f a = f b -> a = b) -> List.NoDup l -> List.NoDup (map f l).
Proof.
  intros Hinj. induction 1 as [| a l Ha _ IH]; simpl; constructor; [| exact IH].
  intros Hin. apply in_map_iff in Hin. destruct Hin as (b & Hb & Hbl).
  apply Hinj in Hb. subst b. contradiction.
Qed.

Lemma range_NoDup (lo : Z) (len : nat) : List.NoDup (range lo len).
Proof.
  unfold range. apply NoDup_map_injective; [| apply seq_NoDup].
  intros i j Hij. lia.
Qed.








End Enumeration.

(** ** Zp::sqrt *)

Section SquareRoot.

(** The algebra of one Hensel correction. *)
Lemma hensel_identity (root v pk p P a q0 c inv t s root1 : Z) :
  root * root - v = a * pk ->
  c = a - p * q0 ->
  inv * (2 * root) = 1 + t * p ->
  pk = p * P ->
  root1 = root - c * inv * pk - pk * p * s ->
  root1 * root1 - v =
  (pk * p) * (q0 - c * t + c * c * inv * inv * P
              - 2 * (root - c * inv * pk) * s + pk * p * s * s).
Proof.
  intros E1 E2 E3 E4 E5.
  assert (Hv : v = root * root - a * pk) by lia.
  subst root1 c pk v.
  match goal with
  | |- ?L = ?R =>
      assert (H : L - R
                  = (a - p * q0) * (p * P) * ((1 + t * p) - inv * (2 * root))) by ring
  end.
  rewrite E3, Z.sub_diag, Z.mul_0_r in H. lia.
Qed.

Lemma hensel_step_congruent (root v p k inv : Z) :
  2 <= p -> 1 <= k ->
  (p ^ k | root * root - v) ->
  (inv * (2 * root)) mod p = 1 ->
  let pk := p ^ k in
  let pk1 := pk * p in
  let f := Z.rem (root * root - v) pk1 in
  let root1 := (root - (f ÷ pk) * inv * pk) mod pk1 in
  (p ^ (k + 1) | root1 * root1 - v).
Proof.
  intros Hp Hk [a Ha] Hinv pk pk1 f root1.
  assert (Hpk : 0 < pk) by (apply Z.pow_pos_nonneg; lia).
  assert (Hpk1 : p ^ (k + 1) = pk * p) by (rewrite Z.pow_add_r by lia; subst pk; ring).
  assert (HP : pk = p * p ^ (k - 1)).
  { subst pk. replace k with (Z.succ (k - 1)) at 1 by lia. apply Z.pow_succ_r. lia. }
  set (q0 := (root * root - v) ÷ pk1).
  assert (Hf : f = (a - p * q0) * pk).
  { unfold f. rewrite rem_as_sub. fold q0. rewrite Ha. subst pk1. fold pk. ring. }
  assert (Hc : f ÷ pk = a - p * q0) by (rewrite Hf; apply Z.quot_mul; lia).
  assert (Ht : exists t, inv * (2 * root) = 1 + t * p).
  { exists ((inv * (2 * root)) / p). pose proof (Z.div_mod (inv * (2 * root)) p ltac:(lia)). lia. }
  destruct Ht as [t Ht].
  set (s := (root - f ÷ pk * inv * pk) / pk1).
  assert (Hr1 : root1 = root - (f ÷ pk) * inv * pk - pk * p * s).
  { unfold root1. rewrite Z.mod_eq by (subst pk1; nia). fold s. subst pk1. ring. }
  rewrite Hpk1. eexists.
  rewrite (hensel_identity root v pk p (p ^ (k - 1)) a q0 (f ÷ pk) inv t s root1
             Ha Hc Ht HP Hr1).
  rewrite Z.mul_comm. reflexivity.
Qed.

Lemma mod_inverse_spec (a m inv : Z) :
  2 <= m -> BigInt.mod_inverse a m = Some inv -> (inv * a) mod m = 1.
Proof.
  intros Hm. unfold BigInt.mod_inverse.
  destruct (Z.eqb_spec (Z.gcd a m) 1) as [Hg |]; [| discriminate].
  intros [= <-]. apply Z.invmod_coprime; assumption.
Qed.

Lemma hensel_spec (steps : nat) (k root v p root' : Z) :
  2 <= p -> 1 <= k ->
  (p ^ k | root * root - v) ->
  Zp.hensel steps k root v p = Ok root' ->
  (p ^ (k + Z.of_nat steps) | root' * root' - v).
Proof.
  intros Hp. revert k root. induction steps as [| steps IH]; intros k root Hk Hdiv Hrun.
  - simpl in Hrun. injection Hrun as <-. rewrite Z.add_0_r. exact Hdiv.
  - cbn [Zp.hensel] in Hrun.
    replace (k + Z.of_nat (S steps)) with (k + 1 + Z.of_nat steps) by lia.
    assert (Hpk : 0 < p ^ k) by (apply Z.pow_pos_nonneg; lia).
    unfold BigInt.pow, BigInt.rem, BigInt.quot, BigInt.is_zero, BigInt.is_negative in Hrun.
    destruct (Z.eqb_spec (Z.rem (root * root - v) (p ^ k * p)) 0) as [Hz | Hnz];
      cbn [negb] in Hrun.
    + apply (IH (k + 1) root); [lia | | exact Hrun].
      rewrite Z.pow_add_r, Z.pow_1_r by lia. apply Z.rem_divide; [nia | exact Hz].
    + destruct (BigInt.mod_inverse (2 * root) p) as [inv |] eqn:Hinv; [| discriminate].
      apply mod_inverse_spec in Hinv; [| exact Hp].
      rewrite fix_sign_mod in Hrun by nia.
      apply (IH (k + 1) _ ltac:(lia)) in Hrun; [exact Hrun |].
      pose proof (hensel_step_congruent root v p k inv Hp Hk Hdiv Hinv) as Hstep.
      cbv zeta in Hstep.
      replace (root - Z.rem (root * root - v) (p ^ k * p) ÷ p ^ k * inv * p ^ k)
        with (root - Z.rem (root * root - v) (p ^ k * p) ÷ p ^ k * inv * p ^ k) in Hstep by ring.
      exact Hstep.
Qed.

(** The invariant of the Tonelli-Shanks loop: r^2 = t * v modulo p.  It
    holds whatever power of c the inner loops pick. *)
Lemma tonelli_loop_spec (fuel inner : nat) (m c t r p v r' : Z) :
  2 <= p ->
  (p | r * r - t * v) ->
  Zp.tonelli_loop fuel inner m c t r p = Some r' ->
  (p | r' * r' - v).
Proof.
  intros Hp. revert m c t r. induction fuel as [| fuel IH]; intros m c t r Hinv Hrun;
    cbn [Zp.tonelli_loop] in Hrun; unfold BigInt.is_one in Hrun;
    destruct (Z.eqb_spec t 1) as [-> | Hne]; cbn [negb] in Hrun; try discriminate.
  - injection Hrun as <-. rewrite Z.mul_1_l in Hinv. exact Hinv.
  - injection Hrun as <-. rewrite Z.mul_1_l in Hinv. exact Hinv.
  - destruct (Zp.least_i inner (BigInt.rem (t * t) p) 1 p) as [i |]; [| discriminate].
    set (b := Zp.square_times (m - i - 1) c p) in Hrun.
    apply IH in Hrun; [exact Hrun |]. unfold BigInt.rem.
    rewrite !rem_as_sub. destruct Hinv as [w Hw].
    set (q1 := (r * b) ÷ p). set (q2 := (b * b) ÷ p).
    set (q3 := (t * (b * b - p * q2)) ÷ p).
    exists (w * b * b - 2 * r * b * q1 + p * q1 * q1 + t * q2 * v + q3 * v).
    replace ((r * b - p * q1) * (r * b - p * q1) - (t * (b * b - p * q2) - p * q3) * v)
      with ((r * r - t * v) * (b * b) - 2 * r * b * q1 * p + p * q1 * q1 * p
            + t * q2 * v * p + q3 * v * p) by ring.
    rewrite Hw. ring.
Qed.

Lemma split_two_spec (fuel : nat) (q0 s0 q s : Z) :
  1 <= q0 -> Zp.split_two fuel q0 s0 = Some (q, s) -> 1 <= q /\ Z.rem q 2 <> 0.
Proof.
  revert q0 s0. induction fuel as [| fuel IH]; intros q0 s0 Hq0 Hrun;
    cbn [Zp.split_two] in Hrun; unfold BigInt.is_zero, BigInt.rem, BigInt.quot in Hrun;
    destruct (Z.eqb_spec (Z.rem q0 2) 0) as [Hz | Hnz]; try discriminate.
  - injection Hrun as <- <-. split; assumption.
  - apply IH in Hrun; [exact Hrun |]. apply Z.quot_exact in Hz; lia.
  - injection Hrun as <- <-. split; assumption.
Qed.

Lemma odd_half_double (q : Z) : 1 <= q -> Z.rem q 2 <> 0 -> 2 * ((q + 1) ÷ 2) = q + 1.
Proof.
  intros Hq Hodd. pose proof (Z.quot_rem' q 2). pose proof (Z.quot_rem' (q + 1) 2).
  pose proof (Z.rem_bound_pos q 2). pose proof (Z.rem_bound_pos (q + 1) 2). lia.
Qed.

Lemma tonelli_shanks_spec (fuel : nat) (v p r : Z) :
  3 <= p -> Zp.tonelli_shanks fuel v p = Some r -> (p | r * r - v).
Proof.
  intros Hp Hrun. unfold Zp.tonelli_shanks in Hrun.
  destruct (Zp.split_two fuel (p - 1) 0) as [[q s] |] eqn:Hsplit; [| discriminate].
  destruct (Zp.find_non_residue fuel 2 p) as [z |]; [| discriminate].
  apply split_two_spec in Hsplit; [| lia]. destruct Hsplit as [Hq Hodd].
  apply (tonelli_loop_spec _ _ _ _ _ _ _ v) in Hrun; [exact Hrun | lia |].
  unfold BigInt.pow_mod, BigInt.quot. apply Z.mod_divide; [lia |].
  apply Z.cong_iff_0. rewrite <- Z.mul_mod, Z.mul_mod_idemp_l by lia.
  rewrite <- Z.pow_2_r, <- Z.pow_mul_r by (try lia; apply Z.quot_pos; lia).
  rewrite (Z.mul_comm _ 2), odd_half_double by assumption.
  rewrite Z.pow_add_r, Z.pow_1_r by lia. reflexivity.
Qed.

(** A root that sqrt returns squares back to x at the full precision N of
    x, for every p >= 2; the values on which it returns are units that
    pass the guard of the source (x = 1 modulo 8 for p = 2, Euler's
    criterion x^((p-1)/2) = 1 modulo p otherwise). *)
Lemma sqrt_squares_back (fuel : nat) (x r : Zp.t) :
  Zp.wf x -> Zp.sqrt fuel x = Ok r ->
  Zp.mul r r = Ok x /\
  Zp.precision r = Zp.precision x /\
  Zp.is_unit x = true /\
  (if Zp.prime x =? 2 then Zp.value x mod 8 = 1
   else (Zp.value x ^ ((Zp.prime x - 1) / 2)) mod Zp.prime x = 1).
Proof.
  destruct x as [p N v]. intros (Hp & HN & Hv) Hrun. simpl in Hp, HN, Hv.
  unfold Zp.sqrt in Hrun. cbn [Zp.prime Zp.precision Zp.value] in *.
  destruct (Zp.is_unit (Zp.mk p N v)) eqn:Hunit; cbn [negb] in Hrun; [| discriminate].
  assert (Hpp : 0 < p ^ N) by (apply Z.pow_pos_nonneg; lia).
  assert (Hroot : forall root0,
             (p | root0 * root0 - v) ->
             (do root <- Zp.hensel (Z.to_nat (N - 1)) 1 root0 v p; Zp.make p N root) = Ok r ->
             Zp.mul r r = Ok (Zp.mk p N v) /\ Zp.precision r = N).
  { intros root0 H0 Hlift.
    destruct (Zp.hensel (Z.to_nat (N - 1)) 1 root0 v p) as [root | |] eqn:Hh; try discriminate.
    cbn [obind] in Hlift. rewrite make_ok in Hlift by lia. injection Hlift as <-.
    apply hensel_spec in Hh; [| lia | lia | rewrite Z.pow_1_r; exact H0].
    replace (1 + Z.of_nat (Z.to_nat (N - 1))) with N in Hh by lia.
    split; [| reflexivity].
    assert (Hw : Zp.wf (Zp.mk p N (root mod p ^ N))).
    { unfold Zp.wf; simpl. repeat split; try lia; apply Z.mod_pos_bound; lia. }
    rewrite (mul_ok _ _ Hw Hw eq_refl). cbn [Zp.prime Zp.precision Zp.value].
    rewrite Z.min_id. f_equal. f_equal.
    rewrite <- Z.mul_mod by lia.
    transitivity (v mod p ^ N); [| apply Z.mod_small; lia].
    apply Z.cong_iff_0. apply Z.mod_divide; [lia | exact Hh]. }
  destruct (Z.eqb_spec p 2) as [-> | Hne].
  - unfold BigInt.rem in Hrun.
    destruct (Z.eqb_spec (Z.rem v 8) 1) as [H8 |]; cbn [negb] in Hrun; [| discriminate].
    cbn [obind] in Hrun. rewrite Z.rem_mod_nonneg in H8 by lia.
    destruct (Hroot 1) as [Hmul Hprec]; [| exact Hrun |].
    + exists (- (v / 8) * 4). pose proof (Z.div_mod v 8 ltac:(lia)). lia.
    + repeat split; assumption.
  - unfold BigInt.pow_mod, BigInt.quot in Hrun.
    destruct (Z.eqb_spec (v ^ ((p - 1) ÷ 2) mod p) 1) as [Heuler |];
      cbn [negb] in Hrun; [| discriminate].
    destruct (Zp.tonelli_shanks fuel v p) as [r0 |] eqn:Hts; [| discriminate].
    cbn [obind] in Hrun. apply tonelli_shanks_spec in Hts; [| lia].
    destruct (Hroot r0 Hts Hrun) as [Hmul Hprec].
    rewrite <- Z.quot_div_nonneg by lia. repeat split; assumption.
Qed.

(** For p = 2 the correction step asks for the inverse of 2 * root modulo
    2, which does not exist, so the lifting never moves the root. *)
Lemma hensel_two_keeps_root (steps : nat) (k root v root' : Z) :
  Zp.hensel steps k root v 2 = Ok root' -> root' = root.
Proof.
  revert k root. induction steps as [| steps IH]; intros k root Hrun.
  - simpl in Hrun. congruence.
  - cbn [Zp.hensel] in Hrun.
    destruct (negb (BigInt.is_zero (BigInt.rem (root * root - v) (BigInt.pow 2 k * 2)))).
    + assert (Hnone : BigInt.mod_inverse (2 * root) 2 = None).
      { unfold BigInt.mod_inverse. rewrite Z.gcd_comm, Z.gcd_mul_diag_l by lia. reflexivity. }
      rewrite Hnone in Hrun. discriminate.
    + apply IH in Hrun. exact Hrun.
Qed.

(** Hence the only 2-adic value on which sqrt returns is 1; a unit such as
    9 = 3 * 3, known to 4 digits, is refused. *)
Lemma sqrt_two_adic_only_one (fuel : nat) (x r : Zp.t) :
  Zp.wf x -> Zp.prime x = 2 -> Zp.sqrt fuel x = Ok r -> Zp.value x = 1.
Proof.
  destruct x as [p N v]. intros (_ & HN & Hv) H2 Hrun. simpl in HN, Hv, H2. subst p.
  unfold Zp.sqrt in Hrun. cbn [Zp.prime Zp.precision Zp.value] in *.
  destruct (negb (Zp.is_unit (Zp.mk 2 N v))); [discriminate |].
  change (2 =? 2) with true in Hrun. cbv iota in Hrun. unfold BigInt.rem in Hrun.
  destruct (Z.eqb_spec (Z.rem v 8) 1) as [H8 |]; cbn [negb] in Hrun; [| discriminate].
  cbn [obind] in Hrun. rewrite Z.rem_mod_nonneg in H8 by lia.
  destruct (Zp.hensel (Z.to_nat (N - 1)) 1 1 v 2) as [root | |] eqn:Hh; try discriminate.
  pose proof (hensel_two_keeps_root _ _ _ _ _ Hh) as ->.
  apply hensel_spec in Hh; [| lia | lia |].
  - replace (1 + Z.of_nat (Z.to_nat (N - 1))) with N in Hh by lia.
    destruct Hh as [c Hc].
    assert (Hpp : 2 <= 2 ^ N) by (apply pow_ge_2; lia).
    assert (c = 0) by nia. subst c. lia.
  - exists (- (v / 8) * 4). pose proof (Z.div_mod v 8 ltac:(lia)). lia.
Qed.

(** C7 at p = 2 and x = 9 known to 4 digits: x is a unit with x = 1
    modulo 8, the case in which the claim has sqrt succeed, and 3 * 3 = x;
    sqrt passes its guard, starts from the root 1, and stops in the first
    Hensel step, which asks for the inverse of 2 * root modulo 2. *)
Theorem sqrt_two_adic_nine (fuel : nat) :
  Zp.make 2 4 9 = Ok (Zp.mk 2 4 9) /\
  Zp.is_unit (Zp.mk 2 4 9) = true /\
  BigInt.rem (Zp.value (Zp.mk 2 4 9)) 8 = 1 /\
  Zp.mul (Zp.mk 2 4 3) (Zp.mk 2 4 3) = Ok (Zp.mk 2 4 9) /\
  Zp.sqrt fuel (Zp.mk 2 4 9) = Throw NoInverse.
Proof. repeat split. Qed.

End SquareRoot.

(** ** Valuations and the Qp operations *)

Section QpFacts.

Lemma count_factors_spec (fuel : nat) (n p : Z) :
  2 <= p -> n <> 0 -> Z.abs n < 2 ^ Z.of_nat fuel ->
  0 <= ModularArith.count_factors fuel n p /\
  exists m, n = p ^ ModularArith.count_factors fuel n p * m /\ ~ (p | m).
Proof.
  intros Hp. revert n. induction fuel as [| fuel IH]; intros n Hn Hlt.
  - simpl in Hlt. lia.
  - cbn [ModularArith.count_factors]. unfold BigInt.is_divisible_by, BigInt.quot.
    destruct (Z.eqb_spec n 0) as [| _]; [contradiction |]. cbn [negb andb].
    destruct (Z.eqb_spec (Z.rem n p) 0) as [Hr | Hr].
    + apply Z.quot_exact in Hr; [| lia].
      assert (Hq : n ÷ p <> 0) by nia.
      assert (Hlt' : Z.abs (n ÷ p) < 2 ^ Z.of_nat fuel).
      { rewrite Nat2Z.inj_succ, Z.pow_succ_r in Hlt by lia. nia. }
      destruct (IH (n ÷ p) Hq Hlt') as (Hv & m & Hm & Hnd).
      split; [lia |]. exists m. split; [| exact Hnd].
      rewrite Z.add_comm, Z.pow_add_r, Z.pow_1_r by lia.
      rewrite Hr at 1. rewrite Hm at 1. ring.
    + split; [lia |]. exists n. rewrite Z.pow_0_r, Z.mul_1_l. split; [reflexivity |].
      intros Hd. apply Hr. apply Z.rem_divide; [lia | exact Hd].
Qed.

Lemma p_adic_valuation_spec (n p : Z) :
  2 <= p -> n <> 0 ->
  0 <= ModularArith.p_adic_valuation n p /\
  exists m, n = p ^ ModularArith.p_adic_valuation n p * m /\ ~ (p | m).
Proof.
  intros Hp Hn. unfold ModularArith.p_adic_valuation. apply count_factors_spec; try assumption.
  rewrite Nat2Z.inj_succ, Z2Nat.id by apply Z.log2_nonneg. apply Z.log2_spec. lia.
Qed.

Lemma valuation_ge_iff (n p k : Z) :
  2 <= p -> n <> 0 -> 0 <= k ->
  (k <= ModularArith.p_adic_valuation n p <-> (p ^ k | n)).
Proof.
  intros Hp Hn Hk. destruct (p_adic_valuation_spec n p Hp Hn) as (Hv & m & Hm & Hnd).
  set (v := ModularArith.p_adic_valuation n p) in *. split.
  - intros Hle. exists (p ^ (v - k) * m). rewrite Hm at 1.
    replace v with (v - k + k) at 1 by lia. rewrite Z.pow_add_r by lia. ring.
  - intros [c Hc]. destruct (Z_le_gt_dec k v) as [| Hgt]; [assumption | exfalso].
    apply Hnd. exists (c * p ^ (k - v - 1)).
    assert (Hpv : 0 < p ^ v) by (apply Z.pow_pos_nonneg; lia).
    assert (Hsplit : p ^ k = p ^ v * (p ^ (k - v - 1) * p)).
    { replace k with (v + (k - v - 1 + 1)) at 1 by lia.
      rewrite !Z.pow_add_r, Z.pow_1_r by lia. reflexivity. }
    rewrite Hsplit in Hc. rewrite Hm in Hc.
    apply (Z.mul_reg_l _ _ (p ^ v)); [lia |]. rewrite Hc. ring.
Qed.

(** The unit and valuation that [of_scaled] extracts from a residue r that
    is not 0. *)
Lemma of_scaled_nonzero (p N shift s : Z) :
  2 <= p -> 1 <= N -> s mod p ^ N <> 0 ->
  let r := s mod p ^ N in
  let k := ModularArith.p_adic_valuation r p in
  Qp.of_scaled p N shift s = Qp.mk p N (shift + k) (r / p ^ k) /\
  0 < r / p ^ k < p ^ N /\ ~ (p | r / p ^ k).
Proof.
  intros Hp HN Hr r k. unfold Qp.of_scaled. fold r.
  destruct (Z.eqb_spec r 0) as [| _]; [contradiction |]. fold k.
  split; [reflexivity |].
  assert (Hpp : 0 < p ^ N) by (apply Z.pow_pos_nonneg; lia).
  pose proof (Z.mod_pos_bound s (p ^ N) Hpp) as Hb. fold r in Hb.
  destruct (p_adic_valuation_spec r p Hp Hr) as (Hk & m & Hm & Hnd). fold k in Hk, Hm.
  assert (Hpk : 0 < p ^ k) by (apply Z.pow_pos_nonneg; lia).
  assert (Hdiv : r / p ^ k = m).
  { rewrite Hm, Z.mul_comm. apply Z.div_mul. lia. }
  rewrite Hdiv. split; [nia | exact Hnd].
Qed.

Lemma of_scaled_zero (p N shift s : Z) :
  s mod p ^ N = 0 -> Qp.of_scaled p N shift s = Qp.zero p N.
Proof. intros Hr. unfold Qp.of_scaled. rewrite Hr. reflexivity. Qed.

Lemma of_scaled_prime (p N shift s : Z) :
  Qp.prime (Qp.of_scaled p N shift s) = p /\ Qp.precision (Qp.of_scaled p N shift s) = N.
Proof. unfold Qp.of_scaled. destruct (_ =? 0); split; reflexivity. Qed.

Lemma of_scaled_wf (p N shift s : Z) :
  Z.prime p -> 1 <= N -> Qp.wf (Qp.of_scaled p N shift s).
Proof.
  intros Hprime HN. pose proof (Z.prime_ge_2 p Hprime) as Hp.
  assert (Hpp : 0 < p ^ N) by (apply Z.pow_pos_nonneg; lia).
  destruct (Z.eq_dec (s mod p ^ N) 0) as [Hz | Hnz].
  - rewrite of_scaled_zero by exact Hz. unfold Qp.wf, Qp.zero; simpl.
    split; [lia |]. split; [lia |]. split; [lia |]. split; [tauto | lia].
  - destruct (of_scaled_nonzero p N shift s Hp HN Hnz) as (-> & Hrange & Hnd).
    unfold Qp.wf; simpl. split; [lia |]. split; [lia |]. split; [lia |]. split.
    + split; [lia | discriminate].
    + intros _. rewrite Z.gcd_comm. apply Z.coprime_prime_l; assumption.
Qed.

Lemma qp_make_ok (p N v : Z) :
  2 <= p -> 1 <= N -> Qp.make p N v = Ok (Qp.of_scaled p N 0 v).
Proof.
  intros Hp HN. unfold Qp.make.
  destruct (Z.ltb_spec p 2); [lia |]. destruct (Z.ltb_spec N 1); [lia |]. reflexivity.
Qed.

Lemma qp_one (p N : Z) : 2 <= p -> 1 <= N -> Qp.of_scaled p N 0 1 = Qp.mk p N 0 1.
Proof.
  intros Hp HN. pose proof (pow_ge_2 p N Hp HN) as Hpp.
  assert (H1 : 1 mod p ^ N = 1) by (apply Z.mod_small; lia).
  destruct (of_scaled_nonzero p N 0 1 Hp HN ltac:(lia)) as (Heq & Hrange & _).
  rewrite H1 in Heq, Hrange.
  assert (Hv : ModularArith.p_adic_valuation 1 p = 0).
  { destruct (Z_le_gt_dec 1 (ModularArith.p_adic_valuation 1 p)) as [Hle |].
    - apply (valuation_ge_iff 1 p 1) in Hle; try lia.
      rewrite Z.pow_1_r in Hle. apply Z.divide_1_r_nonneg in Hle; lia.
    - pose proof (p_adic_valuation_spec 1 p Hp ltac:(lia)). lia. }
  rewrite Heq, Hv. reflexivity.
Qed.


Lemma qp_sub_ok (x y : Qp.t) :
  Qp.prime x = Qp.prime y ->
  exists z, Qp.sub x y = Ok z /\ Qp.prime z = Qp.prime x /\
            Qp.precision z = Z.min (Qp.precision x) (Qp.precision y).
Proof.
  intros Hpp. unfold Qp.sub. rewrite Hpp, Z.eqb_refl. cbn [negb].
  destruct (Qp.valuation x), (Qp.valuation y);
    (eexists; split; [reflexivity |]);
    first [apply of_scaled_prime | split; reflexivity].
Qed.



Lemma qp_with_precision_ok (x : Qp.t) (N : Z) :
  1 <= N ->
  exists z, Qp.with_precision x N = Ok z /\ Qp.prime z = Qp.prime x /\ Qp.precision z = N.
Proof.
  intros HN. unfold Qp.with_precision. destruct (Z.ltb_spec N 1); [lia |].
  destruct (Qp.is_zero x); eexists; (split; [reflexivity |]); split; reflexivity.
Qed.

End QpFacts.

(** ** PadicLog::log: domain *)

Section LogDomain.

Lemma count_p_powers_total (fuel : nat) (n p bound count : Z) :
  2 <= p -> 1 <= n -> bound - n + 1 <= Z.of_nat fuel ->
  exists c, PadicLog.count_p_powers fuel n p bound count = Some c /\ count <= c.
Proof.
  intros Hp. revert n count. induction fuel as [| fuel IH]; intros n count Hn Hfuel;
    cbn [PadicLog.count_p_powers]; destruct (Z.leb_spec n bound) as [Hle | Hgt].
  - lia.
  - exists count. split; [reflexivity | lia].
  - destruct (IH (n * p) (count + 1) ltac:(nia) ltac:(nia)) as (c & Hc & Hle').
    exists c. split; [exact Hc | lia].
  - exists count. split; [reflexivity | lia].
Qed.




Lemma check_convergence_spec (x : Qp.t) :
  Qp.wf x -> Qp.is_zero x = false -> Qp.valuation x = 0 ->
  exists b, PadicLog.check_convergence_condition x = Ok b /\
            (b = true <-> unit_congruent_to_one x (log_threshold (Qp.prime x))).
Proof.
  intros (Hp & HN & Hu & _ & _) Hnz Hval. unfold PadicLog.check_convergence_condition.
  rewrite Hnz. rewrite qp_make_ok, qp_one by lia. cbn [obind].
  unfold Qp.sub. cbn [Qp.prime Qp.precision Qp.valuation Qp.unit].
  rewrite Z.eqb_refl, Hval. cbn [negb obind].
  change (Z.min 0 0) with 0.
  rewrite Z.min_id, Z.sub_diag, Z.pow_0_r, !Z.mul_1_r.
  set (p := Qp.prime x) in *. set (N := Qp.precision x) in *. set (u := Qp.unit x) in *.
  set (k := log_threshold p).
  assert (Hk : 1 <= k <= 2) by (unfold k, log_threshold; destruct (p =? 2); lia).
  unfold Qp.is_zero in Hnz. fold u in Hnz. apply Z.eqb_neq in Hnz.
  assert (Hpp : 0 < p ^ N) by (apply Z.pow_pos_nonneg; lia).
  exists (Valuation.geb (Qp.valuation (Qp.of_scaled p N 0 (u - 1))) k). split.
  { fold k. unfold k, log_threshold. destruct (p =? 2); reflexivity. }
  unfold unit_congruent_to_one. fold p u k.
  destruct (Z.eq_dec u 1) as [Hu1 | Hu1].
  - rewrite Hu1. change (1 - 1) with 0. rewrite of_scaled_zero by (apply Z.mod_0_l; lia).
    simpl. rewrite Z.mod_0_l by (apply Z.pow_nonzero; lia). tauto.
  - assert (Hmod : (u - 1) mod p ^ N = u - 1) by (apply Z.mod_small; lia).
    destruct (of_scaled_nonzero p N 0 (u - 1) Hp HN ltac:(lia)) as (-> & _ & _).
    cbn [Qp.valuation Valuation.geb]. rewrite Hmod, Z.add_0_l, Z.geb_le.
    rewrite valuation_ge_iff by lia.
    rewrite <- Z.mod_divide by (apply Z.pow_nonzero; lia). tauto.
Qed.


Lemma log_refuses (x : Qp.t) :
  Qp.wf x ->
  Qp.is_zero x = true \/ Qp.valuation x <> 0 \/
  ~ unit_congruent_to_one x (log_threshold (Qp.prime x)) ->
  PadicLog.log x = Throw DomainError.
Proof.
  intros Hwf Hout. pose proof Hwf as (Hp & HN & Hu & _ & _).
  unfold PadicLog.log.
  destruct (Qp.is_zero x) eqn:Hnz; [reflexivity |].
  destruct (Valuation.eqb (Qp.valuation x) 0) eqn:Hv; cbn [negb]; [| reflexivity].
  assert (Hval : Qp.valuation x = 0).
  { destruct (Qp.valuation x) as [v |]; [| discriminate].
    cbn [Valuation.eqb] in Hv. apply Z.eqb_eq in Hv. rewrite Hv. reflexivity. }
  destruct Hout as [Hz | [Hne | Hnc]]; [discriminate | contradiction |].
  destruct (count_p_powers_total (Z.to_nat (Qp.precision x * 2)) (Qp.prime x) (Qp.prime x)
              (Qp.precision x * 2) 0 Hp ltac:(lia) ltac:(lia)) as (c & -> & Hc).
  set (wp := Qp.precision x + c + 5).
  rewrite qp_make_ok by lia. cbn [obind].
  destruct (qp_with_precision_ok x wp ltac:(lia)) as (x' & -> & Hx'p & Hx'q). cbn [obind].
  pose proof (of_scaled_prime (Qp.prime x) wp 0 1) as [H1p H1q].
  destruct (qp_sub_ok x' (Qp.of_scaled (Qp.prime x) wp 0 1) ltac:(congruence))
    as (u & -> & Hup & Huq).
  cbn [obind].
  destruct (check_convergence_spec x Hwf Hnz Hval) as (b & -> & Hb). cbn [obind].
  destruct b; cbn [negb]; [| reflexivity].
  exfalso. apply Hnc. apply Hb. reflexivity.
Qed.



End LogDomain.

(** ** LFunctions::kubota_leopoldt *)

Section KubotaLeopoldt.

Context {C : Type} (cyc : Cyclotomic.ops C).
Variable generalized_bernoulli : Z -> Z -> (Z -> outcome C) -> Z -> Z -> outcome Qp.t.
Variable num_terms : Z -> Z -> Z.

(** A call at s = 0 whose key is not in the cache evaluates
    -(Euler factor) * B_{1,chi} and stores it under the key. *)
Lemma kubota_leopoldt_miss_at_zero (chi : DirichletCharacter.t) (precision : Z)
    (l_cache : gmap LFunctions.LKey Qp.t) (v : Qp.t) :
  l_cache !! cache_key 0 chi precision = None ->
  2 <= DirichletCharacter.prime chi -> 1 <= precision ->
  (do B1_chi <- LFunctions.compute_B1_chi chi precision;
   do euler_factor <- LFunctions.compute_euler_factor chi 1 precision;
   Qp.mul (Qp.neg euler_factor) B1_chi) = Ok v ->
  LFunctions.kubota_leopoldt cyc generalized_bernoulli num_terms 0 chi precision l_cache
  = Ok (v, <[cache_key 0 chi precision := v]> l_cache).
Proof.
  intros Hmiss Hp HN Hv. unfold LFunctions.kubota_leopoldt.
  fold (cache_key 0 chi precision). rewrite Hmiss.
  rewrite qp_make_ok by assumption. cbn [obind]. rewrite Z.eqb_refl, Hv. reflexivity.
Qed.

(** A call whose key is already in the cache returns the stored value,
    whichever character stored it. *)
Lemma kubota_leopoldt_cache_hit (s precision : Z) (chi chi' : DirichletCharacter.t)
    (l_cache cache1 : gmap LFunctions.LKey Qp.t) (v : Qp.t) :
  LFunctions.kubota_leopoldt cyc generalized_bernoulli num_terms s chi precision l_cache
  = Ok (v, cache1) ->
  cache_key s chi' precision = cache_key s chi precision ->
  LFunctions.kubota_leopoldt cyc generalized_bernoulli num_terms s chi' precision cache1
  = Ok (v, cache1).
Proof.
  intros Hrun Hkey. unfold LFunctions.kubota_leopoldt in *.
  fold (cache_key s chi precision) in Hrun. fold (cache_key s chi' precision).
  rewrite Hkey.
  destruct (l_cache !! cache_key s chi precision) as [w |] eqn:Hc.
  - injection Hrun as <- <-. rewrite Hc. reflexivity.
  - destruct (Qp.make (DirichletCharacter.prime chi) precision 0); try discriminate.
    cbn [obind] in Hrun.
    match type of Hrun with
    | obind ?m _ = _ => destruct m as [res | |]; try discriminate
    end.
    cbn [obind] in Hrun. injection Hrun as <- <-.
    rewrite lookup_insert_eq. reflexivity.
Qed.

(** C1 at p = 5, N = 10 and the principal character modulo 1: the value
    the claim gives is 2/5, of valuation -1; kubota_leopoldt returns the
    zero element, because the Euler factor comes out as 1 - chi(5) * 5^0 = 0. *)
Theorem kubota_leopoldt_principal_at_zero :
  DirichletCharacter.make 1 5 = Ok principal_mod_1 /\
  LFunctions.compute_euler_factor principal_mod_1 1 10 = Ok (Qp.zero 5 10) /\
  LFunctions.kubota_leopoldt cyc generalized_bernoulli num_terms 0 principal_mod_1 10 ∅
  = Ok (Qp.zero 5 10, <[cache_key 0 principal_mod_1 10 := Qp.zero 5 10]> ∅) /\
  Qp.from_rational 2 5 5 10 = Ok (Qp.mk 5 10 (-1) 2) /\
  Qp.zero 5 10 <> Qp.mk 5 10 (-1) 2.
Proof.
  split; [vm_compute; reflexivity |].
  split; [vm_compute; reflexivity |].
  split.
  { apply kubota_leopoldt_miss_at_zero;
      [apply lookup_empty | simpl; lia | lia | vm_compute; reflexivity]. }
  split; [vm_compute; reflexivity | discriminate].
Qed.

(** C2 fails on the two characters modulo 7 with exponents [0] and [5]
    (p = 5): both have conductor 7 and chi(2) = 1, hence one cache key, but
    L_p(0, .) is 0 for the first and -1 for the second.  On an empty cache
    the second evaluates to -1; after the first has been evaluated it
    returns the first one's 0. *)
Theorem kubota_leopoldt_order_dependent :
  let cache0 := <[cache_key 0 chi7_0 3 := Qp.zero 5 3]> (∅ : gmap LFunctions.LKey Qp.t) in
  let cache5 := <[cache_key 0 chi7_5 3 := Qp.mk 5 3 0 124]> (∅ : gmap LFunctions.LKey Qp.t) in
  DirichletCharacter.make_values 7 5 [0] = Ok chi7_0 /\
  DirichletCharacter.make_values 7 5 [5] = Ok chi7_5 /\
  DirichletCharacter.evaluate_at chi7_0 3 <> DirichletCharacter.evaluate_at chi7_5 3 /\
  cache_key 0 chi7_0 3 = cache_key 0 chi7_5 3 /\
  LFunctions.kubota_leopoldt cyc generalized_bernoulli num_terms 0 chi7_5 3 ∅
  = Ok (Qp.mk 5 3 0 124, cache5) /\
  LFunctions.kubota_leopoldt cyc generalized_bernoulli num_terms 0 chi7_0 3 ∅
  = Ok (Qp.zero 5 3, cache0) /\
  LFunctions.kubota_leopoldt cyc generalized_bernoulli num_terms 0 chi7_5 3 cache0
  = Ok (Qp.zero 5 3, cache0).
Proof.
  intros cache0 cache5.
  assert (H0 : LFunctions.kubota_leopoldt cyc generalized_bernoulli num_terms 0 chi7_0 3 ∅
               = Ok (Qp.zero 5 3, cache0)).
  { apply kubota_leopoldt_miss_at_zero;
      [apply lookup_empty | simpl; lia | lia | vm_compute; reflexivity]. }
  split; [vm_compute; reflexivity |].
  split; [vm_compute; reflexivity |].
  split; [vm_compute; discriminate |].
  split; [vm_compute; reflexivity |].
  split.
  { apply kubota_leopoldt_miss_at_zero;
      [apply lookup_empty | simpl; lia | lia | vm_compute; reflexivity]. }
  split; [exact H0 |].
  apply (kubota_leopoldt_cache_hit 0 3 chi7_0 chi7_5 ∅ cache0 _ H0).
  vm_compute; reflexivity.
Qed.

End KubotaLeopoldt.

(** ** Zp: negation and precision changes *)

Section ZpNegation.

Lemma wf_value_mod (x : Zp.t) :
  Zp.wf x -> Zp.value x mod Zp.prime x ^ Zp.precision x = Zp.value x.
Proof. intros (Hp & HN & Hv). apply Z.mod_small. exact Hv. Qed.

Lemma mod_pow_le (a p M N : Z) :
  2 <= p -> 0 <= M <= N -> (a mod p ^ N) mod p ^ M = a mod p ^ M.
Proof.
  intros Hp HMN.
  replace N with (M + (N - M)) by lia. rewrite Z.pow_add_r by lia.
  assert (0 < p ^ M) by (apply Z.pow_pos_nonneg; lia).
  assert (0 < p ^ (N - M)) by (apply Z.pow_pos_nonneg; lia).
  rewrite Z.rem_mul_r by lia.
  rewrite (Z.mul_comm (p ^ M) (_ mod _)), Z.mod_add by lia. apply Z.mod_mod. lia.
Qed.

Lemma mk_wf (p N v : Z) : 2 <= p -> 1 <= N -> Zp.wf (Zp.mk p N (v mod p ^ N)).
Proof.
  intros Hp HN. unfold Zp.wf; simpl. repeat split; try lia;
    apply Z.mod_pos_bound; apply Z.pow_pos_nonneg; lia.
Qed.

Lemma neg_ok (x : Zp.t) :
  Zp.wf x ->
  Zp.neg x = Ok (Zp.mk (Zp.prime x) (Zp.precision x)
                       ((- Zp.value x) mod Zp.prime x ^ Zp.precision x)).
Proof.
  intros (Hp & HN & Hv). unfold Zp.neg, BigInt.pow, BigInt.rem.
  rewrite make_ok by lia. f_equal. f_equal.
  assert (0 < Zp.prime x ^ Zp.precision x) by (apply Z.pow_pos_nonneg; lia).
  rewrite rem_then_mod by lia.
  replace (Zp.prime x ^ Zp.precision x - Zp.value x)
    with (- Zp.value x + 1 * Zp.prime x ^ Zp.precision x) by ring.
  apply Z.mod_add. lia.
Qed.

Lemma with_precision_ok (x : Zp.t) (M : Z) :
  Zp.wf x -> 1 <= M ->
  Zp.with_precision x M = Ok (Zp.mk (Zp.prime x) M (Zp.value x mod Zp.prime x ^ M)).
Proof.
  intros (Hp & HN & Hv) HM. unfold Zp.with_precision, BigInt.rem, BigInt.pow.
  assert (0 < Zp.prime x ^ M) by (apply Z.pow_pos_nonneg; lia).
  destruct (M <? Zp.precision x); rewrite make_ok by lia; [| reflexivity].
  rewrite rem_then_mod by lia. reflexivity.
Qed.

(** X2: unary minus gives the additive inverse at the precision of its
    argument: x + (-x) is zero, -(-x) is x again, and the binary x - y is
    x + (-y), also when x and y differ in precision. *)
Theorem neg_laws (x y : Zp.t) :
  Zp.wf x -> Zp.wf y -> Zp.prime x = Zp.prime y ->
  exists nx ny,
    Zp.neg x = Ok nx /\ Zp.neg y = Ok ny /\
    Zp.add x nx = Ok (Zp.mk (Zp.prime x) (Zp.precision x) 0) /\
    Zp.neg nx = Ok x /\
    Zp.add x ny = Zp.sub x y.
Proof.
  intros Hx Hy Hpp. pose proof Hx as (Hp & HN & Hv). pose proof Hy as (Hp' & HN' & Hv').
  assert (Hpp' : 0 < Zp.prime x ^ Zp.precision x) by (apply Z.pow_pos_nonneg; lia).
  eexists. eexists. split; [apply neg_ok; exact Hx |]. split; [apply neg_ok; exact Hy |].
  assert (Hnx : Zp.wf (Zp.mk (Zp.prime x) (Zp.precision x)
                  ((- Zp.value x) mod Zp.prime x ^ Zp.precision x))) by (apply mk_wf; lia).
  assert (Hny : Zp.wf (Zp.mk (Zp.prime y) (Zp.precision y)
                  ((- Zp.value y) mod Zp.prime y ^ Zp.precision y))) by (apply mk_wf; lia).
  split; [| split].
  - rewrite (add_ok _ _ Hx Hnx eq_refl). cbn [Zp.prime Zp.precision Zp.value].
    rewrite Z.min_id. f_equal. f_equal.
    rewrite Z.add_mod_idemp_r by lia. rewrite Z.add_opp_diag_r. apply Z.mod_0_l. lia.
  - rewrite (neg_ok _ Hnx). cbn [Zp.prime Zp.precision Zp.value].
    destruct x as [p N v]; simpl in *. f_equal. f_equal.
    rewrite <- (Z.sub_0_l (_ mod _)), Zminus_mod_idemp_r, Z.sub_0_l, Z.opp_involutive.
    apply Z.mod_small. lia.
  - rewrite (add_ok _ _ Hx Hny Hpp), (sub_ok _ _ Hx Hy Hpp).
    cbn [Zp.prime Zp.precision Zp.value]. f_equal. f_equal.
    rewrite <- Hpp.
    rewrite <- Z.add_mod_idemp_r by (apply Z.pow_nonzero; lia).
    rewrite mod_pow_le by lia.
    rewrite Z.add_mod_idemp_r by (apply Z.pow_nonzero; lia). reflexivity.
Qed.

Lemma neg_laws_witness :
  let x := Zp.mk 5 3 7 in
  let y := Zp.mk 5 2 9 in
  exists nx ny,
    Zp.neg x = Ok nx /\ Zp.neg y = Ok ny /\
    Zp.add x nx = Ok (Zp.mk 5 3 0) /\ Zp.add x ny = Zp.sub x y.
Proof.
  intros x y.
  destruct (neg_laws x y) as (nx & ny & Hnx & Hny & Hz & _ & Hs);
    [unfold Zp.wf; simpl; lia | unfold Zp.wf; simpl; lia | reflexivity |].
  exists nx, ny. repeat split; assumption.
Defined.

End ZpNegation.

(** ** Zp: ring laws and truncation *)

Section ZpRing.

Lemma add_mod_pow_l (a c p m M : Z) :
  2 <= p -> 0 <= M <= m -> (a mod p ^ m + c) mod p ^ M = (a + c) mod p ^ M.
Proof.
  intros Hp HM. assert (p ^ M <> 0) by (apply Z.pow_nonzero; lia).
  rewrite <- Z.add_mod_idemp_l, mod_pow_le, Z.add_mod_idemp_l by lia. reflexivity.
Qed.

Lemma add_mod_pow_r (a c p m M : Z) :
  2 <= p -> 0 <= M <= m -> (c + a mod p ^ m) mod p ^ M = (c + a) mod p ^ M.
Proof. intros. rewrite Z.add_comm, add_mod_pow_l by lia. f_equal. lia. Qed.

Lemma mul_mod_pow_l (a c p m M : Z) :
  2 <= p -> 0 <= M <= m -> (a mod p ^ m * c) mod p ^ M = (a * c) mod p ^ M.
Proof.
  intros Hp HM. assert (p ^ M <> 0) by (apply Z.pow_nonzero; lia).
  rewrite <- Z.mul_mod_idemp_l, mod_pow_le, Z.mul_mod_idemp_l by lia. reflexivity.
Qed.

Lemma mul_mod_pow_r (a c p m M : Z) :
  2 <= p -> 0 <= M <= m -> (c * (a mod p ^ m)) mod p ^ M = (c * a) mod p ^ M.
Proof. intros. rewrite Z.mul_comm, mul_mod_pow_l by lia. f_equal. lia. Qed.

(** X1: on values of one prime, + and * are commutative and associative
    and * distributes over +, also when the three operands have three
    different precisions: both sides come out at the smallest precision
    involved, with the same representative. *)
Theorem zp_ring_laws (x y z : Zp.t) :
  Zp.wf x -> Zp.wf y -> Zp.wf z ->
  Zp.prime x = Zp.prime y -> Zp.prime y = Zp.prime z ->
  Zp.add x y = Zp.add y x /\
  Zp.mul x y = Zp.mul y x /\
  (do s <- Zp.add x y; Zp.add s z) = (do t <- Zp.add y z; Zp.add x t) /\
  (do s <- Zp.mul x y; Zp.mul s z) = (do t <- Zp.mul y z; Zp.mul x t) /\
  (do s <- Zp.add y z; Zp.mul x s) =
    (do a <- Zp.mul x y; do b <- Zp.mul x z; Zp.add a b).
Proof.
  intros Hx Hy Hz Hxy Hyz.
  pose proof Hx as (Hp & HNx & Hvx). pose proof Hy as (_ & HNy & Hvy).
  pose proof Hz as (_ & HNz & Hvz).
  destruct x as [p Nx vx], y as [p' Ny vy], z as [p'' Nz vz].
  cbn [Zp.prime Zp.precision Zp.value] in *. subst p' p''.
  assert (Hxy' : Zp.wf (Zp.mk p (Z.min Nx Ny) ((vx + vy) mod p ^ Z.min Nx Ny))) by (apply mk_wf; lia).
  assert (Hyz' : Zp.wf (Zp.mk p (Z.min Ny Nz) ((vy + vz) mod p ^ Z.min Ny Nz))) by (apply mk_wf; lia).
  assert (Mxy' : Zp.wf (Zp.mk p (Z.min Nx Ny) ((vx * vy) mod p ^ Z.min Nx Ny))) by (apply mk_wf; lia).
  assert (Mxz' : Zp.wf (Zp.mk p (Z.min Nx Nz) ((vx * vz) mod p ^ Z.min Nx Nz))) by (apply mk_wf; lia).
  assert (Myz' : Zp.wf (Zp.mk p (Z.min Ny Nz) ((vy * vz) mod p ^ Z.min Ny Nz))) by (apply mk_wf; lia).
  rewrite (add_ok _ _ Hx Hy eq_refl), (add_ok _ _ Hy Hx eq_refl),
    (mul_ok _ _ Hx Hy eq_refl), (mul_ok _ _ Hy Hx eq_refl),
    (add_ok _ _ Hy Hz eq_refl), (mul_ok _ _ Hy Hz eq_refl), (mul_ok _ _ Hx Hz eq_refl).
  cbn [Zp.prime Zp.precision Zp.value obind].
  rewrite (add_ok _ _ Hxy' Hz eq_refl), (add_ok _ _ Hx Hyz' eq_refl),
    (mul_ok _ _ Mxy' Hz eq_refl), (mul_ok _ _ Hx Myz' eq_refl),
    (mul_ok _ _ Hx Hyz' eq_refl), (add_ok _ _ Mxy' Mxz' eq_refl).
  cbn [Zp.prime Zp.precision Zp.value].
  rewrite (Z.min_comm Ny Nx), (Z.add_comm vy vx), (Z.mul_comm vy vx).
  split; [reflexivity |]. split; [reflexivity |].
  rewrite <- !Z.min_assoc.
  split; [| split].
  - f_equal. f_equal.
    rewrite add_mod_pow_l, add_mod_pow_r by lia. f_equal. ring.
  - f_equal. f_equal.
    rewrite mul_mod_pow_l, mul_mod_pow_r by lia. f_equal. ring.
  - replace (Z.min Nx (Z.min Ny (Z.min Nx Nz))) with (Z.min Nx (Z.min Ny Nz)) by lia.
    f_equal. f_equal.
    rewrite mul_mod_pow_r, add_mod_pow_l, add_mod_pow_r by lia. f_equal. ring.
Qed.

Lemma zp_ring_laws_witness :
  let x := Zp.mk 3 4 50 in
  let y := Zp.mk 3 2 7 in
  let z := Zp.mk 3 3 20 in
  (do s <- Zp.add y z; Zp.mul x s) =
    (do a <- Zp.mul x y; do b <- Zp.mul x z; Zp.add a b).
Proof.
  intros x y z.
  refine (proj2 (proj2 (proj2 (proj2 (zp_ring_laws x y z _ _ _ _ _)))));
    unfold Zp.wf; simpl; lia.
Defined.

(** X5: truncation commutes with the arithmetic: for M at most the
    precisions of x and y, (x op y).with_precision(M) is
    x.with_precision(M) op y.with_precision(M), for +, - and *. *)
Theorem with_precision_commutes (x y : Zp.t) (M : Z) :
  Zp.wf x -> Zp.wf y -> Zp.prime x = Zp.prime y ->
  1 <= M <= Z.min (Zp.precision x) (Zp.precision y) ->
  (do s <- Zp.add x y; Zp.with_precision s M) =
    (do x' <- Zp.with_precision x M; do y' <- Zp.with_precision y M; Zp.add x' y') /\
  (do s <- Zp.sub x y; Zp.with_precision s M) =
    (do x' <- Zp.with_precision x M; do y' <- Zp.with_precision y M; Zp.sub x' y') /\
  (do s <- Zp.mul x y; Zp.with_precision s M) =
    (do x' <- Zp.with_precision x M; do y' <- Zp.with_precision y M; Zp.mul x' y').
Proof.
  intros Hx Hy Hxy HM.
  pose proof Hx as (Hp & HNx & Hvx). pose proof Hy as (_ & HNy & Hvy).
  destruct x as [p Nx vx], y as [p' Ny vy].
  cbn [Zp.prime Zp.precision Zp.value] in *. subst p'.
  assert (HxM : Zp.wf (Zp.mk p M (vx mod p ^ M))) by (apply mk_wf; lia).
  assert (HyM : Zp.wf (Zp.mk p M (vy mod p ^ M))) by (apply mk_wf; lia).
  assert (Ha : Zp.wf (Zp.mk p (Z.min Nx Ny) ((vx + vy) mod p ^ Z.min Nx Ny))) by (apply mk_wf; lia).
  assert (Hs : Zp.wf (Zp.mk p (Z.min Nx Ny) ((vx - vy) mod p ^ Z.min Nx Ny))) by (apply mk_wf; lia).
  assert (Hm : Zp.wf (Zp.mk p (Z.min Nx Ny) ((vx * vy) mod p ^ Z.min Nx Ny))) by (apply mk_wf; lia).
  assert (HpM : p ^ M <> 0) by (apply Z.pow_nonzero; lia).
  rewrite (add_ok _ _ Hx Hy eq_refl), (sub_ok _ _ Hx Hy eq_refl), (mul_ok _ _ Hx Hy eq_refl).
  rewrite (with_precision_ok _ M Hx), (with_precision_ok _ M Hy) by lia.
  cbn [Zp.prime Zp.precision Zp.value obind].
  rewrite (with_precision_ok _ M Ha), (with_precision_ok _ M Hs), (with_precision_ok _ M Hm) by lia.
  rewrite (add_ok _ _ HxM HyM eq_refl), (sub_ok _ _ HxM HyM eq_refl), (mul_ok _ _ HxM HyM eq_refl).
  cbn [Zp.prime Zp.precision Zp.value]. rewrite Z.min_id.
  rewrite !mod_pow_le by lia.
  rewrite <- Z.add_mod, <- Zminus_mod, <- Z.mul_mod by lia.
  repeat split.
Qed.

Lemma with_precision_commutes_witness :
  let x := Zp.mk 3 4 50 in
  let y := Zp.mk 3 3 20 in
  (do s <- Zp.mul x y; Zp.with_precision s 2) =
    (do x' <- Zp.with_precision x 2; do y' <- Zp.with_precision y 2; Zp.mul x' y').
Proof.
  intros x y.
  refine (proj2 (proj2 (with_precision_commutes x y 2 _ _ _ _)));
    unfold Zp.wf; simpl; lia.
Defined.

(** X6: lift_precision never lowers the precision and keeps the value,
    and with_precision back to the old precision returns the original;
    truncating to M and then to M' <= M is truncating to M' at once;
    with_precision to the precision 0 raises invalid_argument. *)
Theorem precision_round_trip (x : Zp.t) (M M' : Z) :
  Zp.wf x ->
  (exists y, Zp.lift_precision x M = Ok y /\
             Zp.value y = Zp.value x /\
             Zp.precision y = Z.max (Zp.precision x) M /\
             Zp.with_precision y (Zp.precision x) = Ok x) /\
  (1 <= M' <= M ->
   (do y <- Zp.with_precision x M; Zp.with_precision y M') = Zp.with_precision x M') /\
  Zp.with_precision x 0 = Throw InvalidArgument.
Proof.
  intros Hx. pose proof Hx as (Hp & HN & Hv).
  destruct x as [p N v]. cbn [Zp.prime Zp.precision Zp.value] in *.
  assert (HpN : 0 < p ^ N) by (apply Z.pow_pos_nonneg; lia).
  split; [| split].
  - unfold Zp.lift_precision. cbn [Zp.prime Zp.precision Zp.value].
    destruct (Z.leb_spec M N) as [Hle | Hlt].
    + exists (Zp.mk p N v). cbn [Zp.prime Zp.precision Zp.value].
      split; [reflexivity |]. split; [reflexivity |]. split; [lia |].
      rewrite (with_precision_ok _ N Hx) by lia. cbn [Zp.prime Zp.precision Zp.value].
      rewrite Z.mod_small by lia. reflexivity.
    + rewrite make_ok by lia.
      assert (Hsmall : v mod p ^ M = v).
      { apply Z.mod_small. split; [lia |].
        apply Z.lt_le_trans with (p ^ N); [lia |]. apply Z.pow_le_mono_r; lia. }
      rewrite Hsmall. eexists. split; [reflexivity |].
      cbn [Zp.prime Zp.precision Zp.value].
      split; [reflexivity |]. split; [lia |].
      assert (Hy : Zp.wf (Zp.mk p M v)) by (rewrite <- Hsmall; apply mk_wf; lia).
      rewrite (with_precision_ok _ N Hy) by lia. cbn [Zp.prime Zp.precision Zp.value].
      rewrite Z.mod_small by lia. reflexivity.
  - intros HM. rewrite (with_precision_ok _ M Hx) by lia.
    cbn [obind Zp.prime Zp.precision Zp.value].
    assert (Hy : Zp.wf (Zp.mk p M (v mod p ^ M))) by (apply mk_wf; lia).
    rewrite (with_precision_ok _ M' Hy), (with_precision_ok _ M' Hx) by lia.
    cbn [Zp.prime Zp.precision Zp.value]. rewrite mod_pow_le by lia. reflexivity.
  - unfold Zp.with_precision, Zp.make. cbn [Zp.prime Zp.precision Zp.value].
    destruct (Z.ltb_spec 0 N); [| lia].
    destruct (Z.ltb_spec p 2); [lia | reflexivity].
Qed.

Lemma precision_round_trip_witness :
  exists y, Zp.lift_precision (Zp.mk 5 2 7) 4 = Ok y /\
            Zp.precision y = 4 /\
            Zp.with_precision y 2 = Ok (Zp.mk 5 2 7).
Proof.
  destruct (precision_round_trip (Zp.mk 5 2 7) 4 1) as [(y & Hl & _ & Hp & Hw) _].
  - unfold Zp.wf; simpl; lia.
  - exists y. split; [exact Hl |]. split; [exact Hp | exact Hw].
Defined.

End ZpRing.

(** ** Zp: equality, powers, digits *)

Section ZpEqualityPowersDigits.

Lemma eqb_spec_wf (x y : Zp.t) :
  Zp.wf x -> Zp.wf y ->
  Zp.eqb x y = true <->
  Zp.prime x = Zp.prime y /\
  Zp.value x mod Zp.prime x ^ Z.min (Zp.precision x) (Zp.precision y)
  = Zp.value y mod Zp.prime x ^ Z.min (Zp.precision x) (Zp.precision y).
Proof.
  intros (Hp & HN & Hv) (Hp' & HN' & Hv'). unfold Zp.eqb, BigInt.rem, BigInt.pow.
  assert (0 < Zp.prime x ^ Z.min (Zp.precision x) (Zp.precision y))
    by (apply Z.pow_pos_nonneg; lia).
  destruct (Z.eqb_spec (Zp.prime x) (Zp.prime y)) as [Heq | Hne]; cbn [negb].
  - rewrite !Z.rem_mod_nonneg by lia. rewrite Z.eqb_eq. tauto.
  - split; [discriminate | tauto].
Qed.

(** X7: operator== compares at the smaller of the two precisions: it
    is reflexive and symmetric, every value equals each of its
    truncations, and at equal precisions it is equality of the records. *)
Theorem eqb_at_common_precision (x y : Zp.t) (M : Z) :
  Zp.wf x -> Zp.wf y -> 1 <= M ->
  Zp.eqb x x = true /\
  Zp.eqb x y = Zp.eqb y x /\
  (exists x', Zp.with_precision x M = Ok x' /\ Zp.eqb x x' = true) /\
  (Zp.precision x = Zp.precision y -> Zp.eqb x y = true -> x = y).
Proof.
  intros Hx Hy HM. pose proof Hx as (Hp & HN & Hv). pose proof Hy as (Hp' & HN' & Hv').
  split; [| split; [| split]].
  - apply eqb_spec_wf; auto.
  - destruct (Zp.eqb y x) eqn:E.
    + apply eqb_spec_wf in E; auto. apply eqb_spec_wf; auto.
      destruct E as [E1 E2]. rewrite E1, Z.min_comm in E2. split; congruence.
    + destruct (Zp.eqb x y) eqn:E'; [| reflexivity].
      apply eqb_spec_wf in E'; auto.
      assert (Zp.eqb y x = true); [| congruence].
      apply eqb_spec_wf; auto.
      destruct E' as [E1 E2]. rewrite E1, Z.min_comm in E2. split; congruence.
  - eexists. split; [apply with_precision_ok; assumption |].
    apply eqb_spec_wf; [assumption | apply mk_wf; lia |].
    cbn [Zp.prime Zp.precision Zp.value]. split; [reflexivity |].
    rewrite mod_pow_le by lia. reflexivity.
  - intros HNN E. apply eqb_spec_wf in E; auto. destruct E as [E1 E2].
    rewrite <- HNN, Z.min_id in E2.
    rewrite (Z.mod_small (Zp.value x)) in E2 by lia.
    rewrite E1, HNN, (Z.mod_small (Zp.value y)) in E2 by lia.
    destruct x, y; simpl in *; congruence.
Qed.

Lemma eqb_at_common_precision_witness :
  exists x', Zp.with_precision (Zp.mk 2 3 5) 1 = Ok x' /\ Zp.eqb (Zp.mk 2 3 5) x' = true.
Proof.
  apply (eqb_at_common_precision (Zp.mk 2 3 5) (Zp.mk 2 3 5) 1);
    unfold Zp.wf; simpl; lia.
Defined.

(** operator== is not transitive across precisions. *)
Example eqb_not_transitive :
  let x := Zp.mk 2 3 1 in
  let y := Zp.mk 2 1 1 in
  let z := Zp.mk 2 3 3 in
  Zp.wf x /\ Zp.wf y /\ Zp.wf z /\
  Zp.eqb x y = true /\ Zp.eqb y z = true /\ Zp.eqb x z = false.
Proof. unfold Zp.wf; simpl. repeat split; lia. Qed.

Lemma pow_ok (x : Zp.t) (e : Z) :
  Zp.wf x ->
  Zp.pow x e = Ok (Zp.mk (Zp.prime x) (Zp.precision x)
                         ((Zp.value x ^ e) mod Zp.prime x ^ Zp.precision x)).
Proof.
  intros (Hp & HN & Hv). unfold Zp.pow, BigInt.pow_mod, BigInt.pow.
  rewrite make_ok by lia. rewrite Z.mod_mod by (apply Z.pow_nonzero; lia). reflexivity.
Qed.

(** X8: pow obeys the exponent laws for non-negative exponents:
    x^0 is one, x^1 is x, x^a * x^b = x^(a+b) and (x^a)^b = x^(a*b), all at
    the precision of x. *)
Theorem pow_laws (x : Zp.t) (a b : Z) :
  Zp.wf x -> 0 <= a -> 0 <= b ->
  Zp.pow x 0 = Zp.make (Zp.prime x) (Zp.precision x) 1 /\
  Zp.pow x 1 = Ok x /\
  (do u <- Zp.pow x a; do v <- Zp.pow x b; Zp.mul u v) = Zp.pow x (a + b) /\
  (do u <- Zp.pow x a; Zp.pow u b) = Zp.pow x (a * b).
Proof.
  intros Hx Ha Hb. pose proof Hx as (Hp & HN & Hv).
  destruct x as [p N v]. cbn [Zp.prime Zp.precision Zp.value] in *.
  assert (HpN : p ^ N <> 0) by (apply Z.pow_nonzero; lia).
  assert (Hu : forall e, Zp.wf (Zp.mk p N ((v ^ e) mod p ^ N))) by (intros; apply mk_wf; lia).
  rewrite !(pow_ok _ _ Hx). cbn [Zp.prime Zp.precision Zp.value obind].
  split; [| split; [| split]].
  - rewrite make_ok by lia. rewrite Z.pow_0_r. reflexivity.
  - rewrite Z.pow_1_r, Z.mod_small by lia. reflexivity.
  - rewrite (mul_ok _ _ (Hu a) (Hu b) eq_refl). cbn [Zp.prime Zp.precision Zp.value].
    rewrite Z.min_id, <- Z.mul_mod, Z.pow_add_r by lia. reflexivity.
  - rewrite (pow_ok _ _ (Hu a)). cbn [Zp.prime Zp.precision Zp.value].
    rewrite Z.mod_pow_l, <- Z.pow_mul_r by lia. reflexivity.
Qed.

Lemma pow_laws_witness :
  (do u <- Zp.pow (Zp.mk 7 3 10) 4; do v <- Zp.pow (Zp.mk 7 3 10) 5; Zp.mul u v)
  = Zp.pow (Zp.mk 7 3 10) 9.
Proof.
  refine (proj1 (proj2 (proj2 (pow_laws (Zp.mk 7 3 10) 4 5 _ _ _))));
    unfold Zp.wf; simpl; lia.
Defined.

Lemma digits_loop_spec (steps : nat) (temp p : Z) :
  2 <= p -> 0 <= temp ->
  length (Zp.digits_loop steps temp p) = steps /\
  Forall (fun d => 0 <= d < p) (Zp.digits_loop steps temp p) /\
  digits_value p (Zp.digits_loop steps temp p) = temp mod p ^ Z.of_nat steps.
Proof.
  intros Hp. revert temp. induction steps as [| steps IH]; intros temp Ht.
  - simpl. rewrite Z.mod_1_r. repeat split; constructor.
  - cbn [Zp.digits_loop]. unfold BigInt.rem, BigInt.quot.
    rewrite Z.rem_mod_nonneg, Z.quot_div_nonneg by lia.
    destruct (IH (temp / p)) as (Hlen & Hall & Hval).
    { apply Z.div_pos; lia. }
    split; [simpl; congruence |]. split.
    + constructor; [apply Z.mod_pos_bound; lia | exact Hall].
    + cbn [digits_value fold_right]. fold (digits_value p (Zp.digits_loop steps (temp / p) p)).
      rewrite Hval. rewrite Nat2Z.inj_succ, Z.pow_succ_r by lia.
      rewrite Z.rem_mul_r by (try lia; apply Z.pow_pos_nonneg; lia). reflexivity.
Qed.

(** X10: p_adic_digits returns exactly N digits, each in [0, p), and
    d_0 + d_1 p + d_2 p^2 + ... is the value again. *)
Theorem p_adic_digits_round_trip (x : Zp.t) :
  Zp.wf x ->
  Z.of_nat (length (Zp.p_adic_digits x)) = Zp.precision x /\
  Forall (fun d => 0 <= d < Zp.prime x) (Zp.p_adic_digits x) /\
  digits_value (Zp.prime x) (Zp.p_adic_digits x) = Zp.value x.
Proof.
  intros (Hp & HN & Hv). unfold Zp.p_adic_digits.
  destruct (digits_loop_spec (Z.to_nat (Zp.precision x)) (Zp.value x) (Zp.prime x))
    as (Hlen & Hall & Hval); [lia | lia |].
  split; [rewrite Hlen; lia |]. split; [exact Hall |].
  rewrite Hval, Z2Nat.id by lia. apply Z.mod_small. exact Hv.
Qed.

Lemma p_adic_digits_round_trip_witness :
  Zp.p_adic_digits (Zp.mk 5 3 117) = [2; 3; 4] /\
  digits_value 5 (Zp.p_adic_digits (Zp.mk 5 3 117)) = 117.
Proof.
  split; [reflexivity |].
  apply (p_adic_digits_round_trip (Zp.mk 5 3 117)). unfold Zp.wf; simpl; lia.
Defined.

End ZpEqualityPowersDigits.

(** ** Zp: valuation and units *)

Section ZpUnits.

Lemma is_divisible_by_spec (a p : Z) :
  2 <= p -> BigInt.is_divisible_by a p = true <-> (p | a).
Proof. intros Hp. exact (divisible_by_spec p a Hp). Qed.

Lemma is_unit_spec (x : Zp.t) :
  2 <= Zp.prime x -> Zp.is_unit x = true <-> ~ (Zp.prime x | Zp.value x).
Proof.
  intros Hp. unfold Zp.is_unit. rewrite negb_true_iff, <- not_true_iff_false.
  rewrite is_divisible_by_spec by lia. tauto.
Qed.

Lemma divide_mod_pow (p a N : Z) :
  2 <= p -> 1 <= N -> (p | a mod p ^ N) <-> (p | a).
Proof.
  intros Hp HN.
  assert (Hd : (p | p ^ N)).
  { exists (p ^ (N - 1)). rewrite Z.mul_comm, <- Z.pow_succ_r by lia. f_equal. lia. }
  assert (HpN : p ^ N <> 0) by (apply Z.pow_nonzero; lia).
  pose proof (Z.div_mod a (p ^ N) HpN) as E.
  split; intros H.
  - rewrite E. apply Z.divide_add_r; [| exact H]. apply Z.divide_mul_l. exact Hd.
  - replace (a mod p ^ N) with (a - p ^ N * (a / p ^ N)) by lia.
    apply Z.divide_sub_r; [exact H |]. apply Z.divide_mul_l. exact Hd.
Qed.

Lemma valuation_facts (x : Zp.t) :
  Zp.wf x ->
  let v := Zp.valuation x in
  0 <= v <= Zp.precision x /\
  (v = Zp.precision x <-> Zp.value x = 0) /\
  (Zp.prime x ^ v | Zp.value x) /\
  (Zp.value x <> 0 -> ~ (Zp.prime x ^ (v + 1) | Zp.value x)) /\
  Zp.is_unit x = (v =? 0).
Proof.
  intros (Hp & HN & Hv) v. subst v. unfold Zp.valuation, Zp.is_zero, BigInt.is_zero.
  destruct (Z.eqb_spec (Zp.value x) 0) as [Hz | Hnz].
  - split; [lia |]. split; [tauto |]. split; [rewrite Hz; apply Z.divide_0_r |].
    split; [tauto |].
    destruct (Z.eqb_spec (Zp.precision x) 0); [lia |].
    apply not_true_iff_false. rewrite is_unit_spec by lia. rewrite Hz.
    intros H; apply H. apply Z.divide_0_r.
  - destruct (p_adic_valuation_spec (Zp.value x) (Zp.prime x) Hp Hnz) as (Hk & m & Hm & Hnd).
    set (k := ModularArith.p_adic_valuation (Zp.value x) (Zp.prime x)) in *.
    assert (Hpk : 0 < Zp.prime x ^ k) by (apply Z.pow_pos_nonneg; lia).
    assert (Hmpos : 0 < m) by nia.
    assert (Hlt : k < Zp.precision x).
    { apply (Z.pow_lt_mono_r_iff (Zp.prime x)); [lia | lia | nia]. }
    split; [lia |]. split; [split; [lia | tauto] |].
    split; [exists m; lia |]. split.
    + intros _ [c Hc]. apply Hnd. exists c.
      rewrite Z.pow_add_r, Z.pow_1_r in Hc by lia. nia.
    + destruct (Z.eqb_spec k 0) as [Hk0 | Hk0].
      * apply is_unit_spec; [lia |]. rewrite Hm, Hk0, Z.pow_0_r, Z.mul_1_l. exact Hnd.
      * apply not_true_iff_false. rewrite is_unit_spec by lia.
        intros H; apply H. rewrite Hm. apply Z.divide_mul_l.
        exists (Zp.prime x ^ (k - 1)). rewrite Z.mul_comm, <- Z.pow_succ_r by lia. f_equal. lia.
Qed.

(** X9: valuation() is the exact power of p in the value, and the
    precision N for zero, so x is a unit exactly when it is 0; unit_part()
    divides that power out: a nonzero x is p^v times its unit part, which
    is a unit kept at precision N - v, and zero is returned unchanged. *)
Theorem valuation_and_unit_part (x : Zp.t) :
  Zp.wf x ->
  let v := Zp.valuation x in
  0 <= v <= Zp.precision x /\
  (v = Zp.precision x <-> Zp.value x = 0) /\
  Zp.is_unit x = (v =? 0) /\
  exists u,
    Zp.unit_part x = Ok u /\ Zp.wf u /\
    (Zp.value x = 0 -> u = x) /\
    (Zp.value x <> 0 ->
     Zp.is_unit u = true /\
     Zp.value x = Zp.prime x ^ v * Zp.value u /\
     Zp.prime u = Zp.prime x /\
     Zp.precision u = Zp.precision x - v).
Proof.
  intros Hx v. pose proof Hx as (Hp & HN & Hv).
  destruct (valuation_facts x Hx) as (Hr & Hiff & Hdiv & Hmax & Hunit). fold v in Hr, Hiff, Hdiv, Hmax, Hunit.
  split; [exact Hr |]. split; [exact Hiff |]. split; [exact Hunit |].
  unfold Zp.unit_part. fold v.
  destruct (Zp.is_zero x) eqn:Hz.
  - exists x. unfold Zp.is_zero, BigInt.is_zero in Hz. apply Z.eqb_eq in Hz.
    split; [reflexivity |]. split; [exact Hx |]. split; [reflexivity | tauto].
  - unfold Zp.is_zero, BigInt.is_zero in Hz. apply Z.eqb_neq in Hz.
    specialize (Hmax Hz).
    destruct (Z.eqb_spec v 0) as [H0 | H0].
    + exists x. split; [reflexivity |]. split; [exact Hx |]. split; [tauto |].
      intros _. rewrite H0, Z.pow_0_r, Z.mul_1_l, Z.sub_0_r. repeat split. exact Hunit.
    + assert (Hk : v < Zp.precision x) by (destruct Hiff; lia).
      assert (Hpk : 0 < Zp.prime x ^ v) by (apply Z.pow_pos_nonneg; lia).
      destruct Hdiv as [m Hm].
      unfold BigInt.quot, BigInt.pow.
      rewrite Z.quot_div_nonneg by lia.
      assert (Hq : Zp.value x / Zp.prime x ^ v = m).
      { rewrite Hm. apply Z.div_mul. lia. }
      rewrite Hq.
      assert (Hmr : 0 <= m < Zp.prime x ^ (Zp.precision x - v)).
      { split; [nia |].
        replace (Zp.precision x) with (v + (Zp.precision x - v)) in Hv at 1 by lia.
        rewrite Z.pow_add_r in Hv by lia. nia. }
      rewrite make_ok by lia. rewrite Z.mod_small by exact Hmr.
      eexists. split; [reflexivity |]. split.
      { unfold Zp.wf; cbn [Zp.prime Zp.precision Zp.value]. lia. }
      split; [tauto |]. intros _. cbn [Zp.prime Zp.precision Zp.value].
      split; [| split; [lia | tauto]].
      apply (is_unit_spec (Zp.mk _ _ _)); cbn [Zp.prime Zp.value]; [lia |].
      intros [c Hc]. apply Hmax. exists c.
      rewrite Z.pow_add_r, Z.pow_1_r by lia. nia.
Qed.

Lemma valuation_and_unit_part_witness :
  let x := Zp.mk 3 4 54 in
  Zp.valuation x = 3 /\ exists u, Zp.unit_part x = Ok u /\ u = Zp.mk 3 1 2.
Proof.
  intros x. split; [reflexivity |].
  destruct (valuation_and_unit_part x) as (_ & _ & _ & u & Hu & _).
  - unfold Zp.wf; simpl; lia.
  - exists u. split; [exact Hu |]. vm_compute in Hu. congruence.
Defined.

(** X4: over a prime p a product is a unit exactly when both factors
    are: is_unit(x * y) = is_unit(x) && is_unit(y). *)
Theorem units_closed_under_mul (x y z : Zp.t) :
  Z.prime (Zp.prime x) -> Zp.wf x -> Zp.wf y -> Zp.prime x = Zp.prime y ->
  Zp.mul x y = Ok z ->
  Zp.is_unit z = Zp.is_unit x && Zp.is_unit y.
Proof.
  intros Hprime Hx Hy Hpp Hmul. pose proof Hx as (Hp & HN & Hv). pose proof Hy as (_ & HN' & Hv').
  rewrite (mul_ok _ _ Hx Hy Hpp) in Hmul. injection Hmul as <-.
  apply eq_true_iff_eq. rewrite andb_true_iff.
  rewrite !is_unit_spec by (cbn [Zp.prime]; lia). cbn [Zp.prime Zp.value].
  rewrite <- Hpp. rewrite divide_mod_pow by lia.
  split.
  - intros H. split; intros Hd; apply H.
    + apply Z.divide_mul_l. exact Hd.
    + apply Z.divide_mul_r. exact Hd.
  - intros [Ha Hb] Hd. apply Z.divide_prime_mul in Hd; [tauto | exact Hprime].
Qed.

Lemma units_closed_under_mul_witness :
  exists z, Zp.mul (Zp.mk 5 3 7) (Zp.mk 5 2 10) = Ok z /\ Zp.is_unit z = false.
Proof.
  exists (Zp.mk 5 2 20). split; [reflexivity |].
  refine (units_closed_under_mul (Zp.mk 5 3 7) (Zp.mk 5 2 10) _ _ _ _ _ _).
  - split; [simpl; lia |]. intros n Hn [c Hc]. simpl in Hn, Hc.
    assert (n = 2 \/ n = 3 \/ n = 4) as [-> | [-> | ->]] by lia; lia.
  - unfold Zp.wf; simpl; lia.
  - unfold Zp.wf; simpl; lia.
  - reflexivity.
  - reflexivity.
Defined.

End ZpUnits.

(** ** Zp: division, from_rational, the 2-adic square root *)

Section ZpDivision.

Lemma prime_5 : Z.prime 5.
Proof.
  split; [lia |]. intros n Hn [c Hc].
  assert (n = 2 \/ n = 3 \/ n = 4) as [-> | [-> | ->]] by lia; lia.
Qed.

Lemma unit_coprime_pow (p v N : Z) :
  Z.prime p -> 0 <= N -> ~ (p | v) -> Z.gcd v (p ^ N) = 1.
Proof.
  intros Hprime HN Hnd. apply Z.coprime_pow_r; [lia |].
  unfold Z.coprime. rewrite Z.gcd_comm. apply Z.coprime_prime_l; assumption.
Qed.

(** X3: over a prime p, x / y raises a domain error exactly when y is
    not a unit (zero included); when y is a unit the quotient q exists at
    precision min(N_x, N_y) and q * y compares equal to x. *)
Theorem div_cancels (x y : Zp.t) :
  Z.prime (Zp.prime x) -> Zp.wf x -> Zp.wf y -> Zp.prime x = Zp.prime y ->
  (Zp.is_unit y = false -> Zp.div x y = Throw DomainError) /\
  (Zp.is_unit y = true ->
   exists q z,
     Zp.div x y = Ok q /\ Zp.wf q /\
     Zp.precision q = Z.min (Zp.precision x) (Zp.precision y) /\
     Zp.mul q y = Ok z /\ Zp.eqb z x = true).
Proof.
  intros Hprime Hx Hy Hpp.
  pose proof Hx as (Hp & HN & Hv). pose proof Hy as (_ & HN' & Hv').
  unfold Zp.div. rewrite Hpp, Z.eqb_refl. cbn [negb]. rewrite <- Hpp.
  unfold Zp.is_zero, BigInt.is_zero, Zp.is_unit. rewrite <- Hpp.
  split.
  - intros Hu. apply negb_false_iff in Hu. rewrite Hu.
    destruct (Zp.value y =? 0); reflexivity.
  - intros Hu. apply negb_true_iff in Hu. rewrite Hu.
    assert (Hnd : ~ (Zp.prime x | Zp.value y)).
    { rewrite <- is_divisible_by_spec by lia. congruence. }
    destruct (Z.eqb_spec (Zp.value y) 0) as [Hz | Hnz].
    { exfalso. apply Hnd. rewrite Hz. apply Z.divide_0_r. }
    set (M := Z.min (Zp.precision x) (Zp.precision y)).
    assert (HM : 1 <= M) by (subst M; lia).
    assert (HpM : 2 <= Zp.prime x ^ M) by (apply pow_ge_2; lia).
    destruct (mod_inverse_coprime (Zp.value y) (Zp.prime x ^ M)) as (inv & Hinv & Hone);
      [lia | apply unit_coprime_pow; [assumption | lia | assumption] |].
    unfold BigInt.pow. rewrite Hinv. unfold BigInt.rem.
    rewrite make_ok by lia. rewrite rem_then_mod by lia.
    assert (Hq : Zp.wf (Zp.mk (Zp.prime x) M ((Zp.value x * inv) mod Zp.prime x ^ M)))
      by (apply mk_wf; lia).
    eexists. eexists. split; [reflexivity |]. split; [exact Hq |].
    split; [reflexivity |]. split.
    + rewrite (mul_ok _ _ Hq Hy Hpp). reflexivity.
    + apply eqb_spec_wf; [apply mk_wf; cbn [Zp.prime Zp.precision]; lia | exact Hx |].
      cbn [Zp.prime Zp.precision Zp.value]. split; [reflexivity |].
      replace (Z.min (Z.min M (Zp.precision y)) (Zp.precision x)) with M by (subst M; lia).
      replace (Z.min M (Zp.precision y)) with M by (subst M; lia).
      rewrite Z.mod_mod by lia.
      rewrite Z.mul_mod_idemp_l by lia.
      rewrite <- Z.mul_assoc, <- Z.mul_mod_idemp_r, Hone, Z.mul_1_r by lia. reflexivity.
Qed.

Lemma div_cancels_witness :
  exists q z, Zp.div (Zp.mk 5 3 7) (Zp.mk 5 2 3) = Ok q /\
              Zp.mul q (Zp.mk 5 2 3) = Ok z /\ Zp.eqb z (Zp.mk 5 3 7) = true.
Proof.
  destruct (div_cancels (Zp.mk 5 3 7) (Zp.mk 5 2 3)) as [_ H].
  - exact prime_5.
  - unfold Zp.wf; simpl; lia.
  - unfold Zp.wf; simpl; lia.
  - reflexivity.
  - destruct (H eq_refl) as (q & z & Hd & _ & _ & Hm & He).
    exists q, z. split; [exact Hd |]. split; [exact Hm | exact He].
Defined.

Lemma strip_prime_abs_one (fuel : nat) (den p : Z) :
  2 <= p -> Z.abs den = 1 -> Zp.strip_prime fuel den p = Some den.
Proof.
  intros Hp Ha.
  assert (Hnd : BigInt.is_divisible_by den p = false).
  { apply not_true_iff_false. rewrite is_divisible_by_spec by lia.
    intros Hd. apply Z.divide_abs_r in Hd. rewrite Ha in Hd.
    apply Z.divide_1_r_nonneg in Hd; lia. }
  destruct fuel; simpl; rewrite Hnd; reflexivity.
Qed.

Lemma strip_prime_stable (f1 f2 : nat) (den p : Z) :
  2 <= p -> den <> 0 ->
  Z.abs den < 2 ^ (Z.of_nat f1 + 1) -> Z.abs den < 2 ^ (Z.of_nat f2 + 1) ->
  Zp.strip_prime f1 den p = Zp.strip_prime f2 den p.
Proof.
  intros Hp. revert f2 den. induction f1 as [| f1 IH]; intros f2 den Hnz H1 H2.
  - assert (Ha : Z.abs den = 1) by (simpl in H1; lia).
    rewrite !(strip_prime_abs_one _ _ _ Hp Ha). reflexivity.
  - destruct f2 as [| f2].
    + assert (Ha : Z.abs den = 1) by (simpl in H2; lia).
      rewrite !(strip_prime_abs_one _ _ _ Hp Ha). reflexivity.
    + cbn [Zp.strip_prime].
      destruct (BigInt.is_divisible_by den p) eqn:Hd; [| reflexivity].
      apply is_divisible_by_spec in Hd; [| lia]. destruct Hd as [c Hc].
      unfold BigInt.quot. rewrite Hc, Z.quot_mul by lia.
      assert (Hc0 : c <> 0) by (intros ->; lia).
      assert (Hhalf : 2 * Z.abs c <= Z.abs den).
      { rewrite Hc, Z.abs_mul, (Z.abs_eq p) by lia.
        pose proof (Z.abs_nonneg c). nia. }
      rewrite Nat2Z.inj_succ in H1, H2.
      replace (Z.succ (Z.of_nat f1) + 1) with (Z.succ (Z.of_nat f1 + 1)) in H1 by lia.
      replace (Z.succ (Z.of_nat f2) + 1) with (Z.succ (Z.of_nat f2 + 1)) in H2 by lia.
      rewrite Z.pow_succ_r in H1, H2 by lia.
      apply IH; [exact Hc0 | lia | lia].
Qed.

Lemma log2_fuel_enough (n : Z) :
  n <> 0 -> Z.abs n < 2 ^ (Z.of_nat (S (Z.to_nat (Z.log2 (Z.abs n)))) + 1).
Proof.
  intros Hn. pose proof (Z.log2_nonneg (Z.abs n)).
  rewrite Nat2Z.inj_succ, Z2Nat.id by lia.
  destruct (Z.log2_spec (Z.abs n)) as [_ Hlt]; [lia |].
  apply Z.lt_trans with (2 ^ Z.succ (Z.log2 (Z.abs n))); [exact Hlt |].
  apply Z.pow_lt_mono_r; lia.
Qed.

(** X11: from_rational drops every factor p of the denominator without
    changing the valuation: from_rational(a, b * p, p, N) is
    from_rational(a, b, p, N) for every b <> 0. *)
Theorem from_rational_ignores_prime_factor (a b p N : Z) :
  2 <= p -> b <> 0 ->
  Zp.from_rational a (b * p) p N = Zp.from_rational a b p N.
Proof.
  intros Hp Hb. unfold Zp.from_rational.
  assert (Hbp : b * p <> 0) by nia.
  destruct (Z.eqb_spec (b * p) 0); [contradiction |].
  destruct (Z.eqb_spec b 0); [contradiction |].
  cbn [Zp.strip_prime].
  assert (Hd : BigInt.is_divisible_by (b * p) p = true).
  { apply is_divisible_by_spec; [lia |]. exists b. reflexivity. }
  rewrite Hd. unfold BigInt.quot at 1. rewrite Z.quot_mul by lia.
  rewrite (strip_prime_stable _ (S (Z.to_nat (Z.log2 (Z.abs b)))) b p Hp Hb).
  - reflexivity.
  - pose proof (log2_fuel_enough (b * p) Hbp) as H.
    rewrite Nat2Z.inj_succ in H.
    replace (Z.succ (Z.of_nat (Z.to_nat (Z.log2 (Z.abs (b * p))))) + 1)
      with (Z.succ (Z.of_nat (Z.to_nat (Z.log2 (Z.abs (b * p)))) + 1)) in H by lia.
    rewrite Z.pow_succ_r in H by lia.
    assert (2 * Z.abs b <= Z.abs (b * p)); [| lia].
    rewrite Z.abs_mul, (Z.abs_eq p) by lia. pose proof (Z.abs_nonneg b). nia.
  - apply log2_fuel_enough. exact Hb.
Qed.

Lemma from_rational_ignores_prime_factor_witness :
  Zp.from_rational 1 (3 * 5) 5 4 = Zp.from_rational 1 3 5 4.
Proof. apply from_rational_ignores_prime_factor; lia. Defined.

(** X12: for a denominator coprime to p, from_rational(a, b, p, N) is
    the quotient Zp(p, N, a) / Zp(p, N, b). *)
Theorem from_rational_is_div (a b p N : Z) :
  2 <= p -> 1 <= N -> Z.gcd b p = 1 ->
  Zp.from_rational a b p N =
    (do za <- Zp.make p N a; do zb <- Zp.make p N b; Zp.div za zb).
Proof.
  intros Hp HN Hg.
  assert (HpN : 2 <= p ^ N) by (apply pow_ge_2; lia).
  assert (Hb0 : b <> 0).
  { intros ->. rewrite Z.gcd_0_l_nonneg in Hg by lia. lia. }
  assert (Hgn : Z.gcd b (p ^ N) = 1) by (apply Z.coprime_pow_r; [lia | exact Hg]).
  assert (Hgm : Z.gcd (b mod p ^ N) (p ^ N) = 1).
  { rewrite gcd_normalized by lia. exact Hgn. }
  unfold Zp.from_rational.
  destruct (Z.eqb_spec b 0); [contradiction |].
  rewrite strip_prime_coprime by assumption.
  rewrite !make_ok by lia. cbn [obind].
  unfold Zp.div. cbn [Zp.prime Zp.precision Zp.value]. rewrite Z.eqb_refl. cbn [negb].
  unfold Zp.is_zero, BigInt.is_zero. cbn [Zp.value].
  assert (Hnd : ~ (p | b mod p ^ N)).
  { rewrite divide_mod_pow by lia. intros Hd.
    assert (Hdd : (p | Z.gcd b p)) by (apply Z.gcd_greatest; [exact Hd | apply Z.divide_refl]).
    rewrite Hg in Hdd. apply Z.divide_1_r_nonneg in Hdd; lia. }
  destruct (Z.eqb_spec (b mod p ^ N) 0) as [Hz | Hnz].
  { exfalso. apply Hnd. rewrite Hz. apply Z.divide_0_r. }
  destruct (BigInt.is_divisible_by (b mod p ^ N) p) eqn:Hdiv.
  { exfalso. apply Hnd. apply is_divisible_by_spec; [lia | exact Hdiv]. }
  rewrite Z.min_id. unfold BigInt.mod_inverse, BigInt.pow.
  rewrite Hgn, Hgm. cbn [Z.eqb Pos.eqb]. rewrite Z.invmod_mod_l.
  unfold BigInt.rem. unfold Zp.make.
  destruct (Z.ltb_spec p 2); [lia |]. destruct (Z.ltb_spec N 1); [lia |].
  rewrite !normalize_mod by lia. rewrite !rem_then_mod by lia.
  rewrite Z.mul_mod_idemp_l by lia. reflexivity.
Qed.

Lemma from_rational_is_div_witness :
  Zp.from_rational (-1) 2 5 3 =
    (do za <- Zp.make 5 3 (-1); do zb <- Zp.make 5 3 2; Zp.div za zb).
Proof. apply from_rational_is_div; [lia | lia | reflexivity]. Defined.

Lemma hensel_two_outcome (steps : nat) (k root v : Z) :
  Zp.hensel steps k root v 2 = Ok root \/ Zp.hensel steps k root v 2 = Throw NoInverse.
Proof.
  revert k. induction steps as [| steps IH]; intros k.
  - left. reflexivity.
  - cbn [Zp.hensel].
    destruct (negb (BigInt.is_zero (BigInt.rem (root * root - v) (BigInt.pow 2 k * 2)))).
    + right.
      assert (Hnone : BigInt.mod_inverse (2 * root) 2 = None).
      { unfold BigInt.mod_inverse. rewrite Z.gcd_comm, Z.gcd_mul_diag_l by lia. reflexivity. }
      rewrite Hnone. reflexivity.
    + apply IH.
Qed.

(** X14: for p = 2, sqrt raises a domain error unless x = 1 modulo 8,
    returns x itself when x is 1, and on every other x = 1 modulo 8 fails
    in the inverse of 2 * root modulo 2. *)
Theorem sqrt_two_adic_outcome (fuel : nat) (x : Zp.t) :
  Zp.wf x -> Zp.prime x = 2 ->
  Zp.sqrt fuel x =
    if negb (Zp.value x mod 8 =? 1) then Throw DomainError
    else if Zp.value x =? 1 then Ok x
    else Throw NoInverse.
Proof.
  destruct x as [p N v]. intros (_ & HN & Hv) H2. simpl in HN, Hv, H2. subst p.
  unfold Zp.sqrt. cbn [Zp.prime Zp.precision Zp.value].
  change (2 =? 2) with true. cbv iota. unfold BigInt.rem.
  rewrite Z.rem_mod_nonneg by lia.
  destruct (Z.eqb_spec (v mod 8) 1) as [H8 | H8]; cbn [negb].
  - assert (Hu : Zp.is_unit (Zp.mk 2 N v) = true).
    { apply (is_unit_spec (Zp.mk 2 N v)); cbn [Zp.prime Zp.value]; [lia |].
      intros [c Hc]. pose proof (Z.div_mod v 8 ltac:(lia)). lia. }
    rewrite Hu. cbn [negb obind].
    assert (Hpp : 2 <= 2 ^ N) by (apply pow_ge_2; lia).
    destruct (hensel_two_outcome (Z.to_nat (N - 1)) 1 1 v) as [Hh | Hh].
    + pose proof Hh as Hh'. apply hensel_spec in Hh'; [| lia | lia |].
      * replace (1 + Z.of_nat (Z.to_nat (N - 1))) with N in Hh' by lia.
        destruct Hh' as [c Hc].
        assert (c = 0) by nia. subst c.
        assert (v = 1) by lia. subst v.
        rewrite Hh. cbn [obind]. rewrite make_ok by lia.
        rewrite Z.mod_1_l by lia. reflexivity.
      * exists (- (v / 8) * 4). pose proof (Z.div_mod v 8 ltac:(lia)). lia.
    + rewrite Hh. cbn [obind].
      destruct (Z.eqb_spec v 1) as [-> | Hne]; [| reflexivity].
      exfalso. clear -Hh.
      assert (H : forall steps k, Zp.hensel steps k 1 1 2 = Ok 1).
      { induction steps as [| steps IH]; intros k; [reflexivity |].
        cbn [Zp.hensel]. unfold BigInt.rem.
        change (Z.rem (1 * 1 - 1) (BigInt.pow 2 k * 2)) with 0.
        cbn [BigInt.is_zero Z.eqb negb]. apply IH. }
      rewrite H in Hh. discriminate.
  - destruct (negb (Zp.is_unit (Zp.mk 2 N v))); reflexivity.
Qed.

Lemma sqrt_two_adic_outcome_witness :
  Zp.sqrt 0 (Zp.mk 2 5 17) = Throw NoInverse /\
  Zp.sqrt 0 (Zp.mk 2 5 1) = Ok (Zp.mk 2 5 1) /\
  Zp.sqrt 0 (Zp.mk 2 5 5) = Throw DomainError.
Proof.
  split; [| split].
  - apply (sqrt_two_adic_outcome 0 (Zp.mk 2 5 17)); [unfold Zp.wf; simpl; lia | reflexivity].
  - apply (sqrt_two_adic_outcome 0 (Zp.mk 2 5 1)); [unfold Zp.wf; simpl; lia | reflexivity].
  - apply (sqrt_two_adic_outcome 0 (Zp.mk 2 5 5)); [unfold Zp.wf; simpl; lia | reflexivity].
Defined.

End ZpDivision.

(** ** Characters: pow_mod and the generator -1 *)

Section PowModAndMinusOne.

Import DirichletCharacter.

(** X15: for a modulus up to 3037000500, where no product of two
    residues leaves the 64-bit range, pow_mod(base, exp, mod) is 1 for
    exp <= 0 (also when mod is 1) and the truncated remainder of base^exp
    otherwise; for a non-negative base this is base^exp mod mod, in
    [0, mod). *)
Theorem pow_mod_correct (base exp md : Z) :
  1 <= md -> products_fit md ->
  (exp <= 0 -> pow_mod base exp md = 1) /\
  (0 < exp -> pow_mod base exp md = Z.rem (base ^ exp) md) /\
  (0 < exp -> 0 <= base ->
   pow_mod base exp md = (base ^ exp) mod md /\ 0 <= pow_mod base exp md < md).
Proof.
  intros Hmd Hfit. rewrite pow_mod_spec by assumption. unfold power_residue.
  split; [| split].
  - intros He. destruct (Z.gtb_spec exp 0); [lia | reflexivity].
  - intros He. destruct (Z.gtb_spec exp 0); [reflexivity | lia].
  - intros He Hb. destruct (Z.gtb_spec exp 0); [| lia].
    assert (0 <= base ^ exp) by (apply Z.pow_nonneg; lia).
    rewrite Z.rem_mod_nonneg by lia. split; [reflexivity |].
    apply Z.mod_pos_bound. lia.
Qed.

Lemma pow_mod_correct_witness :
  pow_mod 3 5 7 = (3 ^ 5) mod 7 /\ pow_mod (-1) 3 4 = Z.rem ((-1) ^ 3) 4 /\ pow_mod 5 0 1 = 1.
Proof.
  destruct (pow_mod_correct 3 5 7 ltac:(lia) ltac:(vm_compute; discriminate)) as (_ & _ & H1).
  destruct (pow_mod_correct (-1) 3 4 ltac:(lia) ltac:(vm_compute; discriminate)) as (_ & H2 & _).
  destruct (pow_mod_correct 5 0 1 ltac:(lia) ltac:(vm_compute; discriminate)) as (H3 & _ & _).
  split; [apply H1; lia |]. split; [apply H2; lia | apply H3; lia].
Defined.

(** Above the bound the products do wrap: 4294967311 is a modulus a
    [long] holds, the square of the residue 2^32 is 2^64, which comes back
    as 0, and pow_mod returns 0 where the power is 1 modulo 4294967311. *)
Lemma pow_mod_wraps :
  ~ products_fit 4294967311 /\
  pow_mod 2 2147483655 4294967311 = 0 /\
  2 ^ 2147483655 mod 4294967311 = 1.
Proof.
  split; [intros H; vm_compute in H; apply H; reflexivity |].
  split; [vm_compute; reflexivity |].
  rewrite <- Zpow_mod_correct by discriminate. vm_compute. reflexivity.
Qed.



End PowModAndMinusOne.

(** ** Characters: periodicity, the trivial character, generator orders *)

Section TrivialCharacter.

Import DirichletCharacter.








Lemma prime_power_orders (p k : Z) (gs os : list Z) :
  Z.prime p -> 1 <= k ->
  prime_power_generators p k = Some (gs, os) -> Forall (fun m => 2 <= m) os.
Proof.
  intros Hp Hk. pose proof (Z.prime_ge_2 p Hp) as Hp2.
  unfold prime_power_generators. rewrite iter_mul_pow by lia.
  assert (Hsplit : p ^ k = p ^ (k - 1) * p).
  { replace k with (Z.succ (k - 1)) at 1 by lia. rewrite Z.pow_succ_r by lia. ring. }
  assert (Hpk1 : 0 < p ^ (k - 1)) by (apply Z.pow_pos_nonneg; lia).
  destruct (Z.eqb_spec p 2) as [-> | Hne]; simpl andb.
  - destruct (Z.geb_spec k 3) as [Hk3 | Hk3].
    + intros [= <- <-].
      assert (Hq : 2 ^ k ÷ 4 = 2 ^ (k - 2)).
      { replace k with (k - 2 + 2) at 1 by lia. rewrite Z.pow_add_r by lia.
        change (2 ^ 2) with 4. apply Z.quot_mul. lia. }
      rewrite Hq. assert (2 ^ 1 <= 2 ^ (k - 2)) by (apply Z.pow_le_mono_r; lia).
      repeat constructor; lia.
    + destruct (Z.eqb_spec k 2) as [-> | Hk2].
      * intros [= <- <-]. repeat constructor; lia.
      * destruct (Z.eqb_spec k 1) as [-> | Hk1]; [| lia].
        intros [= <- <-]. constructor.
  - destruct (find_primitive_root (Z.to_nat p) 2 p k) as [g |]; [| discriminate].
    intros [= <- <-].
    assert (Hq : p ^ k ÷ p = p ^ (k - 1)) by (rewrite Hsplit; apply Z.quot_mul; lia).
    rewrite Hq. repeat constructor. nia.
Qed.

Lemma all_generators_orders (fs : list (Z * Z)) (gs os : list Z) :
  Forall (fun pk => Z.prime (fst pk) /\ 1 <= snd pk) fs ->
  all_generators fs = Some (gs, os) -> Forall (fun m => 2 <= m) os.
Proof.
  intros Hfs. revert gs os. induction Hfs as [| [p k] fs [Hp Hk] _ IH]; intros gs os.
  - intros [= <- <-]. constructor.
  - cbn [all_generators]. simpl in Hp, Hk.
    destruct (prime_power_generators p k) as [[gs1 os1] |] eqn:H1; [| discriminate].
    destruct (all_generators fs) as [[gs2 os2] |] eqn:H2; [| discriminate].
    intros [= <- <-]. apply Forall_app. split.
    + apply (prime_power_orders p k gs1 os1); assumption.
    + apply (IH gs2 os2). reflexivity.
Qed.

Lemma compute_generators_orders (md : Z) (gs os : list Z) :
  1 <= md -> compute_generators md = Ok (gs, os) -> Forall (fun m => 2 <= m) os.
Proof.
  intros Hmd. unfold compute_generators. destruct (Z.eqb_spec md 1) as [-> | Hne].
  - intros [= <- <-]. constructor.
  - destruct (factorize_spec md Hmd) as (fs & Hfs & Hfac). rewrite Hfs.
    destruct (all_generators fs) as [[gs' os'] |] eqn:Hall; [| discriminate].
    intros [= <- <-].
    apply (all_generators_orders fs gs' os' (factored_all_prime _ _ _ Hfac) Hall).
Qed.



End TrivialCharacter.

(** ** Characters: the value at 1, the conductor, the order *)

Section ValueAtOneAndConductor.

Import DirichletCharacter.

Lemma lcm_ge_2 (order m : Z) : 1 <= order -> 2 <= m -> 2 <= Z.lcm order m.
Proof.
  intros Ho Hm.
  pose proof (Z.lcm_nonneg order m) as Hnn.
  assert (Hne : Z.lcm order m <> 0).
  { intros H. apply Z.lcm_eq_0 in H. lia. }
  pose proof (Z.divide_lcm_r order m) as Hd.
  apply Z.divide_pos_le in Hd; lia.
Qed.

Lemma fold_at_one (values orders exps : list Z) (l : list nat) (order : Z) :
  (forall i, In i l -> nth i exps 0 = 0) ->
  (forall i, In i l -> 2 <= nth i orders 0) ->
  1 <= order ->
  fst (fold_left (evaluate_step values orders exps) l (1, order)) = 1.
Proof.
  revert order. induction l as [| i l IH]; intros order Hex Hord Ho; [reflexivity |].
  cbn [fold_left]. unfold evaluate_step at 2.
  destruct (negb (nth i values 0 =? 0)).
  - rewrite (Hex i) by (left; reflexivity).
    assert (HL : 2 <= Z.lcm order (nth i orders 0)).
    { apply lcm_ge_2; [exact Ho |]. apply Hord. left. reflexivity. }
    change (pow_mod (nth i values 0) 0 (Z.lcm order (nth i orders 0))) with 1.
    rewrite Z.mul_1_l, Z.rem_small by lia.
    apply IH; [| | lia]; intros j Hj; [apply Hex | apply Hord]; right; exact Hj.
  - apply IH; [| | exact Ho]; intros j Hj; [apply Hex | apply Hord]; right; exact Hj.
Qed.

Lemma evaluate_at_one (chi : t) :
  2 <= modulus chi ->
  length (generator_orders chi) = length (generators chi) ->
  Forall (fun m => 2 <= m) (generator_orders chi) ->
  evaluate_at chi 1 = 1.
Proof.
  intros Hmd Hlen Hord. unfold evaluate_at.
  rewrite Z.gcd_1_l. cbn [Z.eqb Pos.eqb negb].
  rewrite normalized_residue by lia. rewrite Z.mod_1_l by lia.
  apply fold_at_one; [| | lia].
  - intros i Hi. apply in_seq in Hi. unfold express_in_generators.
    rewrite Z.gcd_1_l. cbn [Z.eqb Pos.eqb negb].
    rewrite nth_map_seq by lia.
    rewrite normalized_residue by lia. rewrite Z.mod_1_l by lia.
    assert (Ho : 2 <= nth i (generator_orders chi) 0).
    { rewrite Forall_nth in Hord. apply Hord. lia. }
    destruct (Z.to_nat (nth i (generator_orders chi) 0)) as [| steps] eqn:Hs; [lia |].
    reflexivity.
  - intros i Hi. apply in_seq in Hi. rewrite Forall_nth in Hord. apply Hord. lia.
Qed.

Lemma make_values_inv (md p : Z) (vs : list Z) (chi : t) :
  make_values md p vs = Ok chi ->
  exists gs os,
    compute_generators md = Ok (gs, os) /\ length vs = length gs /\
    chi = mk (compute_conductor (mk md md p gs os vs)) md p gs os vs.
Proof.
  unfold make_values. destruct (compute_generators md) as [[gs os] | |]; try discriminate.
  cbn [obind fst snd].
  destruct (Nat.eqb_spec (length vs) (length gs)) as [Hl | Hl]; cbn [negb]; [| discriminate].
  intros [= <-]. exists gs, os. repeat split. exact Hl.
Qed.

Lemma raw_at_one (c md p : Z) (gs os vs : list Z) :
  1 <= md -> compute_generators md = Ok (gs, os) ->
  evaluate_at (mk c md p gs os vs) 1 = 1.
Proof.
  intros Hmd Hgen.
  destruct (Z.eq_dec md 1) as [-> | Hne].
  - unfold compute_generators in Hgen. simpl in Hgen. injection Hgen as <- <-. reflexivity.
  - destruct (compute_generators_spec md Hmd) as (gs' & os' & Hgen' & Hlen' & _ & _).
    rewrite Hgen in Hgen'. injection Hgen' as <- <-.
    apply evaluate_at_one; cbn [modulus generator_orders generators]; [lia | congruence |].
    apply (compute_generators_orders md gs os Hmd Hgen).
Qed.

(** X22: every character the three-argument constructor builds takes the
    value 1 at 1, whatever the exponent vector: 1 is the power 0 of every
    generator, and each order met is at least 2. *)
Theorem character_at_one (md p : Z) (vs : list Z) (chi : t) :
  1 <= md -> make_values md p vs = Ok chi -> evaluate_at chi 1 = 1.
Proof.
  intros Hmd Hmk.
  destruct (make_values_inv md p vs chi Hmk) as (gs & os & Hgen & Hlen & ->).
  apply raw_at_one; assumption.
Qed.

Lemma character_at_one_witness :
  exists chi, make_values 40 3 [1; 1; 3] = Ok chi /\ evaluate_at chi 1 = 1.
Proof.
  destruct (make_values 40 3 [1; 1; 3]) as [chi | |] eqn:Hmk; try (vm_compute in Hmk; discriminate).
  exists chi. split; [reflexivity |].
  apply (character_at_one 40 3 [1; 1; 3] chi); [lia | exact Hmk].
Defined.

Lemma evaluate_at_conductor_irrelevant (c c' md p : Z) (gs os vs : list Z) (n : Z) :
  evaluate_at (mk c md p gs os vs) n = evaluate_at (mk c' md p gs os vs) n.
Proof. reflexivity. Qed.




(** X24: get_order is at least 1 on every character, so the division
    by it in evaluate_cyclotomic is defined. *)
Theorem get_order_positive (chi : t) : 1 <= get_order chi.
Proof.
  unfold get_order. destruct (is_principal chi); [lia |].
  generalize (seq 0 (length (character_values chi))). intros l.
  assert (H : forall order, 1 <= order ->
            1 <= fold_left (fun order i =>
                   let val := nth i (character_values chi) 0 in
                   if negb (val =? 0) then
                     match value_order val (nth i (generator_orders chi) 0) with
                     | Some k => Z.lcm order k
                     | None => order
                     end
                   else order) l order).
  { induction l as [| i l IH]; intros order Ho; [exact Ho |].
    cbn [fold_left]. apply IH.
    destruct (negb (nth i (character_values chi) 0 =? 0)); [| exact Ho].
    destruct (value_order _ _) as [k |] eqn:Hk; [| exact Ho].
    unfold value_order in Hk. apply find_some in Hk. destruct Hk as [Hin _].
    apply in_range in Hin.
    pose proof (Z.lcm_nonneg order k).
    assert (Z.lcm order k <> 0) by (intros H0; apply Z.lcm_eq_0 in H0; lia).
    lia. }
  apply H. lia.
Qed.

End ValueAtOneAndConductor.

(** ** Characters: the primitive-root test *)

Section PrimitiveRoot.

Import DirichletCharacter.

Lemma products_fit_le (a b : Z) : 1 <= a <= b -> products_fit b -> products_fit a.
Proof.
  unfold products_fit. intros Hab Hb.
  assert ((a - 1) * (a - 1) <= (b - 1) * (b - 1)) by (apply Z.mul_le_mono_nonneg; lia).
  lia.
Qed.

Lemma pow_mod_nonneg (g e p : Z) :
  0 <= g -> 0 < e -> 1 <= p -> products_fit p -> pow_mod g e p = g ^ e mod p.
Proof.
  intros Hg He Hp Hfit. rewrite pow_mod_spec by assumption. unfold power_residue.
  destruct (Z.gtb_spec e 0); [| lia].
  apply Z.rem_mod_nonneg; [apply Z.pow_nonneg; lia | lia].
Qed.

Lemma generates_true_inv (fuel : nat) (g d0 p : Z) :
  0 <= d0 ->
  generates fuel g d0 p = Some true ->
  forall d, d0 <= d -> d * d <= p - 1 -> Z.rem (p - 1) d = 0 ->
            pow_mod g d p <> 1 /\ pow_mod g (Z.quot (p - 1) d) p <> 1.
Proof.
  revert d0. induction fuel as [| fuel IH]; intros d0 Hd0; cbn [generates].
  - destruct (Z.leb_spec (d0 * d0) (p - 1)); [discriminate |]. intros _ d Hd Hdd. nia.
  - destruct (Z.leb_spec (d0 * d0) (p - 1)); [| intros _ d Hd Hdd; nia].
    destruct ((Z.rem (p - 1) d0 =? 0)
              && ((pow_mod g d0 p =? 1) || (pow_mod g (Z.quot (p - 1) d0) p =? 1))) eqn:Hc;
      [discriminate |].
    intros Hrec d Hd Hdd Hrem.
    destruct (Z.eq_dec d d0) as [-> | Hne].
    + rewrite Hrem, Z.eqb_refl in Hc. cbn [andb] in Hc.
      apply orb_false_iff in Hc. destruct Hc as [H1 H2].
      apply Z.eqb_neq in H1, H2. tauto.
    + apply (IH (d0 + 1)); [lia | exact Hrec | lia | exact Hdd | exact Hrem].
Qed.

Lemma generates_false_inv (fuel : nat) (g d0 p : Z) :
  generates fuel g d0 p = Some false ->
  exists d, d0 <= d /\ d * d <= p - 1 /\ Z.rem (p - 1) d = 0 /\
            (pow_mod g d p = 1 \/ pow_mod g (Z.quot (p - 1) d) p = 1).
Proof.
  revert d0. induction fuel as [| fuel IH]; intros d0; cbn [generates].
  - destruct (Z.leb_spec (d0 * d0) (p - 1)); discriminate.
  - destruct (Z.leb_spec (d0 * d0) (p - 1)); [| discriminate].
    destruct ((Z.rem (p - 1) d0 =? 0)
              && ((pow_mod g d0 p =? 1) || (pow_mod g (Z.quot (p - 1) d0) p =? 1))) eqn:Hc.
    + intros _. apply andb_true_iff in Hc. destruct Hc as [H1 H2].
      apply Z.eqb_eq in H1. apply orb_true_iff in H2. rewrite !Z.eqb_eq in H2.
      exists d0. repeat split; [lia | assumption | assumption | assumption].
    + intros Hrec. destruct (IH _ Hrec) as (d & Hd & Hrest). exists d. split; [lia | exact Hrest].
Qed.

Lemma power_one_remainder (g p e : Z) :
  Z.prime p -> 0 <= g -> g mod p <> 0 -> 0 < e -> g ^ e mod p = 1 ->
  g ^ ((p - 1) mod e) mod p = 1.
Proof.
  intros Hp Hg Hnz He H1. pose proof (Z.prime_ge_2 p Hp) as Hp2.
  pose proof (Stdlib.Zmod.ZmodInv.Z.fermat_nz p g Hp Hnz) as Hf.
  pose proof (Z.div_mod (p - 1) e ltac:(lia)) as Hdm.
  pose proof (Z.mod_pos_bound (p - 1) e He) as Hr.
  assert (Hq : 0 <= (p - 1) / e) by (apply Z.div_pos; lia).
  rewrite Hdm in Hf at 1.
  rewrite Z.pow_add_r, Z.pow_mul_r in Hf by lia.
  rewrite <- Z.mul_mod_idemp_l, <- Z.mod_pow_l, H1, Z.pow_1_l, Z.mod_1_l in Hf by lia.
  rewrite Z.mul_1_l in Hf. exact Hf.
Qed.

Lemma test_excludes_divisor (fuel : nat) (g p e : Z) :
  Z.prime p -> 3 <= p -> products_fit p -> 2 <= g < p ->
  generates fuel g 2 p = Some true ->
  0 < e < p - 1 -> (e | p - 1) -> g ^ e mod p <> 1.
Proof.
  intros Hp Hp3 Hfit Hg Hgen He [q Hq] H1.
  assert (He2 : 2 <= e).
  { destruct (Z.eq_dec e 1) as [-> |]; [| lia].
    rewrite Z.pow_1_r, Z.mod_small in H1 by lia. lia. }
  assert (Hq2 : 2 <= q) by nia.
  assert (Hrem : forall d, 0 < d -> (d | p - 1) -> Z.rem (p - 1) d = 0).
  { intros d Hd Hdiv. apply Z.rem_divide; [lia | exact Hdiv]. }
  destruct (Z.le_ge_cases e q) as [Hle | Hge].
  - destruct (generates_true_inv fuel g 2 p ltac:(lia) Hgen e ltac:(lia) ltac:(nia))
      as [Ha _].
    + apply Hrem; [lia | exists q; exact Hq].
    + apply Ha. rewrite pow_mod_nonneg by (assumption || lia). exact H1.
  - destruct (generates_true_inv fuel g 2 p ltac:(lia) Hgen q ltac:(lia) ltac:(nia))
      as [_ Hb].
    + apply Hrem; [lia | exists e; lia].
    + apply Hb. replace ((p - 1) ÷ q) with e.
      * rewrite pow_mod_nonneg by (assumption || lia). exact H1.
      * rewrite Hq, Z.mul_comm. symmetry. apply Z.quot_mul. lia.
Qed.

Lemma test_sound (fuel : nat) (g p : Z) :
  Z.prime p -> 3 <= p -> products_fit p -> 2 <= g < p ->
  generates fuel g 2 p = Some true -> primitive_root g p.
Proof.
  intros Hp Hp3 Hfit Hg Hgen. unfold primitive_root.
  assert (Hnz : g mod p <> 0) by (rewrite Z.mod_small; lia).
  assert (H : forall n : nat, forall e, 0 < e <= Z.of_nat n -> e < p - 1 -> g ^ e mod p <> 1).
  { induction n as [| n IH]; intros e He Hlt H1; [lia |].
    pose proof (power_one_remainder g p e Hp ltac:(lia) Hnz ltac:(lia) H1) as Hr.
    pose proof (Z.mod_pos_bound (p - 1) e ltac:(lia)) as Hb.
    destruct (Z.eq_dec ((p - 1) mod e) 0) as [H0 | H0].
    - apply (test_excludes_divisor fuel g p e Hp Hp3 Hfit Hg Hgen ltac:(lia)); [| exact H1].
      apply Z.mod_divide; [lia | exact H0].
    - apply (IH ((p - 1) mod e)); [lia | lia | exact Hr]. }
  intros e He. apply (H (Z.to_nat e)); lia.
Qed.

Lemma test_complete (g p : Z) :
  3 <= p -> products_fit p -> 2 <= g < p -> primitive_root g p ->
  generates (Z.to_nat p) g 2 p = Some true.
Proof.
  intros Hp3 Hfit Hg Hprim.
  destruct (generates_total (Z.to_nat p) g 2 p ltac:(lia) ltac:(lia)) as ([|] & Hb);
    [exact Hb | exfalso].
  destruct (generates_false_inv _ _ _ _ Hb) as (d & Hd & Hdd & Hrem & Hpow).
  assert (Hq : 1 <= (p - 1) ÷ d < p - 1).
  { split.
    - apply Z.quot_le_lower_bound; nia.
    - apply Z.quot_lt; lia. }
  destruct Hpow as [H1 | H1]; rewrite pow_mod_nonneg in H1 by (assumption || lia).
  - apply (Hprim d); [nia | exact H1].
  - apply (Hprim ((p - 1) ÷ d)); [lia | exact H1].
Qed.

Lemma find_primitive_root_inv (fuel : nat) (g0 p k r : Z) :
  find_primitive_root fuel g0 p k = Some r ->
  exists g, g0 <= g /\ generates (Z.to_nat p) g 2 p = Some true /\
            (r = g \/ r = g + p) /\ (k <= 1 -> r = g) /\
            forall g', g0 <= g' < g -> generates (Z.to_nat p) g' 2 p = Some false.
Proof.
  revert g0. induction fuel as [| fuel IH]; intros g0; cbn [find_primitive_root];
    [discriminate |].
  destruct (generates (Z.to_nat p) g0 2 p) as [[|] |] eqn:Hg; [| | discriminate].
  - intros Hr. exists g0. split; [lia |]. split; [exact Hg |].
    destruct (Z.gtb_spec k 1) as [Hk | Hk]; cbn [andb] in Hr.
    + destruct (_ =? 1); injection Hr as <-; (split; [tauto |]); (split; [lia |]); intros; lia.
    + injection Hr as <-. split; [tauto |]. split; [tauto |]. intros; lia.
  - intros Hr. destruct (IH _ Hr) as (g & Hge & Hgen & Hrg & Hk & Hmin).
    exists g. split; [lia |]. split; [exact Hgen |]. split; [exact Hrg |]. split; [exact Hk |].
    intros g' Hg'. destruct (Z.eq_dec g' g0) as [-> |]; [exact Hg |]. apply Hmin. lia.
Qed.

End PrimitiveRoot.

(** ** Characters: trial division, the constructor, primitive characters *)

Section FactorizeAndEnumerate.

Import DirichletCharacter.










End FactorizeAndEnumerate.

(** ** LFunctions: the cache key and the cache *)

Section KeyOrder.

Import LFunctions.

Lemma LKey_lt_spec (a b : LKey) : LKey_lt a b = true <-> lexicographic a b.
Proof.
  destruct a as [[[[s1 c1] i1] p1] n1], b as [[[[s2 c2] i2] p2] n2].
  unfold LKey_lt, lexicographic.
  destruct (Z.eqb_spec s1 s2); cbn [negb]; [subst | rewrite Z.ltb_lt; lia].
  destruct (Z.eqb_spec c1 c2); cbn [negb]; [subst | rewrite Z.ltb_lt; lia].
  destruct (Z.eqb_spec i1 i2); cbn [negb]; [subst | rewrite Z.ltb_lt; lia].
  destruct (Z.eqb_spec p1 p2); cbn [negb]; [subst | rewrite Z.ltb_lt; lia].
  rewrite Z.ltb_lt. lia.
Qed.

(** X27: LKey::operator< is a strict total order: irreflexive,
    asymmetric, transitive, and two keys neither of which is below the
    other have all five fields equal, so the map holds one entry per
    tuple. *)
Theorem LKey_lt_strict_total_order (a b c : LKey) :
  LKey_lt a a = false /\
  (LKey_lt a b = true -> LKey_lt b a = false) /\
  (LKey_lt a b = true -> LKey_lt b c = true -> LKey_lt a c = true) /\
  (LKey_lt a b = false -> LKey_lt b a = false -> a = b).
Proof.
  rewrite <- !not_true_iff_false, !LKey_lt_spec.
  destruct a as [[[[s1 c1] i1] p1] n1], b as [[[[s2 c2] i2] p2] n2],
    c as [[[[s3 c3] i3] p3] n3].
  unfold lexicographic.
  split; [lia |]. split; [lia |]. split; [lia |].
  intros H1 H2.
  assert (s1 = s2) by lia. subst s2.
  assert (c1 = c2) by lia. subst c2.
  assert (i1 = i2) by lia. subst i2.
  assert (p1 = p2) by lia. subst p2.
  assert (n1 = n2) by lia. subst n2. reflexivity.
Qed.

Lemma LKey_lt_strict_total_order_witness :
  LKey_lt (0, 7, 1, 5, 3) (0, 7, 1, 5, 4) = true /\
  LKey_lt (0, 7, 1, 5, 3) (0, 7, 2, 5, 0) = true.
Proof.
  split; [reflexivity |].
  refine (proj1 (proj2 (proj2 (LKey_lt_strict_total_order
            (0, 7, 1, 5, 3) (0, 7, 1, 5, 4) (0, 7, 2, 5, 0)))) _ _); reflexivity.
Defined.

End KeyOrder.

Section LValueCache.

Context {C : Type} (cyc : Cyclotomic.ops C).
Variable generalized_bernoulli : Z -> Z -> (Z -> outcome C) -> Z -> Z -> outcome Qp.t.
Variable num_terms : Z -> Z -> Z.

(** X28: after a call of kubota_leopoldt that returns v, the cache
    holds v under the key of the call, every other entry is as before,
    nothing is evicted, and repeating the call returns v without touching
    the cache. *)
Theorem kubota_leopoldt_cache_round_trip (s precision : Z) (chi : DirichletCharacter.t)
    (l_cache cache1 : gmap LFunctions.LKey Qp.t) (v : Qp.t) :
  LFunctions.kubota_leopoldt cyc generalized_bernoulli num_terms s chi precision l_cache
  = Ok (v, cache1) ->
  cache1 !! cache_key s chi precision = Some v /\
  (forall key, key <> cache_key s chi precision -> cache1 !! key = l_cache !! key) /\
  (forall key w, l_cache !! key = Some w -> cache1 !! key = Some w) /\
  LFunctions.kubota_leopoldt cyc generalized_bernoulli num_terms s chi precision cache1
  = Ok (v, cache1).
Proof.
  intros Hrun.
  assert (Hshape : (l_cache !! cache_key s chi precision = Some v /\ cache1 = l_cache) \/
                   (l_cache !! cache_key s chi precision = None /\
                    cache1 = <[cache_key s chi precision := v]> l_cache)).
  { unfold LFunctions.kubota_leopoldt in Hrun. fold (cache_key s chi precision) in Hrun.
    destruct (l_cache !! cache_key s chi precision) as [w |] eqn:Hc.
    - left. injection Hrun as <- <-. tauto.
    - right. destruct (Qp.make (DirichletCharacter.prime chi) precision 0); try discriminate.
      cbn [obind] in Hrun.
      match type of Hrun with
      | obind ?m _ = _ => destruct m as [res | |]; try discriminate
      end.
      cbn [obind] in Hrun. injection Hrun as <- <-. tauto. }
  assert (Hstored : cache1 !! cache_key s chi precision = Some v).
  { destruct Hshape as [[H ->] | [_ ->]]; [exact H | apply lookup_insert_eq]. }
  split; [exact Hstored |]. split; [| split].
  - intros key Hne. destruct Hshape as [[_ ->] | [_ ->]]; [reflexivity |].
    apply lookup_insert_ne. congruence.
  - intros key w Hw. destruct Hshape as [[_ ->] | [Hnone ->]]; [exact Hw |].
    rewrite lookup_insert_ne; [exact Hw |]. intros <-. congruence.
  - unfold LFunctions.kubota_leopoldt. fold (cache_key s chi precision).
    rewrite Hstored. reflexivity.
Qed.

End LValueCache.

Lemma kubota_leopoldt_cache_round_trip_witness :
  let run := LFunctions.kubota_leopoldt Cyclotomic.free
               (fun _ _ _ _ _ => Throw DomainError) (fun _ _ => 0) 0 principal_mod_1 10 in
  exists v cache1, run ∅ = Ok (v, cache1) /\ run cache1 = Ok (v, cache1).
Proof.
  intros run.
  assert (Hrun : run ∅ = Ok (Qp.zero 5 10,
                             <[cache_key 0 principal_mod_1 10 := Qp.zero 5 10]> ∅)).
  { apply kubota_leopoldt_miss_at_zero;
      [apply lookup_empty | simpl; lia | lia | vm_compute; reflexivity]. }
  eexists. eexists. split; [exact Hrun |].
  exact (proj2 (proj2 (proj2 (kubota_leopoldt_cache_round_trip Cyclotomic.free
           (fun _ _ _ _ _ => Throw DomainError) (fun _ _ => 0) 0 10 principal_mod_1
           ∅ _ _ Hrun)))).
Defined.

(** ** PadicLog::log_unit *)

Section LogUnit.

Lemma of_Zp_unit (x : Zp.t) :
  Zp.wf x -> Zp.is_unit x = true ->
  Qp.of_Zp x = Qp.mk (Zp.prime x) (Zp.precision x) 0 (Zp.value x).
Proof.
  intros Hx Hu. pose proof Hx as (Hp & HN & Hv).
  destruct (valuation_facts x Hx) as (_ & Hiff & _ & _ & Hunit).
  rewrite Hu in Hunit. symmetry in Hunit. apply Z.eqb_eq in Hunit.
  assert (Hnz : Zp.value x <> 0).
  { intros H0. apply Hiff in H0. lia. }
  unfold Qp.of_Zp.
  assert (Hmod : Zp.value x mod Zp.prime x ^ Zp.precision x = Zp.value x)
    by (apply Z.mod_small; exact Hv).
  destruct (of_scaled_nonzero (Zp.prime x) (Zp.precision x) 0 (Zp.value x) Hp HN)
    as (-> & _ & _); [rewrite Hmod; exact Hnz |].
  rewrite Hmod. unfold Zp.valuation, Zp.is_zero, BigInt.is_zero in Hunit.
  destruct (Z.eqb_spec (Zp.value x) 0); [contradiction |].
  rewrite Hunit, Z.pow_0_r, Z.div_1_r. reflexivity.
Qed.

Lemma of_Zp_nonunit (x : Zp.t) :
  Zp.wf x -> Zp.is_unit x = false ->
  Qp.is_zero (Qp.of_Zp x) = true \/ Qp.valuation (Qp.of_Zp x) <> 0.
Proof.
  intros Hx Hu. pose proof Hx as (Hp & HN & Hv).
  destruct (valuation_facts x Hx) as (_ & Hiff & _ & _ & Hunit).
  rewrite Hu in Hunit. symmetry in Hunit. apply Z.eqb_neq in Hunit.
  unfold Qp.of_Zp.
  assert (Hmod : Zp.value x mod Zp.prime x ^ Zp.precision x = Zp.value x)
    by (apply Z.mod_small; exact Hv).
  destruct (Z.eq_dec (Zp.value x) 0) as [H0 | Hnz].
  - left. rewrite of_scaled_zero by (rewrite Hmod; exact H0). reflexivity.
  - right.
    destruct (of_scaled_nonzero (Zp.prime x) (Zp.precision x) 0 (Zp.value x) Hp HN)
      as (-> & _ & _); [rewrite Hmod; exact Hnz |].
    cbn [Qp.valuation]. rewrite Hmod, Z.add_0_l.
    unfold Zp.valuation, Zp.is_zero, BigInt.is_zero in Hunit.
    destruct (Z.eqb_spec (Zp.value x) 0); [contradiction |].
    intros [= Hval]. exact (Hunit Hval).
Qed.

(** X29: for prime p, log_unit(x) is log(Qp(x)) on every x: the two
    tests of log_unit (x a unit, x = 1 modulo p) only repeat refusals that
    log makes itself. *)
Theorem log_unit_is_log (x : Zp.t) :
  Z.prime (Zp.prime x) -> Zp.wf x ->
  PadicLog.log_unit x = PadicLog.log (Qp.of_Zp x) /\
  (Zp.is_unit x = false -> PadicLog.log_unit x = Throw DomainError) /\
  (Zp.value x mod Zp.prime x <> 1 -> PadicLog.log_unit x = Throw DomainError).
Proof.
  intros Hprime Hx. pose proof Hx as (Hp & HN & Hv).
  assert (Hpp : 2 <= Zp.prime x ^ Zp.precision x) by (apply pow_ge_2; lia).
  assert (Hbad : Zp.is_unit x = false -> PadicLog.log (Qp.of_Zp x) = Throw DomainError).
  { intros Hu. apply log_refuses; [apply of_scaled_wf; assumption |].
    destruct (of_Zp_nonunit x Hx Hu) as [Hz | Hval]; [left; exact Hz | right; left; exact Hval]. }
  assert (Hcheck : Zp.is_unit x = true ->
            PadicLog.log_unit x =
              if Zp.value x mod Zp.prime x =? 1 then PadicLog.log (Qp.of_Zp x)
              else Throw DomainError).
  { intros Hu. unfold PadicLog.log_unit. rewrite Hu. cbn [negb].
    rewrite make_ok by lia. cbn [obind].
    rewrite (with_precision_ok _ 1 Hx) by lia. cbn [obind].
    assert (H1 : Zp.wf (Zp.mk (Zp.prime x) (Zp.precision x)
                              (1 mod Zp.prime x ^ Zp.precision x))) by (apply mk_wf; lia).
    rewrite (with_precision_ok _ 1 H1) by lia.
    cbn [obind Zp.prime Zp.precision Zp.value].
    unfold Zp.neqb, Zp.eqb. cbn [Zp.prime Zp.precision Zp.value].
    rewrite Z.eqb_refl. cbn [negb]. rewrite Z.min_id. unfold BigInt.rem, BigInt.pow.
    rewrite Z.pow_1_r.
    rewrite (Z.mod_1_l (Zp.prime x ^ Zp.precision x)) by lia.
    rewrite (Z.mod_1_l (Zp.prime x)) by lia.
    rewrite !Z.rem_mod_nonneg by (try lia; apply Z.mod_pos_bound; lia).
    rewrite Z.mod_mod by lia. rewrite (Z.mod_1_l (Zp.prime x)) by lia.
    destruct (Zp.value x mod Zp.prime x =? 1); reflexivity. }
  assert (Hnot1 : Zp.is_unit x = true -> Zp.value x mod Zp.prime x <> 1 ->
                  PadicLog.log (Qp.of_Zp x) = Throw DomainError).
  { intros Hu Hne. rewrite (of_Zp_unit x Hx Hu).
    apply log_refuses.
    - rewrite <- (of_Zp_unit x Hx Hu). apply of_scaled_wf; assumption.
    - right. right.
      unfold unit_congruent_to_one, log_threshold. cbn [Qp.unit Qp.prime]. intros Hc.
      apply Hne.
      assert (Hd1 : (Zp.prime x | Zp.value x - 1)).
      { apply Z.mod_divide in Hc; [| destruct (Zp.prime x =? 2); apply Z.pow_nonzero; lia].
        eapply Z.divide_trans; [| exact Hc].
        destruct (Zp.prime x =? 2).
        - exists (Zp.prime x). rewrite Z.pow_2_r. reflexivity.
        - rewrite Z.pow_1_r. apply Z.divide_refl. }
      destruct Hd1 as [c Hc1].
      replace (Zp.value x) with (1 + c * Zp.prime x) by lia.
      rewrite Z.mod_add by lia. apply Z.mod_1_l. lia. }
  destruct (Zp.is_unit x) eqn:Hu.
  - specialize (Hcheck eq_refl). rewrite Hcheck.
    destruct (Z.eqb_spec (Zp.value x mod Zp.prime x) 1) as [H1 | H1].
    + split; [reflexivity |]. split; [discriminate | contradiction].
    + split; [symmetry; apply Hnot1; [reflexivity | exact H1] |].
      split; [discriminate | reflexivity].
  - assert (Hl : PadicLog.log_unit x = Throw DomainError).
    { unfold PadicLog.log_unit. rewrite Hu. reflexivity. }
    rewrite Hl, (Hbad eq_refl). repeat split; reflexivity.
Qed.

Lemma log_unit_is_log_witness :
  PadicLog.log_unit (Zp.mk 7 5 8) = PadicLog.log (Qp.of_Zp (Zp.mk 7 5 8)) /\
  PadicLog.log_unit (Zp.mk 7 5 3) = Throw DomainError.
Proof.
  split.
  - apply (log_unit_is_log (Zp.mk 7 5 8)); [exact prime_7 | unfold Zp.wf; simpl; lia].
  - apply (log_unit_is_log (Zp.mk 7 5 3)); [exact prime_7 | unfold Zp.wf; simpl; lia |].
    vm_compute. discriminate.
Defined.

End LogUnit.

(** ** Roots of polynomials modulo a prime *)

Section RootBound.

Import DirichletCharacter.

Lemma poly_div_linear_spec (f : list Z) (a x : Z) :
  poly_eval f x = (x - a) * poly_eval (poly_div_linear f a) x + poly_eval f a.
Proof.
  induction f as [| c cs IH]; [simpl; ring |].
  destruct cs as [| c' cs'].
  - simpl. ring.
  - change (poly_div_linear (c :: c' :: cs') a)
      with (poly_eval (c' :: cs') a :: poly_div_linear (c' :: cs') a).
    cbn [poly_eval] in *. rewrite IH. ring.
Qed.

Lemma poly_div_linear_length (f : list Z) (a : Z) :
  length (poly_div_linear f a) = pred (length f).
Proof.
  induction f as [| c cs IH]; [reflexivity |].
  destruct cs as [| c' cs']; [reflexivity |].
  change (poly_div_linear (c :: c' :: cs') a)
    with (poly_eval (c' :: cs') a :: poly_div_linear (c' :: cs') a).
  cbn [length] in *. rewrite IH. reflexivity.
Qed.

Lemma poly_div_linear_last (f : list Z) (a : Z) :
  (2 <= length f)%nat -> List.last (poly_div_linear f a) 0 = List.last f 0.
Proof.
  induction f as [| c cs IH]; [simpl; lia |].
  destruct cs as [| c' cs']; [simpl; lia |]. intros _.
  change (poly_div_linear (c :: c' :: cs') a)
    with (poly_eval (c' :: cs') a :: poly_div_linear (c' :: cs') a).
  destruct cs' as [| c'' cs''].
  - simpl. ring.
  - change (List.last (c :: c' :: c'' :: cs'') 0) with (List.last (c' :: c'' :: cs'') 0).
    rewrite <- IH by (simpl; lia).
    change (poly_div_linear (c' :: c'' :: cs'') a)
      with (poly_eval (c'' :: cs'') a :: poly_div_linear (c'' :: cs'') a).
    reflexivity.
Qed.

(** Lagrange: a polynomial of degree n whose leading coefficient is not
    divisible by the prime p has at most n roots modulo p. *)
Lemma roots_bound (p : Z) (n : nat) :
  Z.prime p ->
  forall (f : list Z) (roots : list Z),
    length f = S n -> ~ (p | List.last f 0) ->
    List.NoDup roots ->
    (forall r, In r roots -> 0 <= r < p /\ (p | poly_eval f r)) ->
    (length roots <= n)%nat.
Proof.
  intros Hp. induction n as [| n IH]; intros f roots Hlen Hlead Hnd Hroots.
  - destruct f as [| c [| ? ?]]; try discriminate.
    destruct roots as [| r rest]; [simpl; lia | exfalso].
    destruct (Hroots r (or_introl eq_refl)) as [_ Hd].
    apply Hlead. simpl in *. replace (c + r * 0) with c in Hd by ring. exact Hd.
  - destruct roots as [| a rest]; [simpl; lia |].
    cbn [length]. apply le_n_S.
    inversion Hnd as [| ? ? Hnotin Hnd']; subst.
    destruct (Hroots a (or_introl eq_refl)) as [Ha Hda].
    apply (IH (poly_div_linear f a) rest).
    + rewrite poly_div_linear_length, Hlen. reflexivity.
    + rewrite poly_div_linear_last by lia. exact Hlead.
    + exact Hnd'.
    + intros r Hr. destruct (Hroots r (or_intror Hr)) as [Hrr Hdr].
      split; [exact Hrr |].
      rewrite (poly_div_linear_spec f a r) in Hdr.
      assert (Hprod : (p | (r - a) * poly_eval (poly_div_linear f a) r)).
      { replace ((r - a) * poly_eval (poly_div_linear f a) r)
          with ((r - a) * poly_eval (poly_div_linear f a) r + poly_eval f a - poly_eval f a)
          by ring.
        apply Z.divide_sub_r; assumption. }
      apply Z.divide_prime_mul in Hprod; [| exact Hp].
      destruct Hprod as [Hbad | Hok]; [exfalso | exact Hok].
      assert (r <> a) by (intros ->; contradiction).
      destruct Hbad as [c Hc].
      assert (c = 0) by nia. lia.
Qed.

Lemma eval_monomial (k : nat) (x : Z) :
  poly_eval (repeat 0 k ++ [1]) x = x ^ Z.of_nat k.
Proof.
  induction k as [| k IH].
  - cbn [repeat app poly_eval]. change (Z.of_nat 0) with 0. rewrite Z.pow_0_r. ring.
  - cbn [repeat app poly_eval]. rewrite IH, Nat2Z.inj_succ, Z.pow_succ_r by lia. ring.
Qed.

Lemma last_monomial (k : nat) : List.last (-1 :: repeat 0 k ++ [1]) 0 = 1.
Proof.
  change (-1 :: repeat 0 k ++ [1]) with ((-1 :: repeat 0 k) ++ [1]).
  apply List.last_last.
Qed.

Lemma half_power_square (p a : Z) :
  Z.prime p -> 3 <= p -> ~ (2 | p) -> a mod p <> 0 ->
  a ^ ((p - 1) / 2) mod p = 1 \/ a ^ ((p - 1) / 2) mod p = p - 1.
Proof.
  intros Hp Hp3 Hodd Hnz.
  pose proof (Stdlib.Zmod.ZmodInv.Z.fermat_nz p a Hp Hnz) as Hf.
  set (h := (p - 1) / 2) in *.
  assert (Hh : p - 1 = h + h).
  { unfold h. pose proof (Z.div_mod (p - 1) 2 ltac:(lia)).
    pose proof (Z.mod_pos_bound (p - 1) 2 ltac:(lia)).
    destruct (Z.eq_dec ((p - 1) mod 2) 0); [lia |].
    exfalso. apply Hodd. exists ((p - 1) / 2 + 1). lia. }
  assert (Hh0 : 0 <= h) by lia.
  set (u := a ^ h mod p).
  assert (Hu : 0 <= u < p) by (apply Z.mod_pos_bound; lia).
  assert (Hsq : (u * u) mod p = 1).
  { unfold u. rewrite <- Z.mul_mod, <- Z.pow_add_r, <- Hh by lia. exact Hf. }
  assert (Hd : (p | (u - 1) * (u + 1))).
  { replace ((u - 1) * (u + 1)) with (u * u - 1) by ring.
    apply Z.mod_divide; [lia |].
    rewrite Zminus_mod, Hsq, Z.mod_1_l by lia. reflexivity. }
  apply Z.divide_prime_mul in Hd; [| exact Hp].
  destruct Hd as [[c Hc] | [c Hc]].
  - left. assert (c = 0) by nia. lia.
  - right. assert (c = 1) by nia. lia.
Qed.

Lemma odd_prime_not_even (p : Z) : Z.prime p -> 3 <= p -> ~ (2 | p).
Proof.
  intros [_ Hp] Hp3 Hd. apply (Hp 2); [lia | exact Hd].
Qed.

(** Fewer than p - 1 roots: for 1 <= e < p - 1 some x in 1 .. p - 1 has
    x^e <> 1 modulo p. *)
Lemma exists_non_root (p e : Z) :
  Z.prime p -> 1 <= e < p - 1 ->
  exists x, 1 <= x < p /\ x ^ e mod p <> 1.
Proof.
  intros Hp He. pose proof (Z.prime_ge_2 p Hp) as Hp2.
  assert (Hdec : forall z, {z ^ e mod p <> 1} + {~ z ^ e mod p <> 1}).
  { intros z. destruct (Z.eq_dec (z ^ e mod p) 1); [right | left]; tauto. }
  destruct (List.Exists_dec (fun z => z ^ e mod p <> 1) (range 1 (Z.to_nat (p - 1))) Hdec)
    as [Hex | Hall].
  - apply List.Exists_exists in Hex. destruct Hex as (z & Hin & Hz).
    apply in_range in Hin. exists z. split; [lia | exact Hz].
  - exfalso.
    assert (Hbound : (length (range 1 (Z.to_nat (p - 1))) <= Z.to_nat e)%nat).
    { apply (roots_bound p (Z.to_nat e) Hp (-1 :: repeat 0 (Z.to_nat e - 1) ++ [1])).
      - cbn [length]. rewrite length_app, repeat_length. simpl. lia.
      - rewrite last_monomial. intros Hd. apply Z.divide_1_r_nonneg in Hd; lia.
      - apply range_NoDup.
      - intros r Hr. pose proof Hr as Hr'. apply in_range in Hr'. split; [lia |].
        cbn [poly_eval]. rewrite eval_monomial.
        replace (-1 + r * r ^ Z.of_nat (Z.to_nat e - 1)) with (r ^ e - 1).
        + apply Z.mod_divide; [lia |].
          destruct (Z.eq_dec (r ^ e mod p) 1) as [H1 | H1].
          * rewrite Zminus_mod, H1, Z.mod_1_l by lia. reflexivity.
          * exfalso. apply Hall. apply List.Exists_exists. exists r. split; assumption.
        + replace e with (Z.succ (Z.of_nat (Z.to_nat e - 1))) at 1 by lia.
          rewrite Z.pow_succ_r by lia. ring. }
    rewrite range_length in Hbound. lia.
Qed.

(** Every odd prime has a quadratic non-residue in 2 .. p - 1. *)
Lemma non_residue_exists (p : Z) :
  Z.prime p -> 3 <= p ->
  exists z, 2 <= z < p /\ z ^ ((p - 1) / 2) mod p = p - 1.
Proof.
  intros Hp Hp3. pose proof (odd_prime_not_even p Hp Hp3) as Hodd.
  set (h := (p - 1) / 2).
  assert (Hh : p - 1 = h + h).
  { unfold h. pose proof (Z.div_mod (p - 1) 2 ltac:(lia)).
    pose proof (Z.mod_pos_bound (p - 1) 2 ltac:(lia)).
    destruct (Z.eq_dec ((p - 1) mod 2) 0); [lia |].
    exfalso. apply Hodd. exists ((p - 1) / 2 + 1). lia. }
  destruct (exists_non_root p h Hp ltac:(lia)) as (z & Hz & Hne).
  assert (Hnz : z mod p <> 0) by (rewrite Z.mod_small; lia).
  destruct (half_power_square p z Hp Hp3 Hodd Hnz) as [H1 | H1]; fold h in H1;
    [contradiction |].
  exists z. split; [| exact H1].
  destruct (Z.eq_dec z 1) as [-> |]; [| lia].
  rewrite Z.pow_1_l, Z.mod_1_l in Hne by lia. contradiction.
Qed.

End RootBound.

(** ** Zp::sqrt: termination of Tonelli-Shanks *)

Section TonelliShanks.

Lemma split_two_total (fuel : nat) (q0 s0 : Z) :
  1 <= q0 -> q0 < 2 ^ Z.of_nat fuel ->
  exists q s, Zp.split_two fuel q0 s0 = Some (q, s) /\
              s0 <= s /\ q0 = q * 2 ^ (s - s0) /\ 1 <= q /\ Z.rem q 2 <> 0.
Proof.
  revert q0 s0. induction fuel as [| fuel IH]; intros q0 s0 Hq Hlt.
  - simpl in Hlt. lia.
  - cbn [Zp.split_two]. unfold BigInt.is_zero, BigInt.rem, BigInt.quot.
    destruct (Z.eqb_spec (Z.rem q0 2) 0) as [Hev | Hodd].
    + rewrite Z.rem_mod_nonneg in Hev by lia.
      pose proof (Z.div_mod q0 2 ltac:(lia)) as Hdm.
      rewrite Nat2Z.inj_succ, Z.pow_succ_r in Hlt by lia.
      rewrite Z.quot_div_nonneg by lia.
      destruct (IH (q0 / 2) (s0 + 1) ltac:(lia) ltac:(lia)) as (q & s & Hrun & Hs & Heq & Hq1 & Hqo).
      exists q, s. split; [exact Hrun |]. split; [lia |]. split; [| tauto].
      replace (s - s0) with (Z.succ (s - (s0 + 1))) by lia.
      rewrite Z.pow_succ_r by lia. lia.
    + exists q0, s0. split; [reflexivity |]. split; [lia |].
      rewrite Z.sub_diag, Z.pow_0_r. split; [lia | tauto].
Qed.

Lemma find_non_residue_total (fuel : nat) (z z0 p : Z) :
  z <= z0 -> z0 - z <= Z.of_nat fuel ->
  z0 ^ ((p - 1) ÷ 2) mod p = p - 1 ->
  exists z', Zp.find_non_residue fuel z p = Some z' /\ z <= z' <= z0 /\
             z' ^ ((p - 1) ÷ 2) mod p = p - 1.
Proof.
  revert z. induction fuel as [| fuel IH]; intros z Hz Hfuel H0.
  - assert (z = z0) by lia. subst z. exists z0. split; [| split; [lia | exact H0]].
    cbn [Zp.find_non_residue].
    unfold BigInt.pow_mod, BigInt.quot. rewrite H0, Z.eqb_refl. reflexivity.
  - cbn [Zp.find_non_residue]. unfold BigInt.pow_mod, BigInt.quot.
    destruct (Z.eqb_spec (z ^ ((p - 1) ÷ 2) mod p) (p - 1)) as [Hhit | Hmiss]; cbn [negb].
    + exists z. split; [reflexivity |]. split; [lia | exact Hhit].
    + assert (z <> z0) by congruence.
      destruct (IH (z + 1) ltac:(lia) ltac:(lia) H0) as (z' & Hrun & Hr & Hz').
      exists z'. split; [exact Hrun |]. split; [lia | exact Hz'].
Qed.

Lemma pow2_succ (t p k : Z) :
  2 <= p -> 0 <= k ->
  t ^ (2 ^ (k + 1)) mod p = (t ^ (2 ^ k) mod p * (t ^ (2 ^ k) mod p)) mod p.
Proof.
  intros Hp Hk. rewrite Z.pow_add_r, Z.pow_1_r by lia.
  replace (2 ^ k * 2) with (2 ^ k + 2 ^ k) by ring.
  assert (0 <= 2 ^ k) by (apply Z.pow_nonneg; lia).
  rewrite Z.pow_add_r by lia. apply Z.mul_mod. lia.
Qed.

Lemma least_i_total (fuel : nat) (t t2 i M p : Z) :
  2 <= p -> 0 <= i <= M -> M - i <= Z.of_nat fuel ->
  t2 = t ^ (2 ^ i) mod p ->
  t ^ (2 ^ M) mod p = 1 ->
  exists j, Zp.least_i fuel t2 i p = Some j /\ i <= j <= M /\
            t ^ (2 ^ j) mod p = 1 /\
            forall k, i <= k < j -> t ^ (2 ^ k) mod p <> 1.
Proof.
  intros Hp. revert t2 i. induction fuel as [| fuel IH]; intros t2 i Hi Hfuel Ht2 HM.
  - assert (i = M) by lia. subst i.
    exists M. split; [| split; [lia | split; [exact HM | intros; lia]]].
    cbn [Zp.least_i]. rewrite Ht2, HM. reflexivity.
  - cbn [Zp.least_i].
    destruct (Z.eqb_spec t2 1) as [H1 | H1]; cbn [negb].
    + exists i. split; [reflexivity |]. split; [lia |]. split; [congruence |]. intros; lia.
    + assert (i <> M) by (intros ->; congruence).
      unfold BigInt.rem.
      assert (Ht2r : 0 <= t2 < p) by (rewrite Ht2; apply Z.mod_pos_bound; lia).
      rewrite Z.rem_mod_nonneg by nia.
      destruct (IH ((t2 * t2) mod p) (i + 1) ltac:(lia) ltac:(lia)) as (j & Hrun & Hj & Hpj & Hmin).
      * rewrite Ht2. symmetry. apply pow2_succ; lia.
      * exact HM.
      * exists j. split; [exact Hrun |]. split; [lia |]. split; [exact Hpj |].
        intros k Hk. destruct (Z.eq_dec k i) as [-> |]; [congruence |]. apply Hmin. lia.
Qed.

Lemma square_times_spec (n c p : Z) :
  2 <= p -> 0 <= n -> 0 <= c < p -> Zp.square_times n c p = c ^ (2 ^ n) mod p.
Proof.
  intros Hp Hn Hc. unfold Zp.square_times. rewrite iter_nat_of_Z by exact Hn.
  rewrite <- (Z.abs_eq n) at 2 by exact Hn. rewrite <- Zabs2Nat.id_abs.
  induction (Z.abs_nat n) as [| k IH].
  - simpl. rewrite Z.pow_1_r, Z.mod_small; lia.
  - simpl nat_rect. rewrite IH. unfold BigInt.rem.
    assert (0 <= c ^ 2 ^ Z.of_nat k mod p < p) by (apply Z.mod_pos_bound; lia).
    rewrite Z.rem_mod_nonneg by nia.
    rewrite Nat2Z.inj_succ, <- Z.add_1_r. symmetry. apply pow2_succ; lia.
Qed.

Lemma square_is_one (p u : Z) :
  Z.prime p -> 0 <= u < p -> (u * u) mod p = 1 -> u = 1 \/ u = p - 1.
Proof.
  intros Hp Hu Hsq. pose proof (Z.prime_ge_2 p Hp).
  assert (Hd : (p | (u - 1) * (u + 1))).
  { replace ((u - 1) * (u + 1)) with (u * u - 1) by ring.
    apply Z.mod_divide; [lia |].
    rewrite Zminus_mod, Hsq, Z.mod_1_l by lia. reflexivity. }
  apply Z.divide_prime_mul in Hd; [| exact Hp].
  destruct Hd as [[c Hc] | [c Hc]].
  - left. assert (c = 0) by nia. lia.
  - right. assert (c = 1) by nia. lia.
Qed.

Lemma tonelli_loop_total (p : Z) :
  Z.prime p -> 3 <= p ->
  forall (fuel inner : nat) (m c t r : Z),
    1 <= m -> 0 <= c < p -> 0 <= t < p ->
    c ^ (2 ^ (m - 1)) mod p = p - 1 ->
    t ^ (2 ^ (m - 1)) mod p = 1 ->
    m <= Z.of_nat fuel -> m <= Z.of_nat inner ->
    exists r', Zp.tonelli_loop fuel inner m c t r p = Some r'.
Proof.
  intros Hp Hp3. induction fuel as [| fuel IH]; intros inner m c t r Hm Hc Ht Hcm Htm Hf Hin.
  - lia.
  - cbn [Zp.tonelli_loop]. unfold BigInt.is_one.
    destruct (Z.eqb_spec t 1) as [H1 | H1]; cbn [negb]; [eauto |].
    assert (Hm2 : 2 <= m).
    { destruct (Z.eq_dec m 1) as [-> |]; [| lia].
      simpl in Htm. rewrite Z.pow_1_r, Z.mod_small in Htm by lia. contradiction. }
    unfold BigInt.rem at 1. rewrite Z.rem_mod_nonneg by nia.
    destruct (least_i_total inner t ((t * t) mod p) 1 (m - 1) p)
      as (j & Hrun & Hj & Hpj & Hmin); [lia | lia | lia | | exact Htm |].
    { change (2 ^ 1) with 2. rewrite Z.pow_2_r. reflexivity. }
    rewrite Hrun.
    set (u := t ^ (2 ^ (j - 1)) mod p).
    assert (Hu : 0 <= u < p) by (apply Z.mod_pos_bound; lia).
    assert (Hu1 : u <> 1).
    { unfold u. destruct (Z.eq_dec j 1) as [-> |].
      - simpl. rewrite Z.pow_1_r, Z.mod_small by lia. exact H1.
      - apply Hmin. lia. }
    assert (Husq : (u * u) mod p = 1).
    { unfold u. rewrite <- pow2_succ by lia. replace (j - 1 + 1) with j by ring. exact Hpj. }
    assert (Hum : u = p - 1) by (destruct (square_is_one p u Hp Hu Husq); [contradiction | assumption]).
    rewrite square_times_spec by lia.
    set (b := c ^ (2 ^ (m - j - 1)) mod p).
    assert (Hb : 0 <= b < p) by (apply Z.mod_pos_bound; lia).
    unfold BigInt.rem. rewrite (Z.rem_mod_nonneg (b * b)) by nia.
    set (c' := (b * b) mod p).
    assert (Hc' : 0 <= c' < p) by (apply Z.mod_pos_bound; lia).
    rewrite (Z.rem_mod_nonneg (t * c')) by nia.
    assert (Hc'eq : c' = c ^ (2 ^ (m - j)) mod p).
    { unfold c', b. rewrite <- pow2_succ by lia. f_equal. f_equal. f_equal. lia. }
    assert (Hpow : forall x a d, 0 <= a -> 0 <= d ->
                   (x ^ (2 ^ a) mod p) ^ (2 ^ d) mod p = x ^ (2 ^ (a + d)) mod p).
    { intros x a d Ha Hd. rewrite Z.mod_pow_l.
      rewrite <- Z.pow_mul_r by (apply Z.pow_nonneg; lia).
      rewrite <- Z.pow_add_r by lia. reflexivity. }
    apply IH; [lia | exact Hc' | apply Z.mod_pos_bound; lia | | | lia | lia].
    + rewrite Hc'eq, Hpow by lia. replace (m - j + (j - 1)) with (m - 1) by ring. exact Hcm.
    + rewrite Z.mod_pow_l, Z.pow_mul_l.
      rewrite Z.mul_mod by lia. fold u.
      rewrite Hc'eq, Hpow by lia. replace (m - j + (j - 1)) with (m - 1) by ring.
      rewrite Hcm, Hum.
      replace ((p - 1) * (p - 1)) with (1 + (p - 2) * p) by ring.
      rewrite Z.mod_add by lia. apply Z.mod_1_l. lia.
Qed.

Lemma lt_pow2 (n : Z) : 0 <= n -> n < 2 ^ n.
Proof. intros Hn. apply Z.pow_gt_lin_r; lia. Qed.

Lemma tonelli_shanks_total (fuel : nat) (v p : Z) :
  Z.prime p -> 3 <= p -> (Z.to_nat p <= fuel)%nat ->
  v ^ ((p - 1) ÷ 2) mod p = 1 ->
  exists r, Zp.tonelli_shanks fuel v p = Some r.
Proof.
  intros Hp Hp3 Hfuel Hguard.
  pose proof (odd_prime_not_even p Hp Hp3) as Hodd.
  unfold Zp.tonelli_shanks.
  destruct (split_two_total fuel (p - 1) 0) as (q & s & -> & Hs & Heq & Hq & Hqo);
    [lia | |].
  { apply Z.lt_le_trans with (2 ^ p); [pose proof (lt_pow2 p); lia |].
    apply Z.pow_le_mono_r; lia. }
  rewrite Z.sub_0_r in Heq.
  assert (Hs1 : 1 <= s).
  { destruct (Z.eq_dec s 0) as [-> |]; [| lia]. exfalso.
    rewrite Z.pow_0_r, Z.mul_1_r in Heq. subst q.
    rewrite Z.rem_mod_nonneg in Hqo by lia.
    pose proof (Z.div_mod (p - 1) 2 ltac:(lia)).
    pose proof (Z.mod_pos_bound (p - 1) 2 ltac:(lia)).
    apply Hodd. exists ((p - 1) / 2 + 1). lia. }
  assert (Hh : (p - 1) ÷ 2 = q * 2 ^ (s - 1)).
  { rewrite Heq. replace s with (Z.succ (s - 1)) at 1 by lia.
    rewrite Z.pow_succ_r by lia.
    replace (q * (2 * 2 ^ (s - 1))) with (q * 2 ^ (s - 1) * 2) by ring.
    apply Z.quot_mul. lia. }
  destruct (non_residue_exists p Hp Hp3) as (z0 & Hz0 & Hnr).
  rewrite <- Z.quot_div_nonneg in Hnr by lia.
  destruct (find_non_residue_total fuel 2 z0 p ltac:(lia) ltac:(lia) Hnr)
    as (z & -> & Hz & Hznr).
  assert (H2s : 0 <= 2 ^ (s - 1)) by (apply Z.pow_nonneg; lia).
  assert (Hsp : s < p).
  { pose proof (lt_pow2 s ltac:(lia)).
    assert (2 ^ s <= p - 1); [| lia].
    rewrite Heq. assert (0 < 2 ^ s) by (apply Z.pow_pos_nonneg; lia). nia. }
  unfold BigInt.pow_mod.
  apply tonelli_loop_total; try assumption; try lia.
  - apply Z.mod_pos_bound. lia.
  - apply Z.mod_pos_bound. lia.
  - rewrite Z.mod_pow_l, <- Z.pow_mul_r, <- Hh by lia. exact Hznr.
  - rewrite Z.mod_pow_l, <- Z.pow_mul_r, <- Hh by lia. exact Hguard.
Qed.

End TonelliShanks.

(** ** Zp::sqrt over an odd prime *)

Section SqrtTotal.

Lemma hensel_unfold (steps : nat) (k root v p : Z) :
  Zp.hensel (S steps) k root v p =
    (do r1 <- Zp.hensel 1 k root v p; Zp.hensel steps (k + 1) r1 v p).
Proof.
  cbn [Zp.hensel].
  destruct (negb (BigInt.is_zero (BigInt.rem (root * root - v) (BigInt.pow p k * p))));
    [| reflexivity].
  destruct (BigInt.mod_inverse (2 * root) p); reflexivity.
Qed.

Lemma hensel_total (p v : Z) :
  Z.prime p -> 3 <= p -> ~ (p | v) ->
  forall (steps : nat) (k root : Z),
    1 <= k -> (p ^ k | root * root - v) ->
    exists root', Zp.hensel steps k root v p = Ok root'.
Proof.
  intros Hp Hp3 Hv. induction steps as [| steps IH]; intros k root Hk Hdiv.
  - exists root. reflexivity.
  - rewrite hensel_unfold.
    assert (Hone : exists r1, Zp.hensel 1 k root v p = Ok r1).
    { cbn [Zp.hensel].
      destruct (negb (BigInt.is_zero (BigInt.rem (root * root - v) (BigInt.pow p k * p))));
        [| eauto].
      assert (Hg : Z.gcd (2 * root) p = 1).
      { rewrite Z.gcd_comm. apply Z.coprime_prime_l; [exact Hp |].
        intros Hd. apply Z.divide_prime_mul in Hd; [| exact Hp].
        destruct Hd as [Hd | Hd].
        - apply Z.divide_pos_le in Hd; lia.
        - apply Hv.
          assert (Hpk : (p | p ^ k)).
          { exists (p ^ (k - 1)). rewrite Z.mul_comm, <- Z.pow_succ_r by lia. f_equal. lia. }
          replace v with (root * root - (root * root - v)) by ring.
          apply Z.divide_sub_r; [apply Z.divide_mul_l; exact Hd |].
          eapply Z.divide_trans; [exact Hpk | exact Hdiv]. }
      unfold BigInt.mod_inverse. rewrite Hg. cbn [Z.eqb Pos.eqb]. eauto. }
    destruct Hone as (r1 & Hr1). rewrite Hr1. cbn [obind].
    apply IH; [lia |].
    apply (hensel_spec 1 k root v p r1); [lia | lia | exact Hdiv | exact Hr1].
Qed.

(** X13: over an odd prime p, sqrt decides quadratic residues: when
    x^((p-1)/2) = 1 modulo p the search for a non-residue, the
    Tonelli-Shanks loop and the Hensel lifting all terminate and sqrt
    returns r with r * r = x at the precision of x; otherwise it raises a
    domain error.  (The fuel bounds the loops of the embedding; p rounds
    are enough.) *)
Theorem sqrt_odd_prime (fuel : nat) (x : Zp.t) :
  Z.prime (Zp.prime x) -> 3 <= Zp.prime x -> Zp.wf x ->
  (Z.to_nat (Zp.prime x) <= fuel)%nat ->
  (Zp.value x ^ ((Zp.prime x - 1) / 2) mod Zp.prime x = 1 ->
   exists r, Zp.sqrt fuel x = Ok r /\ Zp.wf r /\ Zp.mul r r = Ok x) /\
  (Zp.value x ^ ((Zp.prime x - 1) / 2) mod Zp.prime x <> 1 ->
   Zp.sqrt fuel x = Throw DomainError).
Proof.
  destruct x as [p N v]. cbn [Zp.prime Zp.precision Zp.value].
  intros Hp Hp3 Hwf Hfuel. pose proof Hwf as (_ & HN & Hv). simpl in HN, Hv.
  unfold Zp.sqrt. cbn [Zp.prime Zp.precision Zp.value].
  destruct (Z.eqb_spec p 2) as [-> | _]; [lia |].
  unfold BigInt.pow_mod, BigInt.quot. rewrite Z.quot_div_nonneg by lia.
  set (h := (p - 1) / 2).
  assert (Hh : 1 <= h).
  { unfold h. apply Z.div_le_lower_bound; lia. }
  split.
  - intros Hres.
    assert (Hnd : ~ (p | v)).
    { intros [c Hc]. subst v. rewrite Z.pow_mul_l in Hres.
      replace h with (Z.succ (h - 1)) in Hres at 2 by lia.
      rewrite Z.pow_succ_r in Hres by lia.
      replace (c ^ h * (p * p ^ (h - 1))) with (c ^ h * p ^ (h - 1) * p) in Hres by ring.
      rewrite Z.mod_mul in Hres by lia. discriminate. }
    assert (Hu : Zp.is_unit (Zp.mk p N v) = true).
    { apply (is_unit_spec (Zp.mk p N v)); [simpl; lia | exact Hnd]. }
    rewrite Hu, Hres. cbn [negb Z.eqb Pos.eqb].
    destruct (tonelli_shanks_total fuel v p Hp Hp3 Hfuel) as (r0 & Hts).
    { rewrite Z.quot_div_nonneg by lia. exact Hres. }
    rewrite Hts. cbn [obind].
    apply tonelli_shanks_spec in Hts; [| lia].
    destruct (hensel_total p v Hp Hp3 Hnd (Z.to_nat (N - 1)) 1 r0 ltac:(lia))
      as (root & Hh1); [rewrite Z.pow_1_r; exact Hts |].
    rewrite Hh1. cbn [obind]. rewrite make_ok by lia.
    apply hensel_spec in Hh1; [| lia | lia | rewrite Z.pow_1_r; exact Hts].
    replace (1 + Z.of_nat (Z.to_nat (N - 1))) with N in Hh1 by lia.
    assert (Hw : Zp.wf (Zp.mk p N (root mod p ^ N))) by (apply mk_wf; lia).
    eexists. split; [reflexivity |]. split; [exact Hw |].
    rewrite (mul_ok _ _ Hw Hw eq_refl). cbn [Zp.prime Zp.precision Zp.value].
    assert (HpN : 0 < p ^ N) by (apply Z.pow_pos_nonneg; lia).
    rewrite Z.min_id. f_equal. f_equal.
    rewrite <- Z.mul_mod by lia.
    transitivity (v mod p ^ N); [| apply Z.mod_small; lia].
    apply Z.cong_iff_0. apply Z.mod_divide; [lia | exact Hh1].
  - intros Hres. destruct (negb (Zp.is_unit (Zp.mk p N v))); [reflexivity |].
    destruct (Z.eqb_spec (v ^ h mod p) 1); [contradiction | reflexivity].
Qed.

Lemma sqrt_odd_prime_witness :
  (exists r, Zp.sqrt 7 (Zp.mk 7 5 2) = Ok r /\ Zp.mul r r = Ok (Zp.mk 7 5 2)) /\
  Zp.sqrt 7 (Zp.mk 7 5 3) = Throw DomainError.
Proof.
  destruct (sqrt_odd_prime 7 (Zp.mk 7 5 2) prime_7) as [Hyes _];
    [simpl; lia | unfold Zp.wf; simpl; lia | simpl; lia |].
  destruct (sqrt_odd_prime 7 (Zp.mk 7 5 3) prime_7) as [_ Hno];
    [simpl; lia | unfold Zp.wf; simpl; lia | simpl; lia |].
  split.
  - destruct (Hyes eq_refl) as (r & Hr & _ & Hm). exists r. split; assumption.
  - apply Hno. vm_compute. discriminate.
Defined.

End SqrtTotal.

(** ** Multiplicative orders modulo a prime *)

Section Orders.

Import DirichletCharacter.

Lemma power_one_mod (x p e k : Z) :
  2 <= p -> 0 < e -> 0 <= k ->
  x ^ e mod p = 1 -> x ^ k mod p = 1 -> x ^ (k mod e) mod p = 1.
Proof.
  intros Hp He Hk H1 Hk1.
  pose proof (Z.div_mod k e ltac:(lia)) as Hdm.
  pose proof (Z.mod_pos_bound k e He) as Hr.
  assert (Hq : 0 <= k / e) by (apply Z.div_pos; lia).
  rewrite Hdm in Hk1 at 1.
  rewrite Z.pow_add_r, Z.pow_mul_r in Hk1 by lia.
  rewrite <- Z.mul_mod_idemp_l, <- Z.mod_pow_l, H1, Z.pow_1_l, Z.mod_1_l in Hk1 by lia.
  rewrite Z.mul_1_l in Hk1. exact Hk1.
Qed.

Lemma has_order_divides (x d p k : Z) :
  2 <= p -> has_order x d p -> 0 <= k -> x ^ k mod p = 1 -> (d | k).
Proof.
  intros Hp (Hd & H1 & Hmin) Hk Hk1.
  pose proof (power_one_mod x p d k Hp Hd Hk H1 Hk1) as Hr.
  pose proof (Z.mod_pos_bound k d Hd) as Hb.
  apply Z.mod_divide; [lia |].
  destruct (Z.eq_dec (k mod d) 0) as [| Hne]; [assumption | exfalso].
  apply (Hmin (k mod d)); [lia | exact Hr].
Qed.

Lemma has_order_mul (a b A B p : Z) :
  2 <= p -> has_order a A p -> has_order b B p -> Z.gcd A B = 1 ->
  has_order (a * b) (A * B) p.
Proof.
  intros Hp HA HB Hg. pose proof HA as (HA0 & HA1 & _). pose proof HB as (HB0 & HB1 & _).
  assert (Hone : forall x X Y, 0 < X -> 0 <= Y -> x ^ X mod p = 1 -> x ^ (X * Y) mod p = 1).
  { intros x X Y HX HY H1. rewrite Z.pow_mul_r by lia.
    rewrite <- Z.mod_pow_l, H1, Z.pow_1_l, Z.mod_1_l by lia. reflexivity. }
  split; [nia |]. split.
  - rewrite Z.pow_mul_l, Z.mul_mod by lia.
    rewrite (Hone a A B), (Z.mul_comm A B), (Hone b B A) by (try lia; assumption).
    apply Z.mod_1_l. lia.
  - intros e He H1.
    assert (HeB : a ^ (e * B) mod p = 1).
    { assert (H : ((a * b) ^ e) ^ B mod p = 1).
      { rewrite <- Z.mod_pow_l, H1, Z.pow_1_l, Z.mod_1_l by lia. reflexivity. }
      rewrite <- Z.pow_mul_r, Z.pow_mul_l, Z.mul_mod in H by lia.
      rewrite (Z.mul_comm e B) in H at 2. rewrite (Hone b B e) in H by (try lia; assumption).
      rewrite Z.mul_1_r, Z.mod_mod in H by lia. exact H. }
    assert (HeA : b ^ (e * A) mod p = 1).
    { assert (H : ((a * b) ^ e) ^ A mod p = 1).
      { rewrite <- Z.mod_pow_l, H1, Z.pow_1_l, Z.mod_1_l by lia. reflexivity. }
      rewrite <- Z.pow_mul_r, Z.pow_mul_l, Z.mul_mod in H by lia.
      rewrite (Z.mul_comm e A) in H at 1. rewrite (Hone a A e) in H by (try lia; assumption).
      rewrite Z.mul_1_l, Z.mod_mod in H by lia. exact H. }
    apply (has_order_divides a A p (e * B) Hp HA ltac:(nia)) in HeB.
    apply (has_order_divides b B p (e * A) Hp HB ltac:(nia)) in HeA.
    rewrite Z.mul_comm in HeB, HeA.
    apply (Z.gauss A B e) in HeB; [| exact Hg].
    apply (Z.gauss B A e) in HeA; [| rewrite Z.gcd_comm; exact Hg].
    destruct HeB as [e' He'].
    assert (HBe' : (B | e')).
    { rewrite He' in HeA. apply (Z.gauss B A e'); [rewrite Z.mul_comm; exact HeA |].
      rewrite Z.gcd_comm. exact Hg. }
    destruct HBe' as [e'' He'']. subst e' e.
    assert (0 < e'') by nia. nia.
Qed.

End Orders.

(** ** Existence of primitive roots *)

Section PrimitiveRootExists.

Import DirichletCharacter.

Lemma order_exists (x p : Z) (m : nat) :
  forall n, 0 < n <= Z.of_nat m -> x ^ n mod p = 1 -> exists d, has_order x d p.
Proof.
  induction m as [| m IH]; intros n Hn H1; [lia |].
  assert (Hdec : forall z, {z ^ 1 = z /\ x ^ z mod p = 1} + {~ (z ^ 1 = z /\ x ^ z mod p = 1)}).
  { intros z. destruct (Z.eq_dec (x ^ z mod p) 1); [left | right].
    - split; [apply Z.pow_1_r | assumption].
    - tauto. }
  destruct (List.Exists_dec _ (range 1 (Z.to_nat (n - 1))) Hdec) as [Hex | Hno].
  - apply List.Exists_exists in Hex. destruct Hex as (e & Hin & _ & He).
    apply in_range in Hin. apply (IH e); [lia | exact He].
  - exists n. split; [lia |]. split; [exact H1 |].
    intros e He He1. apply Hno. apply List.Exists_exists. exists e.
    split; [apply in_range; lia |]. split; [apply Z.pow_1_r | exact He1].
Qed.

Lemma divisor_of_prime_power (q a d : Z) :
  Z.prime q -> 1 <= a -> (d | q ^ a) -> 0 < d < q ^ a -> (d | q ^ (a - 1)).
Proof.
  intros Hq Ha [c Hc] Hd. pose proof (Z.prime_ge_2 q Hq) as Hq2.
  assert (Hc2 : 2 <= c) by nia.
  destruct (prime_divisor_exists c Hc2) as (r & Hr & Hrc).
  assert (Hrq : r = q).
  { apply (Z.divide_prime_pp r q a Hr Hq ltac:(lia)).
    rewrite Hc. apply Z.divide_mul_l. exact Hrc. }
  subst r. destruct Hrc as [c' Hc']. exists c'.
  assert (Hsplit : q ^ a = q * q ^ (a - 1)).
  { replace a with (Z.succ (a - 1)) at 1 by lia. apply Z.pow_succ_r. lia. }
  rewrite Hsplit, Hc' in Hc. nia.
Qed.

Lemma prime_power_order_exists (p q a c : Z) :
  Z.prime p -> 3 <= p -> Z.prime q -> 1 <= a -> p - 1 = q ^ a * c ->
  exists y, has_order y (q ^ a) p.
Proof.
  intros Hp Hp3 Hq Ha Heq. pose proof (Z.prime_ge_2 q Hq) as Hq2.
  assert (Hqa : 0 < q ^ a) by (apply Z.pow_pos_nonneg; lia).
  assert (Hqa1 : 0 < q ^ (a - 1)) by (apply Z.pow_pos_nonneg; lia).
  assert (Hsplit : q ^ a = q * q ^ (a - 1)).
  { replace a with (Z.succ (a - 1)) at 1 by lia. apply Z.pow_succ_r. lia. }
  assert (Hc : 1 <= c) by nia.
  destruct (exists_non_root p (q ^ (a - 1) * c) Hp) as (x & Hx & Hxe); [nia |].
  assert (Hfermat : x ^ (p - 1) mod p = 1).
  { apply Stdlib.Zmod.ZmodInv.Z.fermat_nz; [exact Hp |]. rewrite Z.mod_small; lia. }
  set (y := x ^ c).
  assert (Hy1 : y ^ (q ^ a) mod p = 1).
  { unfold y. rewrite <- Z.pow_mul_r, (Z.mul_comm c), <- Heq by lia. exact Hfermat. }
  destruct (order_exists y p (Z.to_nat (q ^ a)) (q ^ a) ltac:(lia) Hy1) as (d & Hd).
  pose proof (has_order_divides y d p (q ^ a) ltac:(lia) Hd ltac:(lia) Hy1) as Hdiv.
  destruct Hd as (Hd0 & Hd1 & Hdmin).
  assert (Hle : d <= q ^ a) by (apply Z.divide_pos_le; assumption).
  destruct (Z.eq_dec d (q ^ a)) as [-> | Hne].
  - exists y. split; [exact Hd0 |]. split; [exact Hd1 | exact Hdmin].
  - exfalso. destruct (divisor_of_prime_power q a d Hq Ha Hdiv ltac:(lia)) as [k Hk].
    assert (Hk0 : 0 < k) by nia.
    apply Hxe. rewrite (Z.mul_comm _ c), Z.pow_mul_r by lia. fold y.
    rewrite Hk, (Z.mul_comm k d), Z.pow_mul_r by lia.
    rewrite <- Z.mod_pow_l, Hd1, Z.pow_1_l, Z.mod_1_l by lia. reflexivity.
Qed.

Lemma element_of_order (p : Z) (fs : list (Z * Z)) (m one : Z) :
  Z.prime p -> 3 <= p ->
  factored_onto fs m one -> one = 1 -> (m | p - 1) ->
  exists g, has_order g m p.
Proof.
  intros Hp Hp3 Hfac. induction Hfac as [n Hn | q k fs n m n' Hq Hk Hnd Heq Hrec IH];
    intros Hone Hdiv.
  - subst n. exists 1. split; [lia |]. split; [| intros; lia].
    rewrite Z.pow_1_r. apply Z.mod_1_l. lia.
  - subst n. pose proof (Z.prime_ge_2 q Hq) as Hq2.
    destruct IH as (g' & Hg'); [exact Hone | |].
    { eapply Z.divide_trans; [| exact Hdiv]. apply Z.divide_mul_r. apply Z.divide_refl. }
    destruct Hdiv as [c Hc].
    destruct (prime_power_order_exists p q k (c * m) Hp Hp3 Hq Hk) as (y & Hy);
      [rewrite Hc; ring |].
    exists (y * g'). apply has_order_mul; [lia | exact Hy | exact Hg' |].
    apply Z.coprime_pow_l; [lia |]. apply Z.coprime_prime_l; assumption.
Qed.

Lemma primitive_root_exists (p : Z) :
  Z.prime p -> 3 <= p -> exists g, 2 <= g < p /\ primitive_root g p.
Proof.
  intros Hp Hp3.
  destruct (factorize_spec (p - 1) ltac:(lia)) as (fs & _ & Hfac).
  destruct (element_of_order p fs (p - 1) 1 Hp Hp3 Hfac eq_refl (Z.divide_refl _))
    as (g & Hg0 & Hg1 & Hgmin).
  exists (g mod p).
  assert (Hr : 0 <= g mod p < p) by (apply Z.mod_pos_bound; lia).
  assert (Hprim : primitive_root (g mod p) p).
  { intros e He. rewrite Z.mod_pow_l. apply Hgmin. exact He. }
  split; [| exact Hprim].
  assert (g mod p <> 0).
  { intros H0. rewrite <- Z.mod_pow_l, H0, Z.pow_0_l, Z.mod_0_l in Hg1 by lia. discriminate. }
  assert (g mod p <> 1).
  { intros H1. apply (Hprim 1); [lia |]. rewrite H1, Z.pow_1_r. apply Z.mod_1_l. lia. }
  lia.
Qed.

End PrimitiveRootExists.

(** ** Characters to an odd prime modulus *)

Section PrimeModulus.

Import DirichletCharacter.

Lemma search_finds_least_primitive_root (p k : Z) :
  Z.prime p -> 3 <= p -> products_fit p ->
  exists r,
    find_primitive_root (Z.to_nat p) 2 p k = Some r /\
    primitive_root r p /\
    2 <= r mod p /\ (k <= 1 -> r = r mod p) /\
    forall g', 2 <= g' < r mod p -> ~ primitive_root g' p.
Proof.
  intros Hp Hp3 Hfit.
  destruct (find_primitive_root_total (Z.to_nat p) 2 p k ltac:(lia) ltac:(lia)) as (r & Hfind).
  exists r. split; [exact Hfind |].
  destruct (find_primitive_root_inv _ _ _ _ _ Hfind) as (g & Hg2 & Hgen & Hrg & Hk & Hmin).
  destruct (primitive_root_exists p Hp Hp3) as (gs & Hgs & Hprims).
  pose proof (test_complete gs p Hp3 Hfit Hgs Hprims) as Hpass.
  assert (Hle : g <= gs).
  { destruct (Z.le_gt_cases g gs) as [| Hgt]; [assumption | exfalso].
    rewrite (Hmin gs ltac:(lia)) in Hpass. discriminate. }
  assert (Hmod : r mod p = g).
  { destruct Hrg as [-> | ->].
    - apply Z.mod_small. lia.
    - replace (g + p) with (g + 1 * p) by ring. rewrite Z.mod_add by lia.
      apply Z.mod_small. lia. }
  pose proof (test_sound _ g p Hp Hp3 Hfit ltac:(lia) Hgen) as Hprim.
  split; [| split; [| split]].
  - intros e He. rewrite <- Z.mod_pow_l, Hmod. apply Hprim. exact He.
  - lia.
  - intros Hk1. rewrite Hmod. apply Hk. exact Hk1.
  - rewrite Hmod. intros g' Hg' Hprim'.
    pose proof (test_complete g' p Hp3 Hfit ltac:(lia) Hprim') as Ht.
    rewrite (Hmin g' ltac:(lia)) in Ht. discriminate.
Qed.

Lemma NoDup_map_on {A B : Type} (f : A -> B) (l : list A) :
  (forall a b, In a l -> In b l -> f a = f b -> a = b) ->
  List.NoDup l -> List.NoDup (map f l).
Proof.
  intros Hinj Hnd. induction Hnd as [| a l Hnotin Hnd IH]; [constructor |].
  cbn [map]. constructor.
  - intros Hin. apply in_map_iff in Hin. destruct Hin as (b & Hfb & Hb).
    apply Hnotin. rewrite (Hinj a b); [exact Hb | left; reflexivity | right; exact Hb |].
    symmetry. exact Hfb.
  - apply IH. intros x y Hx Hy. apply Hinj; right; assumption.
Qed.

Lemma power_not_divisible (g p x : Z) :
  Z.prime p -> 1 <= g < p -> 0 <= x -> Z.gcd p (g ^ x) = 1.
Proof.
  intros Hp Hg Hx. apply Z.coprime_pow_r; [lia |].
  apply Z.coprime_prime_small; assumption.
Qed.

Lemma powers_injective (g p x y : Z) :
  Z.prime p -> 1 <= g < p -> primitive_root g p ->
  0 <= x < p - 1 -> 0 <= y < p - 1 -> g ^ x mod p = g ^ y mod p -> x = y.
Proof.
  intros Hp Hg Hprim. pose proof (Z.prime_ge_2 p Hp) as Hp2.
  assert (H : forall x y, 0 <= x < y -> y < p - 1 -> g ^ x mod p = g ^ y mod p -> False).
  { clear x y. intros x y Hxy Hy Heq.
    apply (Hprim (y - x)); [lia |].
    assert (Hd : (p | g ^ x * (g ^ (y - x) - 1))).
    { replace (g ^ x * (g ^ (y - x) - 1)) with (g ^ y - g ^ x).
      - apply Z.mod_divide; [lia |]. rewrite Zminus_mod, Heq, Z.sub_diag. apply Z.mod_0_l. lia.
      - replace y with (x + (y - x)) at 1 by lia. rewrite Z.pow_add_r by lia. ring. }
    apply Z.gauss in Hd; [| apply power_not_divisible; assumption || lia].
    destruct Hd as [c Hc].
    replace (g ^ (y - x)) with (1 + c * p) by lia.
    rewrite Z.mod_add by lia. apply Z.mod_1_l. lia. }
  intros Hx Hy Heq.
  destruct (Z.lt_trichotomy x y) as [Hlt | [-> | Hgt]]; [exfalso | reflexivity | exfalso].
  - apply (H x y); [lia | lia | exact Heq].
  - apply (H y x); [lia | lia | symmetry; exact Heq].
Qed.

Lemma powers_cover (g p a : Z) :
  Z.prime p -> 3 <= p -> 1 <= g < p -> primitive_root g p ->
  1 <= a < p -> exists x, 0 <= x < p - 1 /\ g ^ x mod p = a.
Proof.
  intros Hp Hp3 Hg Hprim Ha.
  set (l := map (fun x => g ^ x mod p) (range 0 (Z.to_nat (p - 1)))).
  assert (Hnd : List.NoDup l).
  { apply NoDup_map_on; [| apply range_NoDup].
    intros x y Hx Hy. apply in_range in Hx, Hy.
    apply powers_injective; assumption || lia. }
  assert (Hincl : incl l (range 1 (Z.to_nat (p - 1)))).
  { intros b Hb. apply in_map_iff in Hb. destruct Hb as (x & <- & Hx).
    apply in_range in Hx. apply in_range.
    pose proof (Z.mod_pos_bound (g ^ x) p ltac:(lia)).
    assert (g ^ x mod p <> 0); [| lia].
    intros H0. apply Z.mod_divide in H0; [| lia].
    pose proof (power_not_divisible g p x Hp Hg ltac:(lia)) as Hc.
    assert (Hdd : (p | Z.gcd p (g ^ x))) by (apply Z.gcd_greatest; [apply Z.divide_refl | exact H0]).
    rewrite Hc in Hdd. apply Z.divide_1_r_nonneg in Hdd; lia. }
  assert (Hback : incl (range 1 (Z.to_nat (p - 1))) l).
  { apply List.NoDup_length_incl; [exact Hnd | | exact Hincl].
    unfold l. rewrite length_map, !range_length. lia. }
  assert (Hin : In a l) by (apply Hback; apply in_range; lia).
  apply in_map_iff in Hin. destruct Hin as (x & Hx & Hxin).
  apply in_range in Hxin. exists x. split; [lia | exact Hx].
Qed.

Lemma pow_mod_residue (g x p : Z) :
  0 <= g -> 0 <= x -> 2 <= p -> products_fit p -> pow_mod g x p = g ^ x mod p.
Proof.
  intros Hg Hx Hp Hfit. rewrite pow_mod_spec by (assumption || lia).
  unfold power_residue. destruct (Z.gtb_spec x 0).
  - apply Z.rem_mod_nonneg; [apply Z.pow_nonneg; lia | lia].
  - assert (x = 0) by lia. subst x. rewrite Z.pow_0_r, Z.mod_1_l by lia. reflexivity.
Qed.

Lemma factored_onto_one (fs : list (Z * Z)) (n one : Z) :
  factored_onto fs n one -> one = 1 -> n = 1 -> fs = [].
Proof.
  intros Hfac Hone Hn. destruct Hfac as [n Hn' | q k fs n m n' Hq Hk Hnd Heq Hrec];
    [reflexivity | exfalso].
  pose proof (Z.prime_ge_2 q Hq).
  destruct (factored_onto_pos _ _ _ Hrec) as [Hm _].
  assert (q ^ 1 <= q ^ k) by (apply Z.pow_le_mono_r; lia).
  rewrite Z.pow_1_r in *. nia.
Qed.

Lemma factorize_prime (p : Z) : Z.prime p -> factorize p = Some [(p, 1)].
Proof.
  intros Hp. pose proof (Z.prime_ge_2 p Hp) as Hp2.
  destruct (factorize_spec p ltac:(lia)) as (fs & Hfs & Hfac). rewrite Hfs. f_equal.
  remember 1 as one eqn:Hone in Hfac.
  destruct Hfac as [n Hn | q k fs n m n' Hq Hk Hnd Heq Hrec]; [lia |].
  pose proof (Z.prime_ge_2 q Hq) as Hq2.
  assert (Hqp : q = n).
  { apply (Z.divide_prime_prime q n Hq Hp). rewrite Heq. apply Z.divide_mul_l.
    exists (q ^ (k - 1)). rewrite Z.mul_comm, <- Z.pow_succ_r by lia. f_equal. lia. }
  subst q.
  destruct (factored_onto_pos _ _ _ Hrec) as [Hm _].
  assert (Hsplit : n ^ k = n * n ^ (k - 1)).
  { replace k with (Z.succ (k - 1)) at 1 by lia. apply Z.pow_succ_r. lia. }
  assert (Hpk1 : 0 < n ^ (k - 1)) by (apply Z.pow_pos_nonneg; lia).
  assert (Hm1 : m = 1) by nia.
  assert (Hk1 : k = 1).
  { destruct (Z.eq_dec k 1); [assumption | exfalso].
    assert (n ^ 1 <= n ^ (k - 1)) by (apply Z.pow_le_mono_r; lia).
    rewrite Z.pow_1_r in *. nia. }
  rewrite Hk1. f_equal.
  apply (factored_onto_one fs m n' Hrec Hone Hm1).
Qed.

Lemma compute_generators_prime (p : Z) :
  Z.prime p -> 3 <= p -> products_fit p ->
  exists g, compute_generators p = Ok ([g], [p - 1]) /\
            2 <= g < p /\ primitive_root g p /\
            forall g', 2 <= g' < g -> ~ primitive_root g' p.
Proof.
  intros Hp Hp3 Hfit.
  destruct (search_finds_least_primitive_root p 1 Hp Hp3 Hfit)
    as (g & Hfind & Hprim & Hg2 & Hsmall & Hleast).
  specialize (Hsmall ltac:(lia)).
  pose proof (Z.mod_pos_bound g p ltac:(lia)) as Hb. rewrite <- Hsmall in Hb, Hg2, Hleast.
  exists g. split; [| split; [lia | split; assumption]].
  unfold compute_generators. destruct (Z.eqb_spec p 1); [lia |].
  rewrite (factorize_prime p Hp). cbn [all_generators].
  unfold prime_power_generators.
  destruct (Z.eqb_spec p 2); [lia |]. cbn [andb].
  rewrite Hfind. cbn [app]. simpl Z.iter.
  replace (1 * p - (1 * p) ÷ p) with (p - 1); [reflexivity |].
  rewrite Z.mul_1_l, Z.quot_same by lia. reflexivity.
Qed.

(** X18: for an odd prime p up to 3037000500, where the products of
    pow_mod modulo p stay in the 64-bit range, the search for a generator
    of (Z/p^k)* always ends, and the generator it contributes, with order
    p^k - p^(k-1), has multiplicative order p - 1 modulo p; reduced modulo
    p it is the least primitive root of p, and for k = 1 it is that root
    itself. *)
Theorem found_generator_is_primitive_root (p k : Z) :
  Z.prime p -> 3 <= p -> products_fit p -> 1 <= k ->
  exists r,
    prime_power_generators p k = Some ([r], [p ^ k - p ^ (k - 1)]) /\
    primitive_root r p /\
    2 <= r mod p /\ (k = 1 -> 2 <= r < p) /\
    forall g', 2 <= g' < r mod p -> ~ primitive_root g' p.
Proof.
  intros Hp Hp3 Hfit Hk.
  destruct (search_finds_least_primitive_root p k Hp Hp3 Hfit)
    as (r & Hfind & Hprim & Hr2 & Hsmall & Hleast).
  exists r. split; [| split; [exact Hprim | split; [exact Hr2 | split; [| exact Hleast]]]].
  - unfold prime_power_generators. rewrite iter_mul_pow by lia.
    destruct (Z.eqb_spec p 2); [lia |]. cbn [andb]. rewrite Hfind.
    assert (Hsplit : p ^ k = p ^ (k - 1) * p).
    { replace k with (Z.succ (k - 1)) at 1 by lia. rewrite Z.pow_succ_r by lia. ring. }
    rewrite Hsplit at 2. rewrite Z.quot_mul by lia. reflexivity.
  - intros ->. specialize (Hsmall ltac:(lia)).
    pose proof (Z.mod_pos_bound r p ltac:(lia)). lia.
Qed.

Lemma found_generator_is_primitive_root_witness :
  prime_power_generators 7 2 = Some ([3], [42]) /\ primitive_root 3 7 /\
  ~ primitive_root 2 7.
Proof.
  destruct (found_generator_is_primitive_root 7 2 prime_7 ltac:(lia)
              ltac:(vm_compute; discriminate) ltac:(lia))
    as (r & Hr & Hprim & _ & _ & Hleast).
  vm_compute in Hr. injection Hr as <-.
  split; [reflexivity |]. split; [exact Hprim |].
  apply Hleast. change (3 mod 7) with 3. lia.
Defined.

(** X30: for an odd prime modulus p up to 3037000500, where the products
    of pow_mod stay in the 64-bit range, the character code works on the
    cyclic group (Z/p)*: the single generator g is the least primitive
    root, express_in_generators returns the discrete logarithm x of every
    unit a (the exponent in [0, p - 1) with g^x = a modulo p), and a
    character with exponent e >= 0 takes the value 1 if e = 0 and
    e^x mod (p - 1) otherwise. *)
Theorem prime_modulus_discrete_log (p p' e : Z) (chi : t) (a : Z) :
  Z.prime p -> 3 <= p -> products_fit p -> 0 <= e ->
  make_values p p' [e] = Ok chi -> Z.gcd a p = 1 ->
  exists g x,
    generators chi = [g] /\ generator_orders chi = [p - 1] /\
    2 <= g < p /\ primitive_root g p /\
    express_in_generators chi a = [x] /\
    0 <= x < p - 1 /\ g ^ x mod p = a mod p /\
    evaluate_at chi a = if e =? 0 then 1 else e ^ x mod (p - 1).
Proof.
  intros Hp Hp3 Hfit He Hmk Hgcd.
  destruct (compute_generators_prime p Hp Hp3 Hfit) as (g & Hgen & Hg & Hprim & _).
  destruct (make_values_inv p p' [e] chi Hmk) as (gs & os & Hgen' & _ & ->).
  rewrite Hgen in Hgen'. injection Hgen' as <- <-.
  cbn [generators generator_orders].
  assert (Ha : 1 <= a mod p < p).
  { pose proof (Z.mod_pos_bound a p ltac:(lia)).
    assert (a mod p <> 0); [| lia].
    intros H0. apply Z.mod_divide in H0; [| lia].
    assert (Hdd : (p | Z.gcd a p)) by (apply Z.gcd_greatest; [exact H0 | apply Z.divide_refl]).
    rewrite Hgcd in Hdd. apply Z.divide_1_r_nonneg in Hdd; lia. }
  destruct (powers_cover g p (a mod p) Hp Hp3 ltac:(lia) Hprim Ha) as (x0 & Hx0 & Hpow0).
  set (x := find_exponent (Z.to_nat (p - 1)) 0 g (a mod p) p).
  assert (Hx : 0 <= x < p - 1 /\ g ^ x mod p = a mod p).
  { destruct (find_exponent_first (Z.to_nat (p - 1)) 0 g (a mod p) p)
      as [(Hr & Hfound & _) | [_ Hnone]].
    - fold x in Hr, Hfound.
      rewrite pow_mod_residue in Hfound by (assumption || lia). split; [lia | exact Hfound].
    - exfalso. apply (Hnone x0); [lia |].
      rewrite pow_mod_residue by (assumption || lia). exact Hpow0. }
  assert (Hexp : forall c, express_in_generators (mk c p p' [g] [p - 1] [e]) a = [x]).
  { intros c. unfold express_in_generators. cbn [modulus generators generator_orders].
    rewrite Hgcd. cbn [Z.eqb Pos.eqb negb length seq map nth].
    rewrite normalized_residue by lia. reflexivity. }
  exists g, x. split; [reflexivity |]. split; [reflexivity |]. split; [exact Hg |].
  split; [exact Hprim |]. split; [apply Hexp |]. split; [tauto |]. split; [tauto |].
  unfold evaluate_at. cbn [modulus generators generator_orders character_values].
  rewrite Hgcd. cbn [Z.eqb Pos.eqb negb].
  set (c := compute_conductor _).
  assert (Hexp' : express_in_generators (mk c p p' [g] [p - 1] [e])
                    (Z.rem (Z.rem a p + p) p) = [x]).
  { rewrite normalized_residue by lia.
    unfold express_in_generators. cbn [modulus generators generator_orders].
    rewrite gcd_normalized, Hgcd by lia. cbn [Z.eqb Pos.eqb negb length seq map nth].
    rewrite normalized_residue by lia. rewrite Z.mod_mod by lia. reflexivity. }
  rewrite Hexp'. cbn [length seq fold_left evaluate_step nth fst].
  destruct (Z.eqb_spec e 0) as [-> | Hne]; cbn [negb fst]; [reflexivity |].
  rewrite Z.lcm_1_l, Z.abs_eq, Z.mul_1_l by lia.
  assert (Hfit' : products_fit (p - 1)) by (apply (products_fit_le _ p); [lia | exact Hfit]).
  rewrite pow_mod_residue by (assumption || lia).
  pose proof (Z.mod_pos_bound (e ^ x) (p - 1) ltac:(lia)).
  rewrite Z.rem_mod_nonneg by lia. apply Z.mod_mod. lia.
Qed.

Lemma prime_modulus_discrete_log_witness :
  exists g x,
    generators chi7_5 = [g] /\ express_in_generators chi7_5 2 = [x] /\
    g ^ x mod 7 = 2 mod 7 /\ evaluate_at chi7_5 2 = 5 ^ x mod 6.
Proof.
  destruct (prime_modulus_discrete_log 7 5 5 chi7_5 2 prime_7)
    as (g & x & Hg & _ & _ & _ & Hx & _ & Hpow & Hval);
    [lia | vm_compute; discriminate | lia | reflexivity | reflexivity |].
  exists g, x. split; [exact Hg |]. split; [exact Hx |]. split; [exact Hpow | exact Hval].
Defined.

End PrimeModulus.
